(** * Black-Scholes pricing, Greeks and implied volatility

    A shallow embedding of [lib.go] (package [finance]).

    Go's [float64] is IEEE 754 binary64; it is modelled by Rocq's primitive
    [float], whose [+], [-], [*], [/], [sqrt], [abs] and comparisons are
    the binary64 operations (round to nearest, ties to even), every
    operation rounded on its own (no fused multiply-add).

    The functions [math.Log], [math.Exp], [math.Erf] and [math.Pow] belong
    to Go's standard library, not to this repository: they are parameters
    of the development.  What is assumed about them is stated where it is
    used and is limited to the special cases listed in the documentation of
    package [math], to the range and the oddness of [math.Erf] and to the
    sign of [math.Exp]. *)

From Stdlib Require Import Floats ZArith Bool Lia.

Set Warnings "-inexact-float".
Local Open Scope float_scope.

(** ** Data model *)

(** [type OptionType int] with [Call = iota] and [Put]. *)
Inductive OptionType : Set := Call | Put.

Definition OptionType_eqb (a b : OptionType) : bool :=
  match a, b with
  | Call, Call | Put, Put => true
  | _, _ => false
  end.

(** [type Option struct]; the field [OptionType] is written [OptionType']
    because the name is taken by its type. *)
Record Option : Set := mkOption {
  Price : float;
  Strike : float;
  DaysToExpiration : float;
  RiskFreeRate : float;
  UnderlyingPrice : float;
  OptionType' : OptionType
}.

(** ** The part of package [math] that is IEEE arithmetic or a constant *)

Definition Sqrt (x : float) : float := sqrt x.
Definition Abs (x : float) : float := abs x.
Definition Sqrt2 : float := 1.41421356237309504880168872420969807856967187537694807317667974.
Definition Pi : float := 3.14159265358979323846264338327950288419716939937510582097494459.

(** ** The functions of [lib.go] *)

Section BlackScholes.

Variables Log Exp Erf : float -> float.
Variable Pow : float -> float -> float.

(** [func Phi(x float64) float64] *)
Definition Phi (x : float) : float :=
  0.5 * (1 + Erf (x / Sqrt2)).

(** [func BlackScholesOptionPrice(option Option, volatility float64) float64] *)
Definition BlackScholesOptionPrice (option : Option) (volatility : float) : float :=
  let timeToExpiration := DaysToExpiration option / 365.0 in
  let d1 := (Log (UnderlyingPrice option / Strike option)
             + (RiskFreeRate option + 0.5 * Pow volatility 2) * timeToExpiration)
            / (volatility * Sqrt timeToExpiration) in
  let d2 := d1 - volatility * Sqrt timeToExpiration in
  if OptionType_eqb (OptionType' option) Call then
    UnderlyingPrice option * Phi d1
    - Strike option * Exp ((- RiskFreeRate option) * timeToExpiration) * Phi d2
  else
    Strike option * Exp ((- RiskFreeRate option) * timeToExpiration) * Phi (- d2)
    - UnderlyingPrice option * Phi (- d1).

(** [func BlackScholesVega(option Option, volatility float64) float64] *)
Definition BlackScholesVega (option : Option) (volatility : float) : float :=
  let timeToExpiration := DaysToExpiration option / 365.0 in
  let d1 := (Log (UnderlyingPrice option / Strike option)
             + (RiskFreeRate option + 0.5 * Pow volatility 2) * timeToExpiration)
            / (volatility * Sqrt timeToExpiration) in
  UnderlyingPrice option * Sqrt timeToExpiration * Exp ((-0.5) * d1 * d1)
  / Sqrt (2 * Pi).

(** [func NormalDistributionDerivative(x float64) float64] *)
Definition NormalDistributionDerivative (x : float) : float :=
  Exp ((-0.5) * Pow x 2) / Sqrt (2 * Pi).

(** [func BlackScholesGamma(option Option, vol float64) float64] *)
Definition BlackScholesGamma (option : Option) (vol : float) : float :=
  let d1 := (Log (UnderlyingPrice option / Strike option)
             + (RiskFreeRate option + 0.5 * Pow vol 2) * (DaysToExpiration option / 365.0))
            / (vol * Sqrt (DaysToExpiration option / 365.0)) in
  NormalDistributionDerivative d1
  / (UnderlyingPrice option * vol * Sqrt (DaysToExpiration option / 365.0)).

(** [func BlackScholesDelta(option Option, volatility float64) float64] *)
Definition BlackScholesDelta (option : Option) (volatility : float) : float :=
  let timeToExpiration := DaysToExpiration option / 365.0 in
  let d1 := (Log (UnderlyingPrice option / Strike option)
             + (RiskFreeRate option + volatility * volatility / 2) * timeToExpiration)
            / (volatility * Sqrt timeToExpiration) in
  if OptionType_eqb (OptionType' option) Call then
    Phi d1
  else
    Phi d1 - 1.

(** The constants of [BlackScholesImpliedVolatility]. *)
Definition initialVolatility : float := 0.2.
Definition epsilon : float := 0.0001.
Definition maxIterations : nat := 100.

(** The loop [for i := 0; i < maxIterations; i++] of
    [BlackScholesImpliedVolatility], by recursion on the number
    [maxIterations - i] of iterations that remain.  The local [vega] is
    assigned in the body and threaded with [currentVolatility]; [break]
    leaves the loop with the iterate unchanged. *)
Fixpoint newtonLoop (option : Option) (remaining : nat)
    (currentVolatility vega : float) : float * float :=
  match remaining with
  | O => (currentVolatility, vega)
  | S remaining' =>
      let targetPrice := Price option in
      let price := BlackScholesOptionPrice option currentVolatility in
      let vega := BlackScholesVega option currentVolatility in
      if Abs (price - targetPrice) <? epsilon then
        (currentVolatility, vega)
      else
        newtonLoop option remaining'
          (currentVolatility - (price - targetPrice) / vega) vega
  end.

(** [func BlackScholesImpliedVolatility(option Option) float64] *)
Definition BlackScholesImpliedVolatility (option : Option) : float :=
  fst (newtonLoop option maxIterations initialVolatility 0.0).

End BlackScholes.

(** ** A sample instance of the [math] functions

    Used only to run the model on concrete contracts (the scenarios of
    [lib_test.go]) and to show that the assumptions made on package [math]
    can be met; it is accurate to about twelve digits and is not Go's
    implementation. *)

Module Sample.

(** [1 + x/k * (1 + x/(k+1) * (...))], [n] factors deep. *)
Fixpoint expSeries (n : nat) (k x : float) : float :=
  match n with
  | O => 1
  | S n' => 1 + x / k * expSeries n' (k + 1) x
  end.

Fixpoint squareN (n : nat) (y : float) : float :=
  match n with
  | O => y
  | S n' => squareN n' (y * y)
  end.

Definition Exp (x : float) : float :=
  if is_nan x then nan
  else if x =? infinity then infinity
  else if x =? neg_infinity then 0
  else squareN 10 (expSeries 30 1 (x / 1024)).

(** [1 + t2/k * ... ] for the series of [atanh]: sum of [t2^j / (2j+1)]. *)
Fixpoint atanhSeries (n : nat) (k t2 : float) : float :=
  match n with
  | O => 1 / k
  | S n' => 1 / k + t2 * atanhSeries n' (k + 2) t2
  end.

Definition ofZ (z : Z) : float :=
  match z with
  | Z0 => 0
  | Zpos _ => of_uint63 (Uint63.of_Z z)
  | Zneg _ => - of_uint63 (Uint63.of_Z (- z))
  end.

Definition Ln2 : float := 0.693147180559945309417232121458176568.

Definition Log (x : float) : float :=
  if is_nan x then nan
  else if x <? 0 then nan
  else if x =? 0 then neg_infinity
  else if x =? infinity then infinity
  else
    let (m, e) := Z.frexp x in
    let (m, e) := if m <? 0.7071067811865476 then (2 * m, (e - 1)%Z) else (m, e) in
    let t := (m - 1) / (m + 1) in
    ofZ e * Ln2 + 2 * t * atanhSeries 20 1 (t * t).

(** [1 + a/k * (1 + a/(k+2) * ...)]: sum of [a^n / (3*5*...*(2n+1))]. *)
Fixpoint erfSeries (n : nat) (k a : float) : float :=
  match n with
  | O => 1
  | S n' => 1 + a / k * erfSeries n' (k + 2) a
  end.

Definition clamp (r : float) : float :=
  if r <=? 1 then (if 0 <=? r then r else 0) else 1.

Definition Erf (x : float) : float :=
  if is_nan x then nan
  else
    let a := abs x in
    let r := if 6 <=? a then 1
             else clamp (2 / sqrt Pi * Exp (- (a * a)) * a * erfSeries 200 3 (2 * (a * a))) in
    if x <? 0 then - r else r.

Definition Pow (x y : float) : float :=
  if y =? 0 then 1
  else if x =? 1 then 1
  else if is_nan x || is_nan y then nan
  else if y =? 2 then x * x
  else Exp (y * Log x).

End Sample.

(** ** [math.Pow] for the exponent 2, as package [math] computes it

    After its special cases, [pow.go] raises [x] to an integer power by
    repeated squaring on the fraction and the exponent given by [Frexp],
    and scales the result with [Ldexp].  For the exponent 2 the loop runs
    twice: it squares the fraction [x1], doubles the exponent [xe],
    brings [x1] back into [[0.5, 1)], then multiplies the accumulator
    [1.0] by [x1]; the result is [Ldexp(1.0 * x1, xe)].  The square of the
    fraction is rounded to 53 bits, and [Ldexp] rounds once more when the
    result is subnormal.  The other exponents are left to the sample
    instance. *)

Module GoPow.

Definition square (x : float) : float :=
  let (x1, xe) := Z.frexp x in
  let x1 := x1 * x1 in
  let xe := (2 * xe)%Z in
  let (x1, xe) := if x1 <? 0.5 then (x1 + x1, (xe - 1)%Z) else (x1, xe) in
  Z.ldexp (1 * x1) xe.

Definition Pow (x y : float) : float :=
  if (y =? 0) || (x =? 1) then 1
  else if y =? 1 then x
  else if is_nan x || is_nan y then nan
  else if y =? 2 then
    (if x =? 0 then 0 else if is_infinity x then infinity else square x)
  else Sample.Pow x y.

End GoPow.

(** ** What is assumed of package [math]

    The special cases listed in the documentation of [math.Log],
    [math.Exp], [math.Erf] and [math.Pow].  Rocq's primitive floats have a
    single NaN, so "is NaN" is equality with [nan]. *)

Record MathSpecialCases (Log Exp Erf : float -> float)
    (Pow : float -> float -> float) : Prop := {
  Log_inf : Log infinity = infinity;
  Log_negative : forall x, (x <? 0) = true -> Log x = nan;
  Log_nan : Log nan = nan;
  Exp_nan : Exp nan = nan;
  Erf_inf : Erf infinity = 1;
  Erf_neg_inf : Erf neg_infinity = -1;
  Erf_nan : Erf nan = nan;
  Pow_one : forall y, Pow 1 y = 1;
  Pow_nan_two : Pow nan 2 = nan
}.

(** [math.Erf] takes its values in [[-1, 1]] on every argument that is a
    number. *)
Definition ErfRange (Erf : float -> float) : Prop :=
  forall x, x <> nan -> ((-1) <=? Erf x) = true /\ (Erf x <=? 1) = true.

(** ** The solver of the specification (section 4.4), as a state machine

    Its state is the iteration counter and the current iterate; [price] and
    [vega] are the pricing engine and the vega function it calls. *)

Module Reference.
Section Solver.

Variables price vega : float -> float.
Variable targetPrice : float.

Inductive state : Set :=
| Iterating (iteration : nat) (currentVolatility : float)
| Returned (volatility : float).

Inductive step : state -> state -> Prop :=
| step_converged i v :
    (i < 100)%nat ->
    (Abs (price v - targetPrice) <? 0.0001) = true ->
    step (Iterating i v) (Returned v)
| step_update i v :
    (i < 100)%nat ->
    (Abs (price v - targetPrice) <? 0.0001) = false ->
    step (Iterating i v)
         (Iterating (S i) (v - (price v - targetPrice) / vega v))
| step_exhausted i v :
    (100 <= i)%nat ->
    step (Iterating i v) (Returned v).

(** [run n s s']: [s'] is reached from [s] in exactly [n] steps. *)
Inductive run : nat -> state -> state -> Prop :=
| run_here s : run 0 s s
| run_next n s s' s'' : step s s' -> run n s' s'' -> run (S n) s s''.

End Solver.
End Reference.

(** ** The formulas of the specification (sections 4.1 to 4.3)

    Written from the words of the specification, on the same numbers and
    the same library functions, to be compared with the functions of
    [lib.go]: [S], [K], [r] are the underlying price, the strike and the
    risk-free rate of the contract. *)

Module Spec.
Section Formulas.

Variables Log Exp Erf : float -> float.
Variable Pow : float -> float -> float.
Variables S K r daysToExpiration sigma : float.

Definition Phi (x : float) : float := 0.5 * (1 + Erf (x / Sqrt 2)).

Definition T : float := daysToExpiration / 365.

Definition d1 : float :=
  (Log (S / K) + (r + Pow sigma 2 / 2) * T) / (sigma * Sqrt T).

Definition d2 : float := d1 - sigma * Sqrt T.

Definition callPrice : float :=
  S * Phi d1 - K * Exp (- (r * T)) * Phi d2.

Definition putPrice : float :=
  K * Exp (- (r * T)) * Phi (- d2) - S * Phi (- d1).

End Formulas.
End Spec.

(** ** Contracts, inputs and intermediate values named by the properties *)

(** [a] and [b] agree on every field but [Price] and [OptionType]. *)
Definition sameButPriceAndType (a b : Option) : Prop :=
  Strike a = Strike b
  /\ DaysToExpiration a = DaysToExpiration b
  /\ RiskFreeRate a = RiskFreeRate b
  /\ UnderlyingPrice a = UnderlyingPrice b.

(** The contract [option] with another option type, or another price. *)
Definition withOptionType (optionType : OptionType) (option : Option) : Option :=
  mkOption (Price option) (Strike option) (DaysToExpiration option)
    (RiskFreeRate option) (UnderlyingPrice option) optionType.

Definition withPrice (price : float) (option : Option) : Option :=
  mkOption price (Strike option) (DaysToExpiration option)
    (RiskFreeRate option) (UnderlyingPrice option) (OptionType' option).

(** The inputs the specification calls valid: strike, underlying price,
    days to expiration and volatility all positive. *)
Definition validInputs (option : Option) (volatility : float) : Prop :=
  (0 <? Strike option) = true
  /\ (0 <? UnderlyingPrice option) = true
  /\ (0 <? DaysToExpiration option) = true
  /\ (0 <? volatility) = true.

(** The value of the local variable [d1] in each of the four functions. *)
Section LocalD1.

Variable Log : float -> float.
Variable Pow : float -> float -> float.

Definition d1_OptionPrice (option : Option) (volatility : float) : float :=
  let timeToExpiration := DaysToExpiration option / 365.0 in
  (Log (UnderlyingPrice option / Strike option)
   + (RiskFreeRate option + 0.5 * Pow volatility 2) * timeToExpiration)
  / (volatility * Sqrt timeToExpiration).

Definition d1_Vega (option : Option) (volatility : float) : float :=
  let timeToExpiration := DaysToExpiration option / 365.0 in
  (Log (UnderlyingPrice option / Strike option)
   + (RiskFreeRate option + 0.5 * Pow volatility 2) * timeToExpiration)
  / (volatility * Sqrt timeToExpiration).

Definition d1_Gamma (option : Option) (vol : float) : float :=
  (Log (UnderlyingPrice option / Strike option)
   + (RiskFreeRate option + 0.5 * Pow vol 2) * (DaysToExpiration option / 365.0))
  / (vol * Sqrt (DaysToExpiration option / 365.0)).

Definition d1_Delta (option : Option) (volatility : float) : float :=
  let timeToExpiration := DaysToExpiration option / 365.0 in
  (Log (UnderlyingPrice option / Strike option)
   + (RiskFreeRate option + volatility * volatility / 2) * timeToExpiration)
  / (volatility * Sqrt timeToExpiration).

End LocalD1.

(** The Newton iterates of the solver when it never stops: iterate [0] is
    the initial guess. *)
Section Iterates.

Variables Log Exp Erf : float -> float.
Variable Pow : float -> float -> float.
Variable option : Option.

Definition newtonStep (volatility : float) : float :=
  volatility
  - (BlackScholesOptionPrice Log Exp Erf Pow option volatility - Price option)
    / BlackScholesVega Log Exp Pow option volatility.

Fixpoint iterate (k : nat) : float :=
  match k with
  | O => initialVolatility
  | S k' => newtonStep (iterate k')
  end.

(** The stopping test of the loop at the iterate [volatility]. *)
Definition converged (volatility : float) : bool :=
  Abs (BlackScholesOptionPrice Log Exp Erf Pow option volatility - Price option)
  <? epsilon.

End Iterates.

(** The scenario of [lib_test.go]: at the money, thirty days. *)
Definition scenario (price : float) (optionType : OptionType) : Option :=
  mkOption price 100.0 30.0 0.05 100.0 optionType.

(** [|x - expected| > tolerance] fails a test of [lib_test.go]. *)
Definition within (tolerance x expected : float) : bool :=
  negb (tolerance <? Abs (x - expected)).

(** Contracts used as concrete inputs.  [overflowing]: every field is
    positive and finite, and [UnderlyingPrice / Strike] overflows to
    [+Inf]. *)
Definition overflowing (riskFreeRate days : float) (optionType : OptionType) : Option :=
  mkOption 0 1e-308 days riskFreeRate 1e308 optionType.

Definition strikeZero (optionType : OptionType) : Option :=
  mkOption 0 0 30.0 0.05 100.0 optionType.

Definition deepInTheMoney (optionType : OptionType) : Option :=
  mkOption 0 50.0 30.0 0.05 100.0 optionType.

Definition tiny (optionType : OptionType) : Option :=
  mkOption 0 0.000001 30.0 0.05 0.000001 optionType.


(** ** Binary64 numbers as integers

    [fval x] is the value of a finite [x] multiplied by [2^1074], an
    integer for every binary64 number; [rne m n] is [m / 2^n] rounded to
    nearest, ties to even; [finish] normalises a rounded mantissa of at
    most 54 bits. *)

Section Binary64Definitions.

Local Open Scope Z_scope.

Definition fval (x : spec_float) : Z :=
  match x with
  | S754_finite s m e => cond_Zopp s (Zpos m) * 2 ^ (e + 1074)
  | _ => 0
  end.

Definition is_fin (x : spec_float) : bool :=
  match x with
  | S754_finite _ _ _ | S754_zero _ => true
  | _ => false
  end.

Definition rne (m n : Z) : Z :=
  let q := m / 2 ^ n in
  let D := m mod 2 ^ n in
  if (2 ^ n <? 2 * D) || ((2 ^ n =? 2 * D) && Z.odd q) then q + 1 else q.

Definition finish (s : bool) (m e : Z) : spec_float :=
  if m =? 0 then S754_zero s
  else if m =? 2 ^ 53 then
    (if e + 1 <=? 971 then S754_finite s (Z.to_pos (2 ^ 52)) (e + 1) else S754_infinity s)
  else if e <=? 971 then S754_finite s (Z.to_pos m) e else S754_infinity s.

Definition SFhalf : spec_float := S754_finite false (Z.to_pos (2 ^ 52)) (-53).

Definition SFone : spec_float := S754_finite false (Z.to_pos (2 ^ 52)) (-52).

Definition SFtwo : spec_float := S754_finite false (Z.to_pos (2 ^ 52)) (-51).

End Binary64Definitions.

(** ** Inputs named by the further properties *)

(** One of the numbers read by the pricing functions is NaN: a field of
    the contract other than [Price], or the volatility. *)
Definition nanInput (option : Option) (volatility : float) : Prop :=
  Strike option = nan
  \/ UnderlyingPrice option = nan
  \/ DaysToExpiration option = nan
  \/ RiskFreeRate option = nan
  \/ volatility = nan.

(** [math.Exp] never returns a negative number. *)
Definition ExpNotNegative (Exp : float -> float) : Prop :=
  forall x, (Exp x <? 0) = false.

(** The sign bit of [x] is clear, or [x] is NaN. *)
Definition sign_clear (x : spec_float) : bool :=
  match x with
  | S754_nan => true
  | S754_zero s | S754_infinity s | S754_finite s _ _ => negb s
  end.

(** The numerator of [d1] in [BlackScholesOptionPrice], and the strike
    discounted to today, [Strike * Exp(-RiskFreeRate * timeToExpiration)],
    as the same function writes them. *)
Definition d1_numerator (Log : float -> float) (Pow : float -> float -> float)
    (option : Option) (volatility : float) : float :=
  Log (UnderlyingPrice option / Strike option)
  + (RiskFreeRate option + 0.5 * Pow volatility 2) * (DaysToExpiration option / 365.0).

Definition discountedStrike (Exp : float -> float) (option : Option) : float :=
  Strike option * Exp ((- RiskFreeRate option) * (DaysToExpiration option / 365.0)).

(** [math.Signbit]: the sign bit of [x], set for negative numbers and for
    the negative zero.  Rocq's binary64 numbers have a single NaN, of
    which no sign is kept. *)
Definition Signbit (x : float) : bool :=
  match Prim2SF x with
  | S754_zero s | S754_infinity s | S754_finite s _ _ => s
  | S754_nan => false
  end.

(** The numerator [n] of a division by a zero [z]: the quotient has the
    sign of [n] when [z] is [+0] and the opposite sign when [z] is [-0]. *)
Definition overZero (n z : float) : float :=
  if Signbit z then - n else n.

(** The prices of a call and of a put when [d1] is a quotient by zero, by
    the sign [n] of that quotient: the intrinsic value of the one in the
    money, zero for the other, and NaN for both when [n] is zero or NaN.
    [S] is the underlying price and [F] the discounted strike. *)
Definition intrinsicPrices (S F n call put : float) : Prop :=
  match n ?= 0 with
  | FGt => call = S - F /\ (put =? 0) = true
  | FLt => (call =? 0) = true /\ put = F - S
  | FEq | FNotComparable => call = nan /\ put = nan
  end.

(** Contracts used as concrete inputs: one whose days to expiration are
    zero, in the money. *)
Definition expiring (optionType : OptionType) : Option :=
  mkOption 0 50.0 0 0.05 100.0 optionType.

(** A call far out of the money: at the initial guess its price and its
    vega both underflow to zero. *)
Definition farOutOfTheMoney : Option :=
  mkOption 10.0 100.0 30.0 0.05 1.0 Call.

(** [math.Pow(+Inf, 2)] and [math.Pow(-Inf, 2)] are [+Inf], documented
    special cases of [math.Pow]. *)
Definition PowInfinity (Pow : float -> float -> float) : Prop :=
  Pow infinity 2 = infinity /\ Pow neg_infinity 2 = infinity.

(** The numerator of [d1] in [BlackScholesDelta], and the deltas of a call
    and of a put when [d1] is a division by zero of the numerator [n]. *)
Definition d1_numerator_Delta (Log : float -> float)
    (option : Option) (volatility : float) : float :=
  Log (UnderlyingPrice option / Strike option)
  + (RiskFreeRate option + volatility * volatility / 2) * (DaysToExpiration option / 365.0).

Definition intrinsicDeltas (n callDelta putDelta : float) : Prop :=
  match n ?= 0 with
  | FGt => callDelta = 1 /\ putDelta = 0
  | FLt => callDelta = 0 /\ putDelta = -1
  | FEq | FNotComparable => callDelta = nan /\ putDelta = nan
  end.

(** The denominator [volatility * Sqrt(timeToExpiration)] of [d1] is a
    zero: the volatility is a zero of either sign and the days to
    expiration are a positive finite number, or the other way round. *)
Definition zeroDenominator (option : Option) (volatility : float) : Prop :=
  ((volatility =? 0) = true
   /\ (0 <? DaysToExpiration option) = true
   /\ (DaysToExpiration option <? infinity) = true)
  \/ ((DaysToExpiration option =? 0) = true
      /\ (0 <? volatility) = true
      /\ (volatility <? infinity) = true).

(** The sign bit of that denominator: the sign bit of the input that is a
    zero, the other one being positive. *)
Definition zeroDenominatorSign (option : Option) (volatility : float) : bool :=
  xorb (Signbit volatility) (Signbit (DaysToExpiration option)).

(** [math.Erf] is an odd function: on every argument that is a number,
    [Erf(-x)] and [-Erf(x)] are equal as numbers. *)
Definition ErfOdd (Erf : float -> float) : Prop :=
  forall x, x <> nan -> (Erf (- x) =? - Erf x) = true.

(** The call and the put on the same contract. *)
Definition callPrice (Log Exp Erf : float -> float) (Pow : float -> float -> float)
    (option : Option) (volatility : float) : float :=
  BlackScholesOptionPrice Log Exp Erf Pow (withOptionType Call option) volatility.

Definition putPrice (Log Exp Erf : float -> float) (Pow : float -> float -> float)
    (option : Option) (volatility : float) : float :=
  BlackScholesOptionPrice Log Exp Erf Pow (withOptionType Put option) volatility.

(** The value of the local variable [d2] of [BlackScholesOptionPrice]. *)
Definition d2_OptionPrice (Log : float -> float) (Pow : float -> float -> float)
    (option : Option) (volatility : float) : float :=
  d1_OptionPrice Log Pow option volatility
  - volatility * Sqrt (DaysToExpiration option / 365.0).

(** * Properties *)

(** ** Binary64 arithmetic

    The operations of [float] are specified by [FloatAxioms] through the
    functions of [SpecFloat] on [spec_float].  This section reads those
    functions on integers: the value of a finite number, scaled by
    [2^1074], is [fval]; rounding is [rne]. *)

Section Binary64.

Local Open Scope Z_scope.

Lemma digits2_pos_size p : digits2_pos p = Pos.size p.
Proof. induction p; simpl; congruence. Qed.

Lemma digits2_pos_bounds p :
  2 ^ (Zpos (digits2_pos p) - 1) <= Zpos p < 2 ^ Zpos (digits2_pos p).
Proof.
  rewrite digits2_pos_size. split.
  - pose proof (Pos.size_le p) as H.
    apply Pos2Z.pos_le_pos in H. rewrite Pos2Z.inj_pow in H.
    change (Zpos p~0) with (2 * Zpos p) in H.
    replace (Zpos (Pos.size p)) with (1 + (Zpos (Pos.size p) - 1)) in H by lia.
    rewrite Z.pow_add_r in H by lia. change (2 ^ 1) with 2 in H. lia.
  - pose proof (Pos.size_gt p) as H.
    apply Pos2Z.pos_lt_pos in H. rewrite Pos2Z.inj_pow in H. exact H.
Qed.

Lemma pow2_pos n : 0 < 2 ^ n \/ n < 0.
Proof. destruct (Z_lt_le_dec n 0); [right; lia | left; apply Z.pow_pos_nonneg; lia]. Qed.

Lemma pow2_le a b : 0 <= a <= b -> 2 ^ a <= 2 ^ b.
Proof. intros. apply Z.pow_le_mono_r; lia. Qed.

Lemma pow2_lt a b : 0 <= a < b -> 2 ^ a < 2 ^ b.
Proof. intros. apply Z.pow_lt_mono_r; lia. Qed.

(** digits of a positive number, from bounds *)
Lemma digits2_pos_le p k : Zpos p < 2 ^ k -> Zpos (digits2_pos p) <= k.
Proof.
  intros H. destruct (Z_lt_le_dec k (Zpos (digits2_pos p))) as [Hlt|]; [|lia].
  exfalso. pose proof (digits2_pos_bounds p) as [Hlo _].
  destruct (Z_lt_le_dec k 0).
  - rewrite Z.pow_neg_r in H by lia. lia.
  - assert (2 ^ k <= 2 ^ (Zpos (digits2_pos p) - 1)) by (apply pow2_le; lia). lia.
Qed.

Lemma digits2_pos_ge p k : 2 ^ (k - 1) <= Zpos p -> 0 < k -> k <= Zpos (digits2_pos p).
Proof.
  intros H Hk. destruct (Z_lt_le_dec (Zpos (digits2_pos p)) k) as [Hlt|]; [|lia].
  exfalso. pose proof (digits2_pos_bounds p) as [_ Hhi].
  assert (2 ^ (Zpos (digits2_pos p)) <= 2 ^ (k - 1)) by (apply pow2_le; lia). lia.
Qed.

Lemma valid_finite s m e :
  valid_binary (S754_finite s m e) = true ->
  -1074 <= e <= 971 /\ Zpos (digits2_pos m) <= 53
  /\ (e = -1074 \/ Zpos (digits2_pos m) = 53).
Proof.
  unfold SpecFloat.valid_binary, bounded, canonical_mantissa, fexp, SpecFloat.emin, prec, emax.
  intros H. apply andb_true_iff in H. destruct H as [H1 H2].
  apply Z.eqb_eq in H1. apply Z.leb_le in H2. lia.
Qed.

Lemma valid_finite_mant s m e :
  valid_binary (S754_finite s m e) = true ->
  Zpos m < 2 ^ 53 /\ (e = -1074 \/ 2 ^ 52 <= Zpos m).
Proof.
  intros H. apply valid_finite in H. destruct H as (He & Hd & Hn).
  pose proof (digits2_pos_bounds m) as [Hlo Hhi]. split.
  - assert (2 ^ Zpos (digits2_pos m) <= 2 ^ 53) by (apply pow2_le; lia). lia.
  - destruct Hn as [Hn|Hn]; [left; exact Hn | right]. rewrite Hn in Hlo. exact Hlo.
Qed.

(** comparison of the magnitudes of two valid floats *)
Lemma mag_compare m1 e1 m2 e2 :
  valid_binary (S754_finite false m1 e1) = true ->
  valid_binary (S754_finite false m2 e2) = true ->
  match e1 ?= e2 with
  | Lt => Lt
  | Gt => Gt
  | Eq => Pos.compare_cont Eq m1 m2
  end = (Zpos m1 * 2 ^ (e1 + 1074) ?= Zpos m2 * 2 ^ (e2 + 1074)).
Proof.
  intros V1 V2.
  pose proof (valid_finite _ _ _ V1) as (He1 & _ & _).
  pose proof (valid_finite _ _ _ V2) as (He2 & _ & _).
  pose proof (valid_finite_mant _ _ _ V1) as (Hm1 & Hn1).
  pose proof (valid_finite_mant _ _ _ V2) as (Hm2 & Hn2).
  assert (Hstep : forall ma a mb b, Zpos ma < 2 ^ 53 -> 2 ^ 52 <= Zpos mb ->
            0 <= a < b -> Zpos ma * 2 ^ a < Zpos mb * 2 ^ b).
  { intros ma a mb b Ha Hb Hab.
    replace b with ((b - a - 1) + 1 + a) by lia.
    rewrite !Z.pow_add_r by lia. change (2 ^ 1) with 2.
    assert (0 < 2 ^ a) by (apply Z.pow_pos_nonneg; lia).
    assert (0 < 2 ^ (b - a - 1)) by (apply Z.pow_pos_nonneg; lia).
    apply Z.lt_le_trans with (2 ^ 53 * 2 ^ a).
    - apply Z.mul_lt_mono_pos_r; assumption.
    - change (2 ^ 53) with (2 ^ 52 * 2).
      transitivity (Zpos mb * (1 * 2 * 2 ^ a)).
      + rewrite Z.mul_1_l, Z.mul_assoc. apply Z.mul_le_mono_nonneg_r; lia.
      + apply Z.mul_le_mono_nonneg_l; [lia|].
        apply Z.mul_le_mono_nonneg_r; [lia|].
        apply Z.mul_le_mono_nonneg_r; lia. }
  destruct (e1 ?= e2) eqn:E.
  - apply Z.compare_eq in E. subst e2.
    assert (0 < 2 ^ (e1 + 1074)) by (apply Z.pow_pos_nonneg; lia).
    rewrite <- Zmult_compare_compat_r by lia. reflexivity.
  - assert (E' : e1 < e2) by (apply Z.compare_lt_iff; exact E).
    symmetry. apply Z.compare_lt_iff.
    apply Hstep; [exact Hm1 | destruct Hn2; [lia | assumption] | lia].
  - assert (E' : e2 < e1) by (apply Z.compare_gt_iff; exact E).
    symmetry. apply Z.compare_gt_iff.
    apply Hstep; [exact Hm2 | destruct Hn1; [lia | assumption] | lia].
Qed.

Lemma SFcompare_fval a b :
  valid_binary a = true -> valid_binary b = true ->
  is_fin a = true -> is_fin b = true ->
  SFcompare a b = Some (fval a ?= fval b).
Proof.
  intros Va Vb Fa Fb.
  destruct a as [sa|?| |sa ma ea]; try discriminate;
  destruct b as [sb|?| |sb mb eb]; try discriminate;
  unfold SFcompare, fval.
  - reflexivity.
  - pose proof (valid_finite _ _ _ Vb) as (He & _).
    assert (0 < 2 ^ (eb + 1074)) by (apply Z.pow_pos_nonneg; lia).
    destruct sb; unfold cond_Zopp; f_equal; symmetry.
    + apply Z.compare_gt_iff. nia.
    + apply Z.compare_lt_iff. nia.
  - pose proof (valid_finite _ _ _ Va) as (He & _).
    assert (0 < 2 ^ (ea + 1074)) by (apply Z.pow_pos_nonneg; lia).
    destruct sa; unfold cond_Zopp; f_equal; symmetry.
    + apply Z.compare_lt_iff. nia.
    + apply Z.compare_gt_iff. nia.
  - pose proof (valid_finite _ _ _ Va) as (Hea & _).
    pose proof (valid_finite _ _ _ Vb) as (Heb & _).
    assert (0 < 2 ^ (ea + 1074)) by (apply Z.pow_pos_nonneg; lia).
    assert (0 < 2 ^ (eb + 1074)) by (apply Z.pow_pos_nonneg; lia).
    destruct sa, sb; unfold cond_Zopp; f_equal.
    + assert (Va' : valid_binary (S754_finite false ma ea) = true) by exact Va.
      assert (Vb' : valid_binary (S754_finite false mb eb) = true) by exact Vb.
      pose proof (mag_compare ma ea mb eb Va' Vb') as Hc.
      rewrite !Z.mul_opp_l, Z.compare_opp, <- (mag_compare mb eb ma ea Vb' Va').
      destruct (ea ?= eb) eqn:E; rewrite (Z.compare_antisym ea eb), E; simpl; try reflexivity.
      rewrite (Pos.compare_cont_antisym ma mb Eq). reflexivity.
    + symmetry. apply Z.compare_lt_iff. nia.
    + symmetry. apply Z.compare_gt_iff. nia.
    + apply mag_compare; assumption.
Qed.

Lemma shr_1_spec m r s :
  0 <= m ->
  shr_1 (Build_shr_record m r s) = Build_shr_record (Z.div2 m) (Z.odd m) (r || s).
Proof.
  intros Hm. destruct m as [|p|p]; [reflexivity| |lia].
  destruct p; reflexivity.
Qed.

Lemma iter_pos_nat {A} (f : A -> A) n : forall x,
  SpecFloat.iter_pos f n x = Nat.iter (Pos.to_nat n) f x.
Proof.
  induction n as [n IH|n IH|]; intros x; simpl SpecFloat.iter_pos.
  - rewrite !IH, Pos2Nat.inj_xI.
    rewrite <- Nat.iter_add, <- Nat.iter_succ_r. f_equal. lia.
  - rewrite !IH, Pos2Nat.inj_xO, <- Nat.iter_add. f_equal. lia.
  - reflexivity.
Qed.

(** [k] right shifts of [m], starting from an exact record: the quotient,
    and the position of the remainder with respect to one half. *)
Lemma shr_nat k m :
  0 <= m ->
  let K := Z.of_nat k in
  let D := m mod 2 ^ K in
  Nat.iter k shr_1 (Build_shr_record m false false)
  = Build_shr_record (m / 2 ^ K) (2 ^ K <=? 2 * D) (negb ((2 * D) mod 2 ^ K =? 0)).
Proof.
  intros Hm. induction k as [|k IH].
  - simpl. rewrite Z.div_1_r, Z.mod_1_r. reflexivity.
  - cbv zeta in *. rewrite Nat.iter_succ, IH. clear IH.
    assert (Hp : 0 < 2 ^ Z.of_nat k) by (apply Z.pow_pos_nonneg; lia).
    assert (Hq : 0 <= m / 2 ^ Z.of_nat k) by (apply Z.div_pos; lia).
    rewrite shr_1_spec by exact Hq.
    replace (Z.of_nat (S k)) with (Z.of_nat k + 1) by lia.
    rewrite Z.pow_add_r by lia. change (2 ^ 1) with 2.
    set (P := 2 ^ Z.of_nat k) in *.
    rewrite Z.rem_mul_r by lia.
    rewrite Z.div2_div, Z.div_div by lia.
    pose proof (Z.mod_pos_bound m P Hp) as HD.
    set (D := m mod P) in *.
    set (q := m / P) in *.
    assert (Hb : q mod 2 = if Z.odd q then 1 else 0).
    { rewrite Zmod_odd. reflexivity. }
    rewrite Hb. f_equal.
    + destruct (Z.odd q); symmetry; [apply Z.leb_le | apply Z.leb_gt]; lia.
    + assert (E : (2 * (D + P * (if Z.odd q then 1 else 0))) mod (P * 2) = 2 * D).
      { destruct (Z.odd q).
        - replace (2 * (D + P * 1)) with (2 * D + 1 * (P * 2)) by lia.
          rewrite Z.mod_add by lia. apply Z.mod_small. lia.
        - replace (2 * (D + P * 0)) with (2 * D) by lia. apply Z.mod_small. lia. }
      rewrite E. clear E Hb.
      destruct (Z.eq_dec D 0) as [HD0|HD0].
      * rewrite HD0. simpl (2 * 0). rewrite Z.mod_0_l by lia.
        replace (P <=? 0) with false by (symmetry; apply Z.leb_gt; lia).
        reflexivity.
      * replace (2 * D =? 0) with false by (symmetry; apply Z.eqb_neq; lia).
        cbn [negb orb andb].
        destruct (Z.leb_spec P (2 * D)) as [Hle|Hlt]; [reflexivity|].
        rewrite Z.mod_small by lia.
        replace (2 * D =? 0) with false by (symmetry; apply Z.eqb_neq; lia).
        reflexivity.
Qed.

Lemma shr_rne m e n :
  0 <= m -> 0 < n ->
  let '(mrs, e') := shr (Build_shr_record m false false) e n in
  round_nearest_even (shr_m mrs) (loc_of_shr_record mrs) = rne m n /\ e' = e + n.
Proof.
  intros Hm Hn. destruct n as [|p|p]; try lia.
  unfold shr. split; [|reflexivity].
  rewrite iter_pos_nat, shr_nat by exact Hm. cbv zeta.
  rewrite positive_nat_Z.
  assert (Hp : 0 < 2 ^ Zpos p) by (apply Z.pow_pos_nonneg; lia).
  pose proof (Z.mod_pos_bound m (2 ^ Zpos p) Hp) as HD.
  unfold rne. set (P := 2 ^ Zpos p) in *. set (D := m mod P) in *.
  set (q := m / P). unfold shr_m, loc_of_shr_record, round_nearest_even.
  destruct (Z.leb_spec P (2 * D)) as [Hle|Hlt].
  - destruct (Z.eq_dec (2 * D) P) as [E|E].
    + rewrite E, Z.mod_same by lia.
      rewrite (Z.ltb_irrefl P), (Z.eqb_refl P), (Z.eqb_refl 0), <- Z.negb_odd.
      destruct (Z.odd q); reflexivity.
    + assert (Hmod : (2 * D) mod P = 2 * D - P).
      { replace (2 * D) with ((2 * D - P) + 1 * P) at 1 by lia.
        rewrite Z.mod_add by lia. apply Z.mod_small. lia. }
      rewrite Hmod.
      replace (2 * D - P =? 0) with false by (symmetry; apply Z.eqb_neq; lia).
      cbn [negb orb andb].
      replace (P <? 2 * D) with true by (symmetry; apply Z.ltb_lt; lia).
      reflexivity.
  - replace (P <? 2 * D) with false by (symmetry; apply Z.ltb_ge; lia).
    replace (P =? 2 * D) with false by (symmetry; apply Z.eqb_neq; lia).
    cbn [orb andb]. destruct (negb ((2 * D) mod P =? 0)); reflexivity.
Qed.

(** [rne m n] is a nearest multiple: bounds and error. *)
Lemma rne_error m n :
  0 <= m -> 0 < n ->
  2 * Z.abs (rne m n * 2 ^ n - m) <= 2 ^ n.
Proof.
  intros Hm Hn. unfold rne.
  assert (Hp : 0 < 2 ^ n) by (apply Z.pow_pos_nonneg; lia).
  pose proof (Z.mod_pos_bound m (2 ^ n) Hp) as HD.
  pose proof (Z.div_mod m (2 ^ n) ltac:(lia)) as Hdm.
  set (P := 2 ^ n) in *. set (D := m mod P) in *. set (q := m / P) in *.
  assert (Hup : (q + 1) * P - m = P - D) by (clearbody q D; subst m; ring).
  assert (Hdn : q * P - m = - D) by (clearbody q D; subst m; ring).
  destruct (Z.ltb_spec P (2 * D)); cbn [orb andb].
  - rewrite Hup. lia.
  - destruct (Z.eqb_spec P (2 * D)); cbn [orb andb]; [destruct (Z.odd q)|];
      rewrite ?Hup, ?Hdn; lia.
Qed.

Lemma rne_exact m n :
  0 <= m -> 0 < n -> m mod 2 ^ n = 0 -> rne m n = m / 2 ^ n.
Proof.
  intros Hm Hn H0. unfold rne. rewrite H0.
  assert (Hp : 0 < 2 ^ n) by (apply Z.pow_pos_nonneg; lia).
  replace (2 ^ n <? 2 * 0) with false by (symmetry; apply Z.ltb_ge; lia).
  replace (2 ^ n =? 2 * 0) with false by (symmetry; apply Z.eqb_neq; lia).
  reflexivity.
Qed.

Lemma rne_between m n :
  0 <= m -> 0 < n -> m / 2 ^ n <= rne m n <= m / 2 ^ n + 1.
Proof.
  intros Hm Hn. unfold rne.
  destruct ((2 ^ n <? 2 * (m mod 2 ^ n)) || ((2 ^ n =? 2 * (m mod 2 ^ n)) && Z.odd (m / 2 ^ n))); lia.
Qed.

(** rounding never crosses a multiple of [2^n] that is a power of two *)
Lemma rne_le_pow m n j :
  0 <= m -> 0 < n <= j -> m <= 2 ^ j -> rne m n <= 2 ^ (j - n).
Proof.
  intros Hm Hn Hj.
  assert (Hp : 0 < 2 ^ n) by (apply Z.pow_pos_nonneg; lia).
  assert (Hs : 2 ^ j = 2 ^ (j - n) * 2 ^ n).
  { rewrite <- Z.pow_add_r by lia. f_equal. lia. }
  destruct (Z.eq_dec (m mod 2 ^ n) 0) as [E|E].
  - rewrite rne_exact by (assumption || lia).
    apply Z.div_le_upper_bound; [lia|]. rewrite Z.mul_comm, <- Hs. exact Hj.
  - pose proof (rne_between m n Hm ltac:(lia)) as [_ Hr].
    pose proof (Z.div_mod m (2 ^ n) ltac:(lia)) as Hdm.
    pose proof (Z.mod_pos_bound m (2 ^ n) Hp) as HD.
    assert (m / 2 ^ n < 2 ^ (j - n)); [|lia].
    apply Z.div_lt_upper_bound; [lia|]. rewrite Z.mul_comm, <- Hs.
    destruct (Z.eq_dec m (2 ^ j)) as [Em|]; [|lia].
    exfalso. apply E. rewrite Em, Hs. apply Z.mod_mul. lia.
Qed.

Lemma rne_ge_pow m n j :
  0 <= m -> 0 < n <= j -> 2 ^ j <= m -> 2 ^ (j - n) <= rne m n.
Proof.
  intros Hm Hn Hj.
  assert (Hp : 0 < 2 ^ n) by (apply Z.pow_pos_nonneg; lia).
  assert (Hs : 2 ^ j = 2 ^ (j - n) * 2 ^ n).
  { rewrite <- Z.pow_add_r by lia. f_equal. lia. }
  pose proof (rne_between m n Hm ltac:(lia)) as [Hr _].
  transitivity (m / 2 ^ n); [|exact Hr].
  apply Z.div_le_lower_bound; [lia|]. rewrite Z.mul_comm, <- Hs. exact Hj.
Qed.

Lemma fexp64 x : fexp prec emax x = Z.max (x - 53) (-1074).
Proof. reflexivity. Qed.

Lemma Zdigits2_le m k : 0 <= m < 2 ^ k -> 0 <= k -> Zdigits2 m <= k.
Proof.
  intros [H0 H1] Hk. destruct m as [|p|p]; simpl; [lia| |lia].
  apply digits2_pos_le. exact H1.
Qed.

Lemma rne_small m n : 0 <= m -> 0 < n -> m < 2 ^ (n - 1) -> rne m n = 0.
Proof.
  intros Hm Hn H. unfold rne.
  assert (Hs : 2 ^ n = 2 * 2 ^ (n - 1)).
  { replace n with (1 + (n - 1)) at 1 by lia. rewrite Z.pow_add_r by lia. reflexivity. }
  rewrite Z.div_small, Z.mod_small by lia.
  replace (2 ^ n <? 2 * m) with false by (symmetry; apply Z.ltb_ge; lia).
  replace (2 ^ n =? 2 * m) with false by (symmetry; apply Z.eqb_neq; lia).
  reflexivity.
Qed.

Lemma rne_nonneg m n : 0 <= m -> 0 < n -> 0 <= rne m n.
Proof.
  intros Hm Hn. pose proof (rne_between m n Hm Hn) as [H _].
  assert (0 <= m / 2 ^ n); [|lia].
  apply Z.div_pos; [lia|]. apply Z.pow_pos_nonneg; lia.
Qed.

(** The second normalisation of [binary_round_aux]: a mantissa of at most
    53 bits is kept, the carry [2^53] is renormalised. *)
Lemma bra_second s m1 e1 :
  0 <= m1 <= 2 ^ 53 -> -1074 <= e1 ->
  (let '(mrs, e2) := shr_fexp prec emax m1 e1 loc_Exact in
   match shr_m mrs with
   | Z0 => S754_zero s
   | Zpos m => if e2 <=? emax - prec then S754_finite s m e2 else S754_infinity s
   | Zneg _ => S754_nan
   end) = finish s m1 e1.
Proof.
  intros Hm He. unfold finish.
  destruct (Z.eqb_spec m1 0) as [E0|E0].
  - subst m1. unfold shr_fexp. rewrite fexp64. simpl Zdigits2.
    replace (Z.max (0 + e1 - 53) (-1074) - e1) with (- (e1 - Z.max (e1 - 53) (-1074))) by lia.
    destruct (e1 - Z.max (e1 - 53) (-1074)) eqn:E; try lia; reflexivity.
  - destruct (Z.eqb_spec m1 (2 ^ 53)) as [E1|E1].
    + subst m1. unfold shr_fexp. rewrite fexp64.
      change (Zdigits2 (2 ^ 53)) with 54.
      replace (Z.max (54 + e1 - 53) (-1074) - e1) with 1 by lia.
      reflexivity.
    + assert (Hd : Zdigits2 m1 <= 53) by (apply Zdigits2_le; lia).
      unfold shr_fexp. rewrite fexp64.
      assert (Hn : Z.max (Zdigits2 m1 + e1 - 53) (-1074) - e1 <= 0) by lia.
      destruct (Z.max (Zdigits2 m1 + e1 - 53) (-1074) - e1) eqn:E; try lia;
        destruct m1 as [|pm|pm]; try lia; reflexivity.
Qed.

Lemma bra_noshift s p e :
  fexp prec emax (Zpos (digits2_pos p) + e) <= e ->
  binary_round_aux prec emax s (Zpos p) e loc_Exact
  = if e <=? 971 then S754_finite s p e else S754_infinity s.
Proof.
  intros H. unfold binary_round_aux, shr_fexp.
  change (Zdigits2 (Zpos p)) with (Zpos (digits2_pos p)).
  destruct (fexp prec emax (Zpos (digits2_pos p) + e) - e) eqn:E; try lia;
    cbn [shr shr_record_of_loc shr_m loc_of_shr_record round_nearest_even];
    change (Zdigits2 (Zpos p)) with (Zpos (digits2_pos p)); rewrite E; reflexivity.
Qed.

Lemma bra_shift s p e :
  let n := fexp prec emax (Zpos (digits2_pos p) + e) - e in
  0 < n ->
  binary_round_aux prec emax s (Zpos p) e loc_Exact
  = finish s (rne (Zpos p) n) (e + n).
Proof.
  intros n Hn. unfold binary_round_aux, shr_fexp at 1.
  change (Zdigits2 (Zpos p)) with (Zpos (digits2_pos p)). fold n.
  cbn [shr_record_of_loc].
  pose proof (shr_rne (Zpos p) e n ltac:(lia) Hn) as Hs.
  destruct (shr {| shr_m := Zpos p; shr_r := false; shr_s := false |} e n) as [mrs e'].
  destruct Hs as [Hr He]. rewrite Hr, He.
  pose proof (digits2_pos_bounds p) as [Hlo Hhi].
  set (d := Zpos (digits2_pos p)) in *.
  assert (Hfe : e + n = Z.max (d + e - 53) (-1074)) by (unfold n; rewrite fexp64; lia).
  apply bra_second; [|lia].
  split; [apply rne_nonneg; lia|].
  destruct (Z_le_gt_dec n d) as [Hnd|Hnd].
  - transitivity (2 ^ (d - n)).
    + apply rne_le_pow; lia.
    + apply pow2_le. lia.
  - rewrite rne_small; try lia.
    assert (2 ^ d <= 2 ^ (n - 1)) by (apply pow2_le; lia). lia.
Qed.

Lemma iter_xO p d : Zpos (Pos.iter xO p d) = Zpos p * 2 ^ Zpos d.
Proof.
  revert p. induction d using Pos.peano_ind; intros p.
  - simpl. lia.
  - rewrite Pos.iter_succ, Pos2Z.inj_succ, Z.pow_succ_r by lia.
    rewrite Pos2Z.inj_xO, IHd. ring.
Qed.

Lemma shl_align_spec p e f :
  shl_align p e f
  = if f <? e then (Z.to_pos (Zpos p * 2 ^ (e - f)), f) else (p, e).
Proof.
  unfold shl_align. destruct (Z.ltb_spec f e) as [H|H].
  - destruct (f - e) eqn:E; try lia.
    replace (e - f) with (Zpos p0) by lia.
    rewrite <- iter_xO. reflexivity.
  - destruct (f - e) eqn:E; try lia; reflexivity.
Qed.

Lemma digits2_pos_shift p k :
  0 <= k ->
  Zpos (digits2_pos (Z.to_pos (Zpos p * 2 ^ k))) = Zpos (digits2_pos p) + k.
Proof.
  intros Hk.
  assert (Hp : 0 < 2 ^ k) by (apply Z.pow_pos_nonneg; lia).
  pose proof (digits2_pos_bounds p) as [Hlo Hhi].
  set (d := Zpos (digits2_pos p)) in *.
  assert (Hd : 0 < d) by (unfold d; lia).
  assert (Hm : Zpos (Z.to_pos (Zpos p * 2 ^ k)) = Zpos p * 2 ^ k) by (apply Z2Pos.id; lia).
  apply Z.le_antisymm.
  - apply digits2_pos_le. rewrite Hm, Z.pow_add_r by lia.
    apply Z.mul_lt_mono_pos_r; lia.
  - apply digits2_pos_ge; [|lia]. rewrite Hm.
    replace (d + k - 1) with ((d - 1) + k) by lia.
    rewrite Z.pow_add_r by lia. apply Z.mul_le_mono_nonneg_r; lia.
Qed.

(** The result of [binary_round], by cases on the position of the
    mantissa with respect to the format. *)
Lemma binary_round_spec s p e :
  let f := fexp prec emax (Zpos (digits2_pos p) + e) in
  binary_round prec emax s p e
  = if f <=? e then
      (if f <=? 971 then S754_finite s (Z.to_pos (Zpos p * 2 ^ (e - f))) f
       else S754_infinity s)
    else finish s (rne (Zpos p) (f - e)) f.
Proof.
  intros f. unfold binary_round. fold f. rewrite shl_align_spec.
  assert (Hf : fexp prec emax (Zpos (digits2_pos p) + e) = f) by reflexivity.
  clearbody f.
  destruct (Z.ltb_spec f e) as [H|H].
  - replace (f <=? e) with true by (symmetry; apply Z.leb_le; lia).
    apply bra_noshift.
    rewrite digits2_pos_shift by lia.
    replace (Zpos (digits2_pos p) + (e - f) + f) with (Zpos (digits2_pos p) + e) by lia.
    lia.
  - destruct (Z.leb_spec f e) as [H'|H'].
    + assert (f = e) by lia. subst e.
      replace (f - f) with 0 by lia. rewrite Z.mul_1_r. simpl Z.to_pos.
      apply bra_noshift. lia.
    + rewrite bra_shift; rewrite Hf; [|lia]. f_equal. lia.
Qed.

(** ** Magnitude and sign of a rounded value *)

Lemma pow2_le_inv a b : 0 <= b -> 2 ^ a <= 2 ^ b -> a <= b.
Proof. intros Hb H. apply (Z.pow_le_mono_r_iff 2); lia. Qed.

Lemma binary_round_bounded s p e K :
  -1074 <= e -> 0 <= K <= 2097 ->
  Zpos p * 2 ^ (e + 1074) <= 2 ^ K ->
  let r := binary_round prec emax s p e in
  is_fin r = true /\ Z.abs (fval r) <= 2 ^ K
  /\ fval r = cond_Zopp s (Z.abs (fval r)).
Proof.
  intros He HK Hv r. unfold r. rewrite binary_round_spec. rewrite fexp64.
  pose proof (digits2_pos_bounds p) as [Hlo Hhi].
  set (d := Zpos (digits2_pos p)) in *.
  assert (Hd : 0 < d) by (unfold d; lia).
  assert (Hpe : 0 < 2 ^ (e + 1074)) by (apply Z.pow_pos_nonneg; lia).
  (* the binade of the value *)
  assert (HdK : d - 1 + (e + 1074) <= K).
  { apply pow2_le_inv; [lia|]. rewrite Z.pow_add_r by lia.
    transitivity (Zpos p * 2 ^ (e + 1074)); [|exact Hv].
    apply Z.mul_le_mono_nonneg_r; lia. }
  set (f := Z.max (d + e - 53) (-1074)).
  destruct (Z.leb_spec f e) as [Hfe|Hfe].
  - replace (f <=? 971) with true by (symmetry; apply Z.leb_le; lia).
    assert (Hm : Zpos (Z.to_pos (Zpos p * 2 ^ (e - f))) = Zpos p * 2 ^ (e - f)).
    { apply Z2Pos.id. assert (0 < 2 ^ (e - f)) by (apply Z.pow_pos_nonneg; lia). lia. }
    assert (Hval : Zpos (Z.to_pos (Zpos p * 2 ^ (e - f))) * 2 ^ (f + 1074)
                   = Zpos p * 2 ^ (e + 1074)).
    { rewrite Hm, <- Z.mul_assoc, <- Z.pow_add_r by lia. do 2 f_equal. lia. }
    cbn [is_fin fval]. split; [reflexivity|].
    destruct s; cbn [cond_Zopp]; rewrite ?Z.mul_opp_l, ?Z.abs_opp, Hval;
      rewrite Z.abs_eq by lia; split; lia.
  - assert (Hn : f - e = d - 53) by lia.
    assert (Hf : f = d + e - 53) by lia.
    rewrite Hn.
    assert (Hlo' : 2 ^ 52 <= rne (Zpos p) (d - 53)).
    { replace 52 with ((d - 1) - (d - 53)) by lia. apply rne_ge_pow; lia. }
    set (j := K - (e + 1074)).
    assert (Hj : Zpos p <= 2 ^ j).
    { apply Z.mul_le_mono_pos_r with (2 ^ (e + 1074)); [lia|].
      rewrite <- Z.pow_add_r by lia. replace (j + (e + 1074)) with K by lia. exact Hv. }
    assert (Hhi' : rne (Zpos p) (d - 53) <= 2 ^ (j - (d - 53))).
    { apply rne_le_pow; lia. }
    set (m1 := rne (Zpos p) (d - 53)) in *.
    assert (Hpf : 0 < 2 ^ (f + 1074)) by (apply Z.pow_pos_nonneg; lia).
    assert (Hv1 : m1 * 2 ^ (f + 1074) <= 2 ^ K).
    { transitivity (2 ^ (j - (d - 53)) * 2 ^ (f + 1074)).
      - apply Z.mul_le_mono_nonneg_r; lia.
      - rewrite <- Z.pow_add_r by lia. apply pow2_le. lia. }
    assert (Hm1 : 2 ^ 52 * 2 ^ (f + 1074) <= 2 ^ K).
    { transitivity (m1 * 2 ^ (f + 1074)); [|exact Hv1].
      apply Z.mul_le_mono_nonneg_r; lia. }
    rewrite <- Z.pow_add_r in Hm1 by lia.
    apply pow2_le_inv in Hm1; [|lia].
    unfold finish.
    replace (m1 =? 0) with false by (symmetry; apply Z.eqb_neq; lia).
    destruct (Z.eqb_spec m1 (2 ^ 53)) as [E|E].
    + rewrite E in Hv1. rewrite <- Z.pow_add_r in Hv1 by lia.
      apply pow2_le_inv in Hv1; [|lia].
      replace (f + 1 <=? 971) with true by (symmetry; apply Z.leb_le; lia).
      cbn [is_fin fval]. split; [reflexivity|].
      assert (Hval : Zpos (Z.to_pos (2 ^ 52)) * 2 ^ (f + 1 + 1074) <= 2 ^ K).
      { change (Zpos (Z.to_pos (2 ^ 52))) with (2 ^ 52).
        rewrite <- Z.pow_add_r by lia. apply pow2_le. lia. }
      assert (0 < Zpos (Z.to_pos (2 ^ 52)) * 2 ^ (f + 1 + 1074)).
      { apply Z.mul_pos_pos; [lia|]. apply Z.pow_pos_nonneg; lia. }
      destruct s; cbn [cond_Zopp]; rewrite ?Z.mul_opp_l, ?Z.abs_opp;
        rewrite Z.abs_eq by lia; split; lia.
    + replace (f <=? 971) with true by (symmetry; apply Z.leb_le; lia).
      cbn [is_fin fval]. split; [reflexivity|].
      rewrite Z2Pos.id by lia.
      assert (0 < m1 * 2 ^ (f + 1074)) by (apply Z.mul_pos_pos; lia).
      destruct s; cbn [cond_Zopp]; rewrite ?Z.mul_opp_l, ?Z.abs_opp;
        rewrite Z.abs_eq by lia; split; lia.
Qed.

Lemma binary_normalize_bounded M e K :
  -1074 <= e -> 0 <= K <= 2097 ->
  Z.abs M * 2 ^ (e + 1074) <= 2 ^ K ->
  let r := binary_normalize prec emax M e false in
  is_fin r = true /\ Z.abs (fval r) <= 2 ^ K
  /\ (0 <= M -> 0 <= fval r) /\ (M <= 0 -> fval r <= 0).
Proof.
  intros He HK Hv r. unfold r, binary_normalize.
  destruct M as [|p|p].
  - cbn [is_fin fval]. assert (0 < 2 ^ K) by (apply Z.pow_pos_nonneg; lia).
    repeat split; simpl; lia.
  - destruct (binary_round_bounded false p e K He HK Hv) as (Hf & Hb & Hs).
    cbn [cond_Zopp] in Hs. repeat split; try assumption; lia.
  - destruct (binary_round_bounded true p e K He HK Hv) as (Hf & Hb & Hs).
    cbn [cond_Zopp] in Hs. repeat split; try assumption; lia.
Qed.

Lemma fst_shl_align m e ez :
  ez <= e -> Zpos (fst (shl_align m e ez)) = Zpos m * 2 ^ (e - ez).
Proof.
  intros H. rewrite shl_align_spec. destruct (Z.ltb_spec ez e) as [Hlt|Hge]; cbn [fst].
  - apply Z2Pos.id. assert (0 < 2 ^ (e - ez)) by (apply Z.pow_pos_nonneg; lia). lia.
  - replace (e - ez) with 0 by lia. lia.
Qed.

Lemma aligned_value s m e ez :
  -1074 <= ez <= e ->
  cond_Zopp s (Zpos (fst (shl_align m e ez))) * 2 ^ (ez + 1074)
  = fval (S754_finite s m e).
Proof.
  intros H. rewrite fst_shl_align by lia. cbn [fval].
  replace (e + 1074) with ((e - ez) + (ez + 1074)) by lia.
  rewrite (Z.pow_add_r 2 (e - ez) (ez + 1074)) by lia.
  destruct s; cbn [cond_Zopp]; ring.
Qed.

(** The sum and the difference of two finite numbers round the exact sum
    and the exact difference of their values. *)
Lemma SF64add_bounded x y K :
  valid_binary x = true -> valid_binary y = true ->
  is_fin x = true -> is_fin y = true ->
  0 <= K <= 2097 -> Z.abs (fval x + fval y) <= 2 ^ K ->
  let r := SF64add x y in
  is_fin r = true /\ Z.abs (fval r) <= 2 ^ K
  /\ (0 <= fval x + fval y -> 0 <= fval r)
  /\ (fval x + fval y <= 0 -> fval r <= 0).
Proof.
  intros Vx Vy Fx Fy HK Hb r. unfold r, SF64add.
  assert (H0 : 0 < 2 ^ K) by (apply Z.pow_pos_nonneg; lia).
  destruct x as [sx|?| |sx mx ex]; try discriminate;
  destruct y as [sy|?| |sy my ey]; try discriminate.
  - destruct sx, sy; cbn; repeat split; lia.
  - cbn [SFadd]. rewrite Z.add_0_l in *. repeat split; auto.
  - cbn [SFadd]. rewrite Z.add_0_r in *. repeat split; auto.
  - cbn [SFadd].
    pose proof (valid_finite _ _ _ Vx) as (Hex & _).
    pose proof (valid_finite _ _ _ Vy) as (Hey & _).
    set (ez := Z.min ex ey).
    set (M := cond_Zopp sx (Zpos (fst (shl_align mx ex ez)))
              + cond_Zopp sy (Zpos (fst (shl_align my ey ez)))).
    assert (HM : M * 2 ^ (ez + 1074) = fval (S754_finite sx mx ex) + fval (S754_finite sy my ey)).
    { unfold M. rewrite Z.mul_add_distr_r, !aligned_value by (unfold ez; lia). reflexivity. }
    assert (Hp : 0 < 2 ^ (ez + 1074)) by (apply Z.pow_pos_nonneg; unfold ez; lia).
    rewrite <- HM in *.
    destruct (binary_normalize_bounded M ez K) as (Hf & Habs & Hpos & Hneg).
    + unfold ez; lia.
    + exact HK.
    + rewrite <- (Z.abs_eq (2 ^ (ez + 1074))), <- Z.abs_mul by lia. exact Hb.
    + repeat split; try assumption; intros Hs; [apply Hpos | apply Hneg]; nia.
Qed.

Lemma SFsub_SFadd x y : SF64sub x y = SF64add x (SFopp y).
Proof.
  unfold SF64sub, SF64add.
  destruct x as [sx|sx| |sx mx ex]; destruct y as [sy|sy| |sy my ey]; try reflexivity;
    destruct sx, sy; reflexivity.
Qed.

Lemma fval_SFopp x : fval (SFopp x) = - fval x.
Proof.
  destruct x as [s|s| |s m e]; try reflexivity.
  cbn [SFopp fval]. destruct s; cbn [negb cond_Zopp]; ring.
Qed.

Lemma valid_SFopp x : valid_binary x = true -> valid_binary (SFopp x) = true.
Proof. destruct x; intros H; exact H. Qed.

Lemma is_fin_SFopp x : is_fin (SFopp x) = is_fin x.
Proof. destruct x; reflexivity. Qed.

Lemma SF64sub_bounded x y K :
  valid_binary x = true -> valid_binary y = true ->
  is_fin x = true -> is_fin y = true ->
  0 <= K <= 2097 -> Z.abs (fval x - fval y) <= 2 ^ K ->
  let r := SF64sub x y in
  is_fin r = true /\ Z.abs (fval r) <= 2 ^ K
  /\ (0 <= fval x - fval y -> 0 <= fval r)
  /\ (fval x - fval y <= 0 -> fval r <= 0).
Proof.
  intros Vx Vy Fx Fy HK Hb r. unfold r. rewrite SFsub_SFadd.
  pose proof (SF64add_bounded x (SFopp y) K Vx (valid_SFopp y Vy) Fx) as H.
  rewrite is_fin_SFopp, fval_SFopp in H.
  replace (fval x + - fval y) with (fval x - fval y) in H by lia.
  apply H; assumption.
Qed.

Lemma finish_fval s m1 e1 :
  0 <= m1 <= 2 ^ 53 -> -1074 <= e1 -> e1 + 1 <= 971 ->
  is_fin (finish s m1 e1) = true
  /\ fval (finish s m1 e1) = cond_Zopp s (m1 * 2 ^ (e1 + 1074)).
Proof.
  intros Hm He Ho. unfold finish.
  destruct (Z.eqb_spec m1 0) as [E0|E0].
  - subst m1. split; [reflexivity|]. destruct s; reflexivity.
  - destruct (Z.eqb_spec m1 (2 ^ 53)) as [E1|E1].
    + replace (e1 + 1 <=? 971) with true by (symmetry; apply Z.leb_le; lia).
      split; [reflexivity|]. cbn [fval]. subst m1.
      change (Zpos (Z.to_pos (2 ^ 52))) with (2 ^ 52).
      replace (e1 + 1 + 1074) with (1 + (e1 + 1074)) by lia.
      rewrite Z.pow_add_r by lia. change (2 ^ 53) with (2 ^ 52 * 2 ^ 1).
      destruct s; cbn [cond_Zopp]; ring.
    + replace (e1 <=? 971) with true by (symmetry; apply Z.leb_le; lia).
      split; [reflexivity|]. cbn [fval]. rewrite Z2Pos.id by lia.
      destruct s; cbn [cond_Zopp]; ring.
Qed.


Lemma Prim2SF_half : Prim2SF 0.5 = SFhalf.
Proof. reflexivity. Qed.

(** The shift applied when a valid number is multiplied by one half. *)
Lemma SFmul_half_finite s m e :
  valid_binary (S754_finite s m e) = true ->
  let n := if -1073 <=? e then 52 else 53 in
  SF64mul SFhalf (S754_finite s m e)
  = finish s (rne (2 ^ 52 * Zpos m) n) (e - 53 + n).
Proof.
  intros V n.
  pose proof (valid_finite _ _ _ V) as (He & Hd & Hn).
  unfold SF64mul, SFhalf. cbn [SFmul xorb].
  assert (Hmul : (Z.to_pos (2 ^ 52) * m)%positive = Z.to_pos (Zpos m * 2 ^ 52)).
  { apply Pos2Z.inj. rewrite Pos2Z.inj_mul, !Z2Pos.id by lia. ring. }
  rewrite Hmul.
  assert (Hdig : Zpos (digits2_pos (Z.to_pos (Zpos m * 2 ^ 52))) = Zpos (digits2_pos m) + 52).
  { apply digits2_pos_shift. lia. }
  assert (Hnn : fexp prec emax (Zpos (digits2_pos (Z.to_pos (Zpos m * 2 ^ 52))) + (-53 + e)) - (-53 + e) = n).
  { rewrite Hdig, fexp64. unfold n. destruct (Z.leb_spec (-1073) e); lia. }
  rewrite bra_shift; rewrite Hnn; [|unfold n; destruct (-1073 <=? e); lia].
  rewrite Z2Pos.id by lia. rewrite (Z.mul_comm (Zpos m)).
  replace (-53 + e + n) with (e - 53 + n) by lia. reflexivity.
Qed.

Lemma SFmul_half_bounded y K :
  valid_binary y = true -> is_fin y = true ->
  1 <= K -> Z.abs (fval y) <= 2 ^ K ->
  let r := SF64mul SFhalf y in
  is_fin r = true /\ Z.abs (fval r) <= 2 ^ (K - 1)
  /\ (0 <= fval y -> 0 <= fval r) /\ (fval y <= 0 -> fval r <= 0).
Proof.
  intros V F HK Hb r. unfold r.
  assert (H0 : 0 < 2 ^ (K - 1)) by (apply Z.pow_pos_nonneg; lia).
  destruct y as [s|?| |s m e]; try discriminate.
  - cbn. repeat split; lia.
  - rewrite SFmul_half_finite by exact V.
    pose proof (valid_finite _ _ _ V) as (He & Hd & Hn).
    pose proof (valid_finite_mant _ _ _ V) as (Hm & Hm').
    pose proof (digits2_pos_bounds m) as [Hlo Hhi].
    cbn [fval] in Hb.
    assert (Hpe : 0 < 2 ^ (e + 1074)) by (apply Z.pow_pos_nonneg; lia).
    assert (Hb' : Zpos m * 2 ^ (e + 1074) <= 2 ^ K).
    { destruct s; cbn [cond_Zopp] in Hb; rewrite ?Z.mul_opp_l, ?Z.abs_opp in Hb;
        rewrite Z.abs_eq in Hb by lia; exact Hb. }
    assert (HeK : e + 1074 <= K).
    { apply pow2_le_inv; [lia|]. transitivity (Zpos m * 2 ^ (e + 1074)); [|exact Hb']. nia. }
    set (j := K - (e + 1074) + 52).
    assert (Hj : 2 ^ 52 * Zpos m <= 2 ^ j).
    { unfold j. rewrite Z.pow_add_r by lia. rewrite Z.mul_comm.
      apply Z.mul_le_mono_nonneg_r; [lia|].
      apply Z.mul_le_mono_pos_r with (2 ^ (e + 1074)); [lia|].
      rewrite <- Z.pow_add_r by lia. replace (K - (e + 1074) + (e + 1074)) with K by lia.
      exact Hb'. }
    set (n := if -1073 <=? e then 52 else 53).
    assert (Hn52 : 0 < n <= j /\ -1074 <= e - 53 + n /\ e - 53 + n + 1 <= 971
                   /\ j - n + (e - 53 + n + 1074) = K - 1).
    { unfold n, j. destruct (Z.leb_spec (-1073) e) as [H|H].
      - assert (Zpos (digits2_pos m) = 53) by lia.
        assert (52 + (e + 1074) <= K); [|lia].
        apply pow2_le_inv; [lia|]. rewrite Z.pow_add_r by lia.
        transitivity (Zpos m * 2 ^ (e + 1074)); [|exact Hb'].
        apply Z.mul_le_mono_nonneg_r; [lia|]. destruct Hm'; lia.
      - lia. }
    destruct Hn52 as (Hn1 & He1 & Ho1 & Hsum).
    assert (Hr0 : 0 <= rne (2 ^ 52 * Zpos m) n) by (apply rne_nonneg; lia).
    assert (Hr1 : rne (2 ^ 52 * Zpos m) n <= 2 ^ (j - n)) by (apply rne_le_pow; lia).
    assert (Hr2 : rne (2 ^ 52 * Zpos m) n <= 2 ^ 53).
    { transitivity (2 ^ (105 - n)).
      - apply rne_le_pow; [lia|unfold n; destruct (-1073 <=? e); lia|].
        change (2 ^ 105) with (2 ^ 52 * 2 ^ 53). nia.
      - apply pow2_le. unfold n; destruct (-1073 <=? e); lia. }
    destruct (finish_fval s (rne (2 ^ 52 * Zpos m) n) (e - 53 + n)) as [Hf Hv]; try lia.
    split; [exact Hf|]. rewrite Hv.
    set (m1 := rne (2 ^ 52 * Zpos m) n) in *.
    assert (Hp1 : 0 < 2 ^ (e - 53 + n + 1074)) by (apply Z.pow_pos_nonneg; lia).
    assert (Hval : 0 <= m1 * 2 ^ (e - 53 + n + 1074) <= 2 ^ (K - 1)).
    { split; [nia|].
      rewrite <- Hsum, (Z.pow_add_r 2 (j - n) (e - 53 + n + 1074)) by lia.
      apply Z.mul_le_mono_nonneg_r; lia. }
    assert (Hv0 : 0 < Zpos m * 2 ^ (e + 1074)) by (apply Z.mul_pos_pos; lia).
    cbn [fval]. clear Hb.
    set (V0 := Zpos m * 2 ^ (e + 1074)) in *.
    set (V1 := m1 * 2 ^ (e - 53 + n + 1074)) in *.
    destruct s; cbn [cond_Zopp]; lia.
Qed.

(** ** From comparisons of floats to comparisons of values *)

Lemma leb_fval x y :
  is_fin (Prim2SF x) = true -> is_fin (Prim2SF y) = true ->
  (x <=? y)%float = true <-> fval (Prim2SF x) <= fval (Prim2SF y).
Proof.
  intros Fx Fy. rewrite leb_spec. unfold SFleb.
  rewrite SFcompare_fval by (assumption || apply Prim2SF_valid).
  destruct (fval (Prim2SF x) ?= fval (Prim2SF y)) eqn:E.
  - apply Z.compare_eq in E. split; [lia | reflexivity].
  - assert (fval (Prim2SF x) < fval (Prim2SF y)) by (apply Z.compare_lt_iff; exact E).
    split; [lia | reflexivity].
  - assert (fval (Prim2SF y) < fval (Prim2SF x)) by (apply Z.compare_gt_iff; exact E).
    split; [discriminate | lia].
Qed.

Lemma between_is_fin lo x hi :
  is_fin (Prim2SF lo) = true -> is_fin (Prim2SF hi) = true ->
  (lo <=? x)%float = true -> (x <=? hi)%float = true ->
  is_fin (Prim2SF x) = true.
Proof.
  intros Flo Fhi. rewrite !leb_spec. unfold SFleb.
  destruct (Prim2SF lo) as [?|?| |? ? ?]; try discriminate;
  destruct (Prim2SF hi) as [?|?| |? ? ?]; try discriminate;
  destruct (Prim2SF x) as [?|[|]| |? ? ?]; cbn; try reflexivity; try discriminate;
  repeat match goal with |- context [if ?b then _ else _] => destruct b end;
  try discriminate; intros; discriminate.
Qed.

Lemma binary_normalize_pos M e :
  0 < M -> binary_normalize prec emax M e false = binary_round prec emax false (Z.to_pos M) e.
Proof. intros H. destruct M; try lia. reflexivity. Qed.

Lemma binary_normalize_neg M e :
  M < 0 -> binary_normalize prec emax M e false = binary_round prec emax true (Z.to_pos (- M)) e.
Proof. intros H. destruct M; try lia. reflexivity. Qed.

Lemma rne_decomp m n q D :
  0 < n -> m = q * 2 ^ n + D -> 0 <= D < 2 ^ n ->
  rne m n = if (2 ^ n <? 2 * D) || ((2 ^ n =? 2 * D) && Z.odd q) then q + 1 else q.
Proof.
  intros Hn Hm HD. unfold rne.
  assert (Hq : m / 2 ^ n = q).
  { symmetry. apply (Z.div_unique m (2 ^ n) q D); [left; exact HD | lia]. }
  assert (Hr : m mod 2 ^ n = D).
  { symmetry. apply (Z.mod_unique m (2 ^ n) q D); [left; exact HD | lia]. }
  rewrite Hq, Hr. reflexivity.
Qed.

Lemma SFsub_finite sx mx ex sy my ey :
  SF64sub (S754_finite sx mx ex) (S754_finite sy my ey)
  = binary_normalize prec emax
      (cond_Zopp sx (Zpos (fst (shl_align mx ex (Z.min ex ey))))
       - cond_Zopp sy (Zpos (fst (shl_align my ey (Z.min ex ey)))))
      (Z.min ex ey) false.
Proof. reflexivity. Qed.

(** A power of two above the format is rounded to itself. *)
Lemma binary_round_pow2 k e :
  53 <= k -> k + e = 52 + -52 ->
  binary_round prec emax false (Z.to_pos (2 ^ k)) e = SFone.
Proof.
  intros Hk He.
  assert (Hp : 0 < 2 ^ k) by (apply Z.pow_pos_nonneg; lia).
  assert (Hd : Zpos (digits2_pos (Z.to_pos (2 ^ k))) = k + 1).
  { apply Z.le_antisymm.
    - apply digits2_pos_le. rewrite Z2Pos.id by lia. apply pow2_lt. lia.
    - apply digits2_pos_ge; [|lia]. rewrite Z2Pos.id by lia.
      replace (k + 1 - 1) with k by lia. lia. }
  rewrite binary_round_spec, Hd, fexp64.
  replace (Z.max (k + 1 + e - 53) (-1074)) with (-52) by lia.
  replace (-52 <=? e) with false by (symmetry; apply Z.leb_gt; lia).
  rewrite Z2Pos.id by lia.
  rewrite rne_exact; try lia.
  - replace k with (52 + (-52 - e)) at 1 by lia.
    rewrite Z.pow_add_r by lia. rewrite Z.div_mul.
    + reflexivity.
    + assert (0 < 2 ^ (-52 - e)) by (apply Z.pow_pos_nonneg; lia). lia.
  - replace k with (52 + (-52 - e)) at 1 by lia.
    rewrite Z.pow_add_r by lia. apply Z.mod_mul.
    assert (0 < 2 ^ (-52 - e)) by (apply Z.pow_pos_nonneg; lia). lia.
Qed.

Lemma digits2_pos_eq p k :
  0 < k -> 2 ^ (k - 1) <= Zpos p < 2 ^ k -> Zpos (digits2_pos p) = k.
Proof.
  intros Hk [Hlo Hhi]. apply Z.le_antisymm.
  - apply digits2_pos_le. exact Hhi.
  - apply digits2_pos_ge; assumption.
Qed.

(** A value within a quarter of an ulp of one is rounded to one. *)
Lemma binary_round_near_one E delta :
  54 <= E -> 2 * Z.abs delta <= 2 ^ (E - 53) ->
  binary_round prec emax false (Z.to_pos (2 ^ E + delta)) (- E) = SFone.
Proof.
  intros HE Hd.
  assert (HP : 0 < 2 ^ (E - 53)) by (apply Z.pow_pos_nonneg; lia).
  assert (HE53 : 2 ^ E = 2 ^ 53 * 2 ^ (E - 53)).
  { rewrite <- Z.pow_add_r by lia. f_equal. lia. }
  assert (HE1 : 2 ^ (E + 1) = 2 * 2 ^ E).
  { rewrite Z.pow_add_r by lia. change (2 ^ 1) with 2. ring. }
  assert (HEm : 2 ^ E = 2 * 2 ^ (E - 1)).
  { replace E with (1 + (E - 1)) at 1 by lia. rewrite Z.pow_add_r by lia. reflexivity. }
  assert (H52 : 2 ^ (E - 52) = 2 * 2 ^ (E - 53)).
  { replace (E - 52) with (1 + (E - 53)) by lia. rewrite Z.pow_add_r by lia. reflexivity. }
  set (P := 2 ^ (E - 53)) in *.
  assert (HM : 0 < 2 ^ E + delta) by (change (2 ^ 53) with 9007199254740992 in HE53; lia).
  rewrite binary_round_spec, fexp64, Z2Pos.id by exact HM.
  destruct (Z_le_gt_dec 0 delta) as [Hpos|Hneg].
  - rewrite (digits2_pos_eq _ (E + 1)).
    + replace (Z.max (E + 1 + - E - 53) (-1074)) with (-52) by lia.
      replace (-52 <=? - E) with false by (symmetry; apply Z.leb_gt; lia).
      replace (-52 - - E) with (E - 52) by lia.
      assert (Hr : rne (2 ^ E + delta) (E - 52) = 2 ^ 52).
      { rewrite (rne_decomp _ (E - 52) (2 ^ 52) delta).
        - rewrite H52.
          replace (2 * P <? 2 * delta) with false by (symmetry; apply Z.ltb_ge; lia).
          replace (2 * P =? 2 * delta) with false by (symmetry; apply Z.eqb_neq; lia).
          reflexivity.
        - lia.
        - rewrite H52, HE53. change (2 ^ 53) with (2 ^ 52 * 2). ring.
        - lia. }
      rewrite Hr. reflexivity.
    + lia.
    + rewrite Z2Pos.id by exact HM. replace (E + 1 - 1) with E by lia.
      rewrite HE1. change (2 ^ 53) with 9007199254740992 in HE53. lia.
  - rewrite (digits2_pos_eq _ E).
    + replace (Z.max (E + - E - 53) (-1074)) with (-53) by lia.
      replace (-53 <=? - E) with false by (symmetry; apply Z.leb_gt; lia).
      replace (-53 - - E) with (E - 53) by lia.
      assert (Hr : rne (2 ^ E + delta) (E - 53) = 2 ^ 53).
      { rewrite (rne_decomp _ (E - 53) (2 ^ 53 - 1) (P + delta)).
        - fold P.
          assert (Hc : (P <? 2 * (P + delta))
                       || ((P =? 2 * (P + delta)) && Z.odd (2 ^ 53 - 1)) = true).
          { destruct (Z.ltb_spec P (2 * (P + delta))) as [H|H]; [reflexivity|].
            replace (P =? 2 * (P + delta)) with true by (symmetry; apply Z.eqb_eq; lia).
            reflexivity. }
          rewrite Hc. reflexivity.
        - lia.
        - fold P. rewrite HE53. ring.
        - fold P. lia. }
      rewrite Hr. reflexivity.
    + lia.
    + rewrite Z2Pos.id by exact HM. rewrite HEm in *.
      change (2 ^ 53) with 9007199254740992 in HE53. lia.
Qed.

Lemma SFsub_self_minus_one x :
  valid_binary x = true -> is_fin x = true ->
  0 <= fval x <= 2 ^ 1074 ->
  SF64sub x (SF64sub x SFone) = SFone.
Proof.
  intros V F Hx.
  destruct x as [s|?| |s m e]; try discriminate.
  - destruct s; reflexivity.
  - pose proof (valid_finite _ _ _ V) as (He & Hd & Hn).
    pose proof (valid_finite_mant _ _ _ V) as (Hm & Hm').
    cbn [fval] in Hx.
    assert (Hpe : 0 < 2 ^ (e + 1074)) by (apply Z.pow_pos_nonneg; lia).
    assert (Hs : s = false).
    { destruct s; [|reflexivity]. cbn [cond_Zopp] in Hx.
      assert (0 < Zpos m * 2 ^ (e + 1074)) by (apply Z.mul_pos_pos; lia). lia. }
    subst s. cbn [cond_Zopp] in Hx. destruct Hx as [_ Hx].
    assert (He52 : e <= -52).
    { destruct (Z_le_gt_dec e (-52)) as [|Hgt]; [assumption|exfalso].
      assert (H52 : 2 ^ 52 <= Zpos m) by (destruct Hm'; [lia|assumption]).
      assert (2 ^ (52 + (e + 1074)) <= 2 ^ 1074).
      { rewrite Z.pow_add_r by lia. transitivity (Zpos m * 2 ^ (e + 1074)); [|exact Hx].
        apply Z.mul_le_mono_nonneg_r; lia. }
      apply pow2_le_inv in H; lia. }
    set (E := - e).
    assert (HE : 52 <= E) by (unfold E; lia).
    assert (HpE : 0 < 2 ^ E) by (apply Z.pow_pos_nonneg; lia).
    assert (HmE : Zpos m <= 2 ^ E).
    { apply Z.mul_le_mono_pos_r with (2 ^ (e + 1074)); [lia|].
      rewrite <- Z.pow_add_r by lia. replace (E + (e + 1074)) with 1074 by (unfold E; lia).
      exact Hx. }
    unfold SFone at 1. rewrite SFsub_finite.
    replace (Z.min e (-52)) with e by lia.
    rewrite !fst_shl_align by lia. cbn [cond_Zopp].
    replace (e - e) with 0 by lia. rewrite Z.mul_1_r.
    change (Zpos (Z.to_pos (2 ^ 52))) with (2 ^ 52).
    rewrite <- Z.pow_add_r by lia. replace (52 + (-52 - e)) with E by (unfold E; lia).
    destruct (Z.eq_dec (Zpos m) (2 ^ E)) as [Heq|Hne].
    + (* x is one *)
      rewrite Heq, Z.sub_diag. cbn [binary_normalize].
      assert (HE52 : E = 52).
      { destruct (Z.eq_dec E 52); [assumption|exfalso].
        assert (2 ^ 53 <= 2 ^ E) by (apply pow2_le; lia). lia. }
      assert (He' : e = -52) by (unfold E in *; lia).
      assert (H2E : 2 ^ E = 2 ^ 52) by (f_equal; exact HE52).
      unfold SF64sub, SFsub, SFone. rewrite He'. f_equal.
      apply Pos2Z.inj. rewrite Heq, H2E. reflexivity.
    + (* 0 < x < 1 *)
      assert (He53 : e <= -53).
      { destruct (Z_le_gt_dec e (-53)) as [|Hgt]; [assumption|exfalso].
        assert (H2E : 2 ^ E = 2 ^ 52) by (f_equal; unfold E; lia).
        assert (2 ^ 52 <= Zpos m) by (destruct Hm'; [lia|assumption]).
        rewrite H2E in *. lia. }
      assert (HE53 : 53 <= E) by (unfold E; lia).
      set (P1 := 2 ^ E - Zpos m) in *.
      assert (HP1 : 0 < P1 < 2 ^ E) by (unfold P1; lia).
      rewrite binary_normalize_neg by lia.
      replace (- (Zpos m - 2 ^ E)) with P1 by (unfold P1; lia).
      rewrite binary_round_spec, fexp64, Z2Pos.id by lia.
      pose proof (digits2_pos_bounds (Z.to_pos P1)) as [Hlo Hhi].
      rewrite Z2Pos.id in Hlo, Hhi by lia.
      set (d1 := Zpos (digits2_pos (Z.to_pos P1))) in *.
      assert (Hd1 : 0 < d1 <= E).
      { split; [unfold d1; lia|]. unfold d1. apply digits2_pos_le.
        rewrite Z2Pos.id by lia. lia. }
      set (f1 := Z.max (d1 + e - 53) (-1074)).
      destruct (Z.leb_spec f1 e) as [Hfe|Hfe].
      * (* the difference is exact *)
        replace (f1 <=? 971) with true by (symmetry; apply Z.leb_le; lia).
        assert (Hp : 0 < 2 ^ (e - f1)) by (apply Z.pow_pos_nonneg; lia).
        rewrite SFsub_finite.
        replace (Z.min e f1) with f1 by lia.
        rewrite !fst_shl_align by lia. cbn [cond_Zopp].
        rewrite Z2Pos.id by (apply Z.mul_pos_pos; lia).
        replace (f1 - f1) with 0 by lia. rewrite Z.mul_1_r.
        replace (Zpos m * 2 ^ (e - f1) - - (P1 * 2 ^ (e - f1))) with (2 ^ (- f1)).
        2:{ unfold P1. replace (- f1) with (E + (e - f1)) by (unfold E; lia).
            rewrite Z.pow_add_r by lia. ring. }
        rewrite binary_normalize_pos by (apply Z.pow_pos_nonneg; lia).
        apply binary_round_pow2; lia.
      * (* the difference is rounded *)
        assert (Hn1 : f1 - e = d1 - 53) by lia.
        rewrite Hn1.
        assert (Hf1 : f1 = d1 + e - 53) by lia.
        assert (Hlo1 : 2 ^ 52 <= rne P1 (d1 - 53)).
        { replace 52 with ((d1 - 1) - (d1 - 53)) by lia. apply rne_ge_pow; lia. }
        assert (Hhi1 : rne P1 (d1 - 53) <= 2 ^ 53).
        { replace 53 with (d1 - (d1 - 53)) at 2 by lia. apply rne_le_pow; lia. }
        pose proof (rne_error P1 (d1 - 53) ltac:(lia) ltac:(lia)) as Herr.
        set (m1 := rne P1 (d1 - 53)) in *.
        assert (Hpn : 0 < 2 ^ (d1 - 53)) by (apply Z.pow_pos_nonneg; lia).
        assert (Hnear : 2 * Z.abs (m1 * 2 ^ (d1 - 53) - P1) <= 2 ^ (E - 53)).
        { transitivity (2 ^ (d1 - 53)); [exact Herr | apply pow2_le; lia]. }
        assert (Hgoal : binary_normalize prec emax (Zpos m + m1 * 2 ^ (d1 - 53)) e false = SFone).
        { assert (HM : Zpos m + m1 * 2 ^ (d1 - 53) = 2 ^ E + (m1 * 2 ^ (d1 - 53) - P1))
            by (unfold P1; ring).
          assert (0 < Zpos m + m1 * 2 ^ (d1 - 53)) by nia.
          rewrite binary_normalize_pos by assumption.
          rewrite HM. replace e with (- E) by (unfold E; lia).
          apply binary_round_near_one; [lia | exact Hnear]. }
        unfold finish.
        replace (m1 =? 0) with false by (symmetry; apply Z.eqb_neq; lia).
        destruct (Z.eqb_spec m1 (2 ^ 53)) as [Ec|Ec].
        -- replace (f1 + 1 <=? 971) with true by (symmetry; apply Z.leb_le; lia).
           rewrite SFsub_finite.
           replace (Z.min e (f1 + 1)) with e by lia.
           rewrite !fst_shl_align by lia. cbn [cond_Zopp].
           replace (e - e) with 0 by lia. rewrite Z.mul_1_r.
           change (Zpos (Z.to_pos (2 ^ 52))) with (2 ^ 52).
           rewrite <- Hgoal. f_equal.
           rewrite Ec. replace (f1 + 1 - e) with (1 + (d1 - 53)) by lia.
           rewrite Z.pow_add_r by lia. change (2 ^ 53) with (2 ^ 52 * 2 ^ 1). ring.
        -- replace (f1 <=? 971) with true by (symmetry; apply Z.leb_le; lia).
           rewrite SFsub_finite.
           replace (Z.min e f1) with e by lia.
           rewrite !fst_shl_align by lia. cbn [cond_Zopp].
           replace (e - e) with 0 by lia. rewrite Z.mul_1_r.
           rewrite Z2Pos.id by lia.
           rewrite <- Hgoal. f_equal. rewrite Hn1. ring.
Qed.

Lemma Prim2SF_two : Prim2SF 2 = SFtwo.
Proof. reflexivity. Qed.

(** The quotient and the location computed by [SFdiv] when the divisor is
    two. *)
Lemma SFdiv_core_two m e :
  valid_binary (S754_finite false m e) = true ->
  SFdiv_core_binary prec emax (Zpos m) e (2 ^ 52) (-51)
  = if -1072 <=? e then (2 * Zpos m, e - 2, loc_Exact)
    else if -1073 <=? e then (Zpos m, -1074, loc_Exact)
    else (Zpos m / 2, -1074, if Z.odd (Zpos m) then loc_Inexact Eq else loc_Exact).
Proof.
  intros V.
  pose proof (valid_finite _ _ _ V) as (He & Hd & Hn).
  unfold SFdiv_core_binary. rewrite fexp64.
  change (Zdigits2 (Zpos m)) with (Zpos (digits2_pos m)).
  change (Zdigits2 (2 ^ 52)) with 53.
  set (d := Zpos (digits2_pos m)) in *.
  destruct (Z.leb_spec (-1072) e) as [H1|H1].
  - replace (Z.min (Z.max (d + e - (53 + -51) - 53) (-1074)) (e - -51)) with (e - 2) by lia.
    replace (e - -51 - (e - 2)) with 53 by lia.
    cbv beta iota zeta. rewrite Z.shiftl_mul_pow2 by lia.
    pose proof (Z_div_mod (Zpos m * 2 ^ 53) (2 ^ 52) ltac:(reflexivity)) as H.
    destruct (Z.div_eucl (Zpos m * 2 ^ 53) (2 ^ 52)) as [q r].
    destruct H as [Heq Hr].
    change (2 ^ 53) with (2 ^ 52 * 2) in Heq.
    assert (r = 0 /\ q = 2 * Zpos m) by (change (2 ^ 52) with 4503599627370496 in *; lia).
    destruct H as [-> ->]. reflexivity.
  - destruct (Z.leb_spec (-1073) e) as [H2|H2].
    + replace (Z.min (Z.max (d + e - (53 + -51) - 53) (-1074)) (e - -51)) with (-1074) by lia.
      replace (e - -51 - -1074) with 52 by lia.
      cbv beta iota zeta. rewrite Z.shiftl_mul_pow2 by lia.
      pose proof (Z_div_mod (Zpos m * 2 ^ 52) (2 ^ 52) ltac:(reflexivity)) as H.
      destruct (Z.div_eucl (Zpos m * 2 ^ 52) (2 ^ 52)) as [q r].
      destruct H as [Heq Hr].
      assert (r = 0 /\ q = Zpos m) by (change (2 ^ 52) with 4503599627370496 in *; lia).
      destruct H as [-> ->]. reflexivity.
    + replace (Z.min (Z.max (d + e - (53 + -51) - 53) (-1074)) (e - -51)) with (-1074) by lia.
      replace (e - -51 - -1074) with 51 by lia.
      cbv beta iota zeta. rewrite Z.shiftl_mul_pow2 by lia.
      pose proof (Z_div_mod (Zpos m * 2 ^ 51) (2 ^ 52) ltac:(reflexivity)) as H.
      destruct (Z.div_eucl (Zpos m * 2 ^ 51) (2 ^ 52)) as [q r].
      destruct H as [Heq Hr].
      pose proof (Z.div_mod (Zpos m) 2 ltac:(lia)) as Hdm.
      pose proof (Z.mod_pos_bound (Zpos m) 2 ltac:(lia)) as Hmb.
      rewrite Zmod_odd in Hdm, Hmb.
      change (2 ^ 52) with (2 * 2 ^ 51) in *.
      assert (q = Zpos m / 2 /\ r = (if Z.odd (Zpos m) then 1 else 0) * 2 ^ 51).
      { change (2 ^ 51) with 2251799813685248 in *.
        destruct (Z.odd (Zpos m)); lia. }
      destruct H as [-> ->].
      destruct (Z.odd (Zpos m)); reflexivity.
Qed.

Lemma rne_mul_pow2 q n : 0 < n -> rne (2 ^ n * q) n = q.
Proof.
  intros Hn. assert (Hp : 0 < 2 ^ n) by (apply Z.pow_pos_nonneg; lia).
  rewrite (rne_decomp (2 ^ n * q) n q 0) by lia.
  replace (2 ^ n <? 2 * 0) with false by (symmetry; apply Z.ltb_ge; lia).
  replace (2 ^ n =? 2 * 0) with false by (symmetry; apply Z.eqb_neq; lia).
  reflexivity.
Qed.

(** Halving: the product by one half and the quotient by two are the same
    binary64 number. *)
Lemma SFmul_half_SFdiv_two x :
  valid_binary x = true -> SF64mul SFhalf x = SF64div x SFtwo.
Proof.
  intros V. destruct x as [s|s| |s m e]; try (destruct s; reflexivity); try reflexivity.
  pose proof (valid_finite _ _ _ V) as (He & Hd & Hn).
  pose proof (valid_finite_mant _ _ _ V) as (Hm & Hm').
  rewrite SFmul_half_finite by exact V.
  unfold SF64div, SFtwo. cbn [SFdiv].
  change (Zpos (Z.to_pos (2 ^ 52))) with (2 ^ 52).
  rewrite SFdiv_core_two by exact V. rewrite xorb_false_r.
  destruct (Z.leb_spec (-1072) e) as [H1|H1].
  - replace (-1073 <=? e) with true by (symmetry; apply Z.leb_le; lia).
    assert (Hd53 : Zpos (digits2_pos m) = 53) by lia.
    change (2 * Zpos m) with (Zpos m~0).
    rewrite bra_shift; cbn [digits2_pos]; rewrite Pos2Z.inj_succ, Hd53, fexp64;
      replace (Z.max (Z.succ 53 + (e - 2) - 53) (-1074) - (e - 2)) with 1 by lia; [|lia].
    replace (e - 2 + 1) with (e - 53 + 52) by lia. f_equal.
    rewrite (rne_mul_pow2 (Zpos m) 52) by lia.
    change (Zpos m~0) with (2 ^ 1 * Zpos m).
    rewrite (rne_mul_pow2 (Zpos m) 1) by lia.
    reflexivity.
  - destruct (Z.leb_spec (-1073) e) as [H2|H2].
    + assert (e = -1073) by lia. subst e.
      assert (Hd53 : Zpos (digits2_pos m) = 53) by lia.
      rewrite bra_noshift by (rewrite Hd53, fexp64; lia).
      rewrite (rne_mul_pow2 (Zpos m) 52) by lia.
      unfold finish.
      replace (Zpos m =? 0) with false by (symmetry; apply Z.eqb_neq; lia).
      replace (Zpos m =? 2 ^ 53) with false by (symmetry; apply Z.eqb_neq; lia).
      reflexivity.
    + assert (e = -1074) by lia. subst e.
      replace (-1074 - 53 + 53) with (-1074) by lia.
      pose proof (Z.div_mod (Zpos m) 2 ltac:(lia)) as Hdm.
      rewrite Zmod_odd in Hdm.
      set (q := Zpos m / 2) in *.
      assert (Hq : 0 <= q < 2 ^ 52).
      { change (2 ^ 53) with (2 * 2 ^ 52) in Hm. destruct (Z.odd (Zpos m)); lia. }
      assert (Hr : rne (2 ^ 52 * Zpos m) 53
                   = if Z.odd (Zpos m) then (if Z.even q then q else q + 1) else q).
      { rewrite (rne_decomp (2 ^ 52 * Zpos m) 53 q ((if Z.odd (Zpos m) then 1 else 0) * 2 ^ 52)).
        - destruct (Z.odd (Zpos m)).
          + rewrite <- Z.negb_odd. destruct (Z.odd q); reflexivity.
          + reflexivity.
        - lia.
        - change (2 ^ 53) with (2 * 2 ^ 52). rewrite Hdm at 1. ring.
        - destruct (Z.odd (Zpos m)); lia. }
      rewrite Hr.
      assert (Hdq : Zdigits2 q <= 52) by (apply Zdigits2_le; lia).
      unfold binary_round_aux, shr_fexp at 1. rewrite fexp64.
      replace (Z.max (Zdigits2 q + -1074 - 53) (-1074) - -1074) with 0 by lia.
      cbn [shr].
      assert (Hm1 : 0 <= (if Z.odd (Zpos m) then (if Z.even q then q else q + 1) else q) <= 2 ^ 53).
      { change (2 ^ 53) with (2 * 2 ^ 52). destruct (Z.odd (Zpos m)); [destruct (Z.even q)|]; lia. }
      destruct (Z.odd (Zpos m));
        cbn [shr_record_of_loc shr_m loc_of_shr_record round_nearest_even];
        symmetry; apply bra_second; lia.
Qed.

(** ** Rounding never produces NaN *)

Lemma shr_1_nonneg mrs : 0 <= shr_m mrs -> 0 <= shr_m (shr_1 mrs).
Proof.
  destruct mrs as [m r s]. cbn [shr_m]. intros H.
  destruct m as [|p|p]; [cbn; lia | destruct p; cbn; lia | lia].
Qed.

Lemma shr_nonneg mrs e n : 0 <= shr_m mrs -> 0 <= shr_m (fst (shr mrs e n)).
Proof.
  intros H. unfold shr. destruct n as [|p|p]; cbn [fst]; try exact H.
  rewrite iter_pos_nat. induction (Pos.to_nat p) as [|k IH]; [exact H|].
  rewrite Nat.iter_succ. apply shr_1_nonneg. exact IH.
Qed.

Lemma round_nearest_even_nonneg m l : 0 <= m -> 0 <= round_nearest_even m l.
Proof.
  intros H. unfold round_nearest_even.
  destruct l as [|[| |]]; try lia. destruct (Z.even m); lia.
Qed.

Lemma binary_round_aux_not_nan s m e l :
  0 <= m -> binary_round_aux prec emax s m e l <> S754_nan.
Proof.
  intros Hm. unfold binary_round_aux, shr_fexp.
  pose proof (shr_nonneg (shr_record_of_loc m l) e
                (fexp prec emax (Zdigits2 m + e) - e)) as H1.
  destruct (shr (shr_record_of_loc m l) e (fexp prec emax (Zdigits2 m + e) - e))
    as [mrs' e'].
  cbn [fst] in H1.
  assert (H1' : 0 <= shr_m mrs') by (apply H1; destruct l as [|[| |]]; exact Hm).
  set (m1 := round_nearest_even (shr_m mrs') (loc_of_shr_record mrs')).
  assert (Hm1 : 0 <= m1) by (apply round_nearest_even_nonneg; exact H1').
  pose proof (shr_nonneg (shr_record_of_loc m1 loc_Exact) e'
                (fexp prec emax (Zdigits2 m1 + e') - e') Hm1) as H2.
  destruct (shr (shr_record_of_loc m1 loc_Exact) e' (fexp prec emax (Zdigits2 m1 + e') - e'))
    as [mrs'' e''].
  cbn [fst] in H2.
  destruct (shr_m mrs'') as [|p|p]; try lia; try discriminate.
  destruct (e'' <=? emax - prec); discriminate.
Qed.

Lemma SFdiv_finite_not_nan x sy my ey :
  x <> S754_nan -> SF64div x (S754_finite sy my ey) <> S754_nan.
Proof.
  intros Hx. unfold SF64div.
  destruct x as [sx|sx| |sx mx ex]; try discriminate; [congruence|].
  cbn [SFdiv]. unfold SFdiv_core_binary.
  set (m' := match _ with Zpos _ => _ | Z0 => _ | Zneg _ => _ end).
  assert (Hm' : 0 <= m').
  { unfold m'. destruct (ex - ey - _); try lia.
    rewrite Z.shiftl_mul_pow2 by lia.
    assert (0 < 2 ^ Zpos p) by (apply Z.pow_pos_nonneg; lia). lia. }
  pose proof (Z_div_mod m' (Zpos my) ltac:(reflexivity)) as H.
  destruct (Z.div_eucl m' (Zpos my)) as [q r]. destruct H as [Heq Hr].
  apply binary_round_aux_not_nan. nia.
Qed.

End Binary64.

(** ** Facts on binary64 numbers, stated on [float] *)

Lemma fval_one : fval (Prim2SF 1) = (2 ^ 1074)%Z.
Proof. reflexivity. Qed.

(** For [e] in [[-1, 1]], [0.5 * (1 + e)] lies in [[0, 1]]. *)
Lemma half_one_plus_range e :
  (-1 <=? e) = true -> (e <=? 1) = true ->
  (0 <=? 0.5 * (1 + e)) = true /\ (0.5 * (1 + e) <=? 1) = true.
Proof.
  intros H1 H2.
  assert (Fe : is_fin (Prim2SF e) = true)
    by (apply (between_is_fin (-1) e 1); [reflexivity|reflexivity|exact H1|exact H2]).
  apply leb_fval in H1; [|reflexivity|exact Fe].
  apply leb_fval in H2; [|exact Fe|reflexivity].
  change (fval (Prim2SF (-1))) with (- 2 ^ 1074)%Z in H1.
  change (fval (Prim2SF 1)) with (2 ^ 1074)%Z in H2.
  destruct (SF64add_bounded (Prim2SF 1) (Prim2SF e) 1075) as (Fy & By & Py & _);
    try (apply Prim2SF_valid); try reflexivity; try assumption; try lia.
  { change (fval (Prim2SF 1)) with (2 ^ 1074)%Z.
    change (2 ^ 1075)%Z with (2 ^ 1074 + 2 ^ 1074)%Z. lia. }
  rewrite <- add_spec in Fy, By, Py.
  change (fval (Prim2SF 1)) with (2 ^ 1074)%Z in Py.
  destruct (SFmul_half_bounded (Prim2SF (1 + e)) 1075) as (Fp & Bp & Pp & _);
    try (apply Prim2SF_valid); try assumption; try lia.
  rewrite <- Prim2SF_half, <- mul_spec in Fp, Bp, Pp.
  replace (1075 - 1)%Z with 1074%Z in Bp by lia.
  split; apply leb_fval; try assumption; try reflexivity.
  - change (fval (Prim2SF 0)) with 0%Z. apply Pp, Py. lia.
  - change (fval (Prim2SF 1)) with (2 ^ 1074)%Z. lia.
Qed.

(** For [p] in [[0, 1]], [p - 1] lies in [[-1, 0]]. *)
Lemma minus_one_range p :
  (0 <=? p) = true -> (p <=? 1) = true ->
  (-1 <=? p - 1) = true /\ (p - 1 <=? 0) = true.
Proof.
  intros H1 H2.
  assert (Fp : is_fin (Prim2SF p) = true)
    by (apply (between_is_fin 0 p 1); [reflexivity|reflexivity|exact H1|exact H2]).
  apply leb_fval in H1; [|reflexivity|exact Fp].
  apply leb_fval in H2; [|exact Fp|reflexivity].
  change (fval (Prim2SF 0)) with 0%Z in H1.
  change (fval (Prim2SF 1)) with (2 ^ 1074)%Z in H2.
  destruct (SF64sub_bounded (Prim2SF p) (Prim2SF 1) 1074) as (Fq & Bq & _ & Nq);
    try (apply Prim2SF_valid); try reflexivity; try assumption; try lia.
  { change (fval (Prim2SF 1)) with (2 ^ 1074)%Z. lia. }
  rewrite <- sub_spec in Fq, Bq, Nq.
  change (fval (Prim2SF 1)) with (2 ^ 1074)%Z in Nq.
  split; apply leb_fval; try assumption; try reflexivity.
  - change (fval (Prim2SF (-1))) with (- 2 ^ 1074)%Z. lia.
  - change (fval (Prim2SF 0)) with 0%Z. apply Nq. lia.
Qed.

Lemma Prim2SF_nan x : Prim2SF x = S754_nan <-> x = nan.
Proof.
  split; intros H.
  - apply Prim2SF_inj. rewrite H. reflexivity.
  - rewrite H. reflexivity.
Qed.

Lemma add_nan_l y : nan + y = nan.
Proof. apply Prim2SF_inj. rewrite add_spec. reflexivity. Qed.

Lemma add_nan_r x : x + nan = nan.
Proof. apply Prim2SF_inj. rewrite add_spec. change (Prim2SF nan) with S754_nan. destruct (Prim2SF x); reflexivity. Qed.

Lemma sub_nan_l y : nan - y = nan.
Proof. apply Prim2SF_inj. rewrite sub_spec. reflexivity. Qed.

Lemma sub_nan_r x : x - nan = nan.
Proof. apply Prim2SF_inj. rewrite sub_spec. change (Prim2SF nan) with S754_nan. destruct (Prim2SF x); reflexivity. Qed.

Lemma mul_nan_l y : nan * y = nan.
Proof. apply Prim2SF_inj. rewrite mul_spec. reflexivity. Qed.

Lemma mul_nan_r x : x * nan = nan.
Proof. apply Prim2SF_inj. rewrite mul_spec. change (Prim2SF nan) with S754_nan. destruct (Prim2SF x); reflexivity. Qed.

Lemma div_nan_l y : nan / y = nan.
Proof. apply Prim2SF_inj. rewrite div_spec. reflexivity. Qed.

Lemma div_nan_r x : x / nan = nan.
Proof. apply Prim2SF_inj. rewrite div_spec. change (Prim2SF nan) with S754_nan. destruct (Prim2SF x); reflexivity. Qed.

Lemma opp_nan : - nan = nan.
Proof. reflexivity. Qed.

Lemma ltb_nan_l y : (nan <? y) = false.
Proof. rewrite ltb_spec. reflexivity. Qed.

Lemma abs_nan : abs nan = nan.
Proof. reflexivity. Qed.

(** The square root of a negative number is NaN. *)
Lemma sqrt_negative x : (x <? 0) = true -> sqrt x = nan.
Proof.
  rewrite ltb_spec. intros H. apply Prim2SF_inj. rewrite sqrt_spec.
  change (Prim2SF 0) with (S754_zero false) in H.
  destruct (Prim2SF x) as [s|[|]| |[|] m e]; try discriminate; reflexivity.
Qed.

(** Halving by a product and by a quotient. *)
Lemma mul_half_div_two x : 0.5 * x = x / 2.
Proof.
  apply Prim2SF_inj. rewrite mul_spec, div_spec.
  apply SFmul_half_SFdiv_two. apply Prim2SF_valid.
Qed.

Lemma SFopp_binary_round_aux s m e l :
  SFopp (binary_round_aux prec emax s m e l) = binary_round_aux prec emax (negb s) m e l.
Proof.
  unfold binary_round_aux.
  destruct (shr_fexp prec emax m e l) as [mrs' e'].
  destruct (shr_fexp prec emax _ e' loc_Exact) as [mrs'' e''].
  destruct (shr_m mrs''); try reflexivity.
  destruct (e'' <=? emax - prec)%Z; reflexivity.
Qed.

Lemma opp_mul_l x y : (- x) * y = - (x * y).
Proof.
  apply Prim2SF_inj. rewrite opp_spec, !mul_spec, opp_spec. unfold SF64mul.
  destruct (Prim2SF x) as [sx|sx| |sx mx ex]; destruct (Prim2SF y) as [sy|sy| |sy my ey];
    try reflexivity; cbn [SFmul SFopp]; rewrite ?SFopp_binary_round_aux;
    destruct sx, sy; reflexivity.
Qed.

Lemma opp_div_l x y : (- x) / y = - (x / y).
Proof.
  apply Prim2SF_inj. rewrite opp_spec, !div_spec, opp_spec. unfold SF64div.
  destruct (Prim2SF x) as [sx|sx| |sx mx ex]; destruct (Prim2SF y) as [sy|sy| |sy my ey];
    try reflexivity; cbn [SFdiv SFopp];
    try (destruct sx, sy; reflexivity).
  destruct (SFdiv_core_binary prec emax (Zpos mx) ex (Zpos my) ey) as [[mz ez] lz].
  rewrite SFopp_binary_round_aux. destruct sx, sy; reflexivity.
Qed.

(** [p - (p - 1)] is exactly [1] for [p] in [[0, 1]]. *)
Lemma sub_self_minus_one p :
  (0 <=? p) = true -> (p <=? 1) = true -> p - (p - 1) = 1.
Proof.
  intros H1 H2.
  assert (Fp : is_fin (Prim2SF p) = true)
    by (apply (between_is_fin 0 p 1); [reflexivity|reflexivity|exact H1|exact H2]).
  apply leb_fval in H1; [|reflexivity|exact Fp].
  apply leb_fval in H2; [|exact Fp|reflexivity].
  apply Prim2SF_inj. rewrite !sub_spec.
  change (Prim2SF 1) with SFone.
  apply SFsub_self_minus_one; [apply Prim2SF_valid | exact Fp |].
  change (fval (Prim2SF 0)) with 0%Z in H1.
  change (fval (Prim2SF 1)) with (2 ^ 1074)%Z in H2. lia.
Qed.

Lemma div_Sqrt2_not_nan x : x <> nan -> x / 1.4142135623730951 <> nan.
Proof.
  intros Hx H. apply Prim2SF_nan in H. rewrite div_spec in H.
  revert H. apply SFdiv_finite_not_nan. intros E. apply Hx. apply Prim2SF_nan. exact E.
Qed.

Lemma is_nan_spec x : is_nan x = true <-> x = nan.
Proof.
  unfold is_nan. rewrite FloatAxioms.eqb_spec. unfold SFeqb. split.
  - intros H. apply Prim2SF_nan.
    destruct (Prim2SF x) as [s|[|]| |[|] m e]; try reflexivity; cbn in H;
      try discriminate;
      rewrite Z.compare_refl, Pos.compare_cont_refl in H; discriminate.
  - intros ->. reflexivity.
Qed.

Lemma is_nan_false x : x <> nan -> is_nan x = false.
Proof.
  intros H. destruct (is_nan x) eqn:E; [|reflexivity].
  exfalso. apply H. apply is_nan_spec. exact E.
Qed.

Lemma leb_nan_r x : (x <=? nan) = false.
Proof.
  rewrite leb_spec. unfold SFleb. change (Prim2SF nan) with S754_nan.
  destruct (Prim2SF x); reflexivity.
Qed.

Lemma fval_opp x : fval (Prim2SF (- x)) = (- fval (Prim2SF x))%Z.
Proof. rewrite opp_spec. apply fval_SFopp. Qed.

Lemma is_fin_opp x : is_fin (Prim2SF (- x)) = is_fin (Prim2SF x).
Proof. rewrite opp_spec. apply is_fin_SFopp. Qed.

(** For [r] in [[0, 1]], both [r] and [- r] lie in [[-1, 1]]. *)
Lemma unit_range_signed r (negate : bool) :
  (0 <=? r) = true -> (r <=? 1) = true ->
  ((-1) <=? (if negate then - r else r)) = true
  /\ ((if negate then - r else r) <=? 1) = true.
Proof.
  intros H1 H2.
  assert (Fr : is_fin (Prim2SF r) = true)
    by (apply (between_is_fin 0 r 1); [reflexivity|reflexivity|exact H1|exact H2]).
  apply leb_fval in H1; [|reflexivity|exact Fr].
  apply leb_fval in H2; [|exact Fr|reflexivity].
  change (fval (Prim2SF 0)) with 0%Z in H1.
  change (fval (Prim2SF 1)) with (2 ^ 1074)%Z in H2.
  assert (0 < 2 ^ 1074)%Z by reflexivity.
  destruct negate; split; apply leb_fval;
    rewrite ?is_fin_opp; try assumption; try reflexivity;
    rewrite ?fval_opp;
    change (fval (Prim2SF (-1))) with (- 2 ^ 1074)%Z;
    change (fval (Prim2SF 1)) with (2 ^ 1074)%Z; lia.
Qed.

(** ** The sample instance meets what is assumed of package [math] *)

Lemma Sample_special_cases :
  MathSpecialCases Sample.Log Sample.Exp Sample.Erf Sample.Pow.
Proof.
  split; try reflexivity.
  - intros x Hx. unfold Sample.Log. rewrite Hx. destruct (is_nan x); reflexivity.
  - intros y. unfold Sample.Pow. destruct (y =? 0); reflexivity.
Qed.

Lemma Sample_clamp_range y :
  (0 <=? Sample.clamp y) = true /\ (Sample.clamp y <=? 1) = true.
Proof.
  unfold Sample.clamp.
  destruct (y <=? 1) eqn:H1; [destruct (0 <=? y) eqn:H0|]; split;
    try assumption; reflexivity.
Qed.

Lemma Sample_ErfRange : ErfRange Sample.Erf.
Proof.
  intros x Hx. unfold Sample.Erf. rewrite (is_nan_false x Hx).
  apply unit_range_signed.
  - destruct (6 <=? abs x); [reflexivity | apply Sample_clamp_range].
  - destruct (6 <=? abs x); [reflexivity | apply Sample_clamp_range].
Qed.

(** ** The scenarios of [lib_test.go], run on the sample instance *)

Example TestBlackScholesOptionPrice :
  within 0.00001
    (BlackScholesOptionPrice Sample.Log Sample.Exp Sample.Erf Sample.Pow
       (scenario 100.0 Call) 0.2) 2.493376 = true
  /\ within 0.00001
    (BlackScholesOptionPrice Sample.Log Sample.Exp Sample.Erf Sample.Pow
       (scenario 100.0 Put) 0.2) 2.08326 = true.
Proof. split; vm_compute; reflexivity. Qed.

Example TestBlackScholesImpliedVolatility :
  within 0.00001
    (BlackScholesImpliedVolatility Sample.Log Sample.Exp Sample.Erf Sample.Pow
       (scenario 10.0 Call)) 0.86021805 = true.
Proof. vm_compute; reflexivity. Qed.

Example TestBlackScholesGamma :
  within 0.00001
    (BlackScholesGamma Sample.Log Sample.Exp Sample.Pow (scenario 10.0 Call) 0.2)
    0.0692276 = true.
Proof. vm_compute; reflexivity. Qed.

Example TestBlackScholesVega :
  within 0.00001
    (BlackScholesVega Sample.Log Sample.Exp Sample.Pow (scenario 10.0 Call) 0.2)
    11.37988 = true.
Proof. vm_compute; reflexivity. Qed.

Example TestBlackScholesDelta :
  within 0.00001
    (BlackScholesDelta Sample.Log Sample.Erf (scenario 10.0 Call) 0.2) 0.53996 = true
  /\ within 0.00001
    (BlackScholesDelta Sample.Log Sample.Erf (scenario 10.0 Put) 0.2) (-0.46003645) = true.
Proof. split; vm_compute; reflexivity. Qed.
(** ** The pricing formula *)

Section Pricing.

Variables Log Exp Erf : float -> float.
Variable Pow : float -> float -> float.

Lemma Sqrt_two : Sqrt 2 = Sqrt2.
Proof. reflexivity. Qed.

Lemma Phi_is_Spec_Phi x : Phi Erf x = Spec.Phi Erf x.
Proof. unfold Phi, Spec.Phi. rewrite Sqrt_two. reflexivity. Qed.

Lemma d1_OptionPrice_is_Spec_d1 (option : Option) (volatility : float) :
  d1_OptionPrice Log Pow option volatility
  = Spec.d1 Log Pow (UnderlyingPrice option) (Strike option)
      (RiskFreeRate option) (DaysToExpiration option) volatility.
Proof.
  unfold d1_OptionPrice, Spec.d1, Spec.T. cbv zeta.
  rewrite mul_half_div_two. reflexivity.
Qed.

(** C1: [BlackScholesOptionPrice] computes [T = daysToExpiration / 365],
    [d1 = (ln(S/K) + (r + sigma^2/2) T) / (sigma sqrt(T))] and
    [d2 = d1 - sigma sqrt(T)], and returns [S Phi(d1) - K e^(-rT) Phi(d2)]
    for a call and [K e^(-rT) Phi(-d2) - S Phi(-d1)] for a put; it
    branches on the option type only.  The equalities are between
    binary64 numbers: the code's [0.5 * Pow(sigma, 2)] is the formula's
    [Pow(sigma, 2) / 2], and its [(-r) * T] is [-(r * T)].  They hold for
    every contract and volatility, in particular for positive strike,
    underlying price, days to expiration and volatility. *)
Theorem BlackScholesOptionPrice_formula (option : Option) (volatility : float) :
  BlackScholesOptionPrice Log Exp Erf Pow option volatility
  = match OptionType' option with
    | Call =>
        Spec.callPrice Log Exp Erf Pow (UnderlyingPrice option) (Strike option)
          (RiskFreeRate option) (DaysToExpiration option) volatility
    | Put =>
        Spec.putPrice Log Exp Erf Pow (UnderlyingPrice option) (Strike option)
          (RiskFreeRate option) (DaysToExpiration option) volatility
    end.
Proof.
  unfold BlackScholesOptionPrice, Spec.callPrice, Spec.putPrice, Spec.d2.
  cbv zeta.
  fold (d1_OptionPrice Log Pow option volatility).
  rewrite d1_OptionPrice_is_Spec_d1, opp_mul_l.
  unfold Spec.T.
  destruct (OptionType' option); cbn [OptionType_eqb];
    rewrite !Phi_is_Spec_Phi; reflexivity.
Qed.

End Pricing.

(** ** The implied-volatility solver *)

Section SolverProperties.

Variables Log Exp Erf : float -> float.
Variable Pow : float -> float -> float.
Variable option : Option.

Local Abbreviation price := (BlackScholesOptionPrice Log Exp Erf Pow option).
Local Abbreviation vega := (BlackScholesVega Log Exp Pow option).
Local Abbreviation loop := (newtonLoop Log Exp Erf Pow option).
Local Abbreviation step := (Reference.step price vega (Price option)).
Local Abbreviation run := (Reference.run price vega (Price option)).
Local Abbreviation Iterating := Reference.Iterating.
Local Abbreviation Returned := Reference.Returned.

Lemma newtonLoop_converged n v g :
  (Abs (price v - Price option) <? epsilon) = true ->
  fst (loop (S n) v g) = v.
Proof.
  intros H. simpl. unfold epsilon in H. fold epsilon in H. rewrite H. reflexivity.
Qed.

Lemma newtonLoop_update n v g :
  (Abs (price v - Price option) <? epsilon) = false ->
  loop (S n) v g = loop n (v - (price v - Price option) / vega v) (vega v).
Proof.
  intros H. simpl. rewrite H. reflexivity.
Qed.

(** From iteration [i] with [n] iterations left, the state machine reaches
    the value computed by the loop, in at most [n + 1] steps. *)
Lemma run_newtonLoop n : forall i v g,
  (i + n = 100)%nat ->
  exists k, (k <= S n)%nat /\
    run k (Iterating i v) (Returned (fst (loop n v g))).
Proof.
  induction n as [|n IH]; intros i v g Hi.
  - exists 1%nat. split; [lia|].
    apply Reference.run_next with (Returned v); [|apply Reference.run_here].
    apply Reference.step_exhausted. lia.
  - destruct (Abs (price v - Price option) <? epsilon) eqn:Hc.
    + exists 1%nat. split; [lia|].
      rewrite (newtonLoop_converged n v g Hc).
      apply Reference.run_next with (Returned v); [|apply Reference.run_here].
      apply Reference.step_converged; [lia|exact Hc].
    + rewrite (newtonLoop_update n v g Hc).
      destruct (IH (S i) (v - (price v - Price option) / vega v) (vega v))
        as [k [Hk Hrun]]; [lia|].
      exists (S k). split; [lia|].
      eapply Reference.run_next; [|exact Hrun].
      apply Reference.step_update; [lia|exact Hc].
Qed.

Lemma step_deterministic s s1 s2 : step s s1 -> step s s2 -> s1 = s2.
Proof.
  intros H1 H2.
  inversion H1; subst; inversion H2; subst; try reflexivity;
    try congruence; try lia.
Qed.

Lemma Returned_final v s : ~ step (Returned v) s.
Proof. intros H. inversion H. Qed.

Lemma run_deterministic n : forall m s r1 r2,
  run n s (Returned r1) -> run m s (Returned r2) -> r1 = r2.
Proof.
  induction n as [|n IH]; intros m s r1 r2 H1 H2.
  - inversion H1; subst. inversion H2; subst; [reflexivity|].
    exfalso. eapply Returned_final. eassumption.
  - inversion H1; subst. inversion H2; subst.
    + exfalso. eapply Returned_final. eassumption.
    + assert (s' = s'0) by (eapply step_deterministic; eassumption).
      subst. eapply IH; eassumption.
Qed.

(** C2: [BlackScholesImpliedVolatility] is the Newton-Raphson loop of the
    specification.  The state machine started at iteration 0 with the
    iterate 0.2 reaches [Returned v] for exactly one [v], the value of
    [BlackScholesImpliedVolatility], and does so within 101 steps: at most
    100 iterations, each one either stopping on
    [|price - contract.Price| < 0.0001] or replacing the iterate by
    [iterate - (price - contract.Price) / vega], unclamped and whatever its
    value, then the return of the last iterate. *)
Theorem BlackScholesImpliedVolatility_is_reference_loop :
  (exists k, (k <= 101)%nat /\
     run k (Iterating 0 0.2)
       (Returned (BlackScholesImpliedVolatility Log Exp Erf Pow option)))
  /\ (forall k v, run k (Iterating 0 0.2) (Returned v) ->
        v = BlackScholesImpliedVolatility Log Exp Erf Pow option).
Proof.
  destruct (run_newtonLoop 100 0 0.2 0.0 eq_refl) as [k [Hk Hrun]].
  split.
  - exists k. split; [exact Hk | exact Hrun].
  - intros k' v Hv. eapply run_deterministic; eassumption.
Qed.

(** C10: when the price at the initial guess 0.2 is already within 0.0001
    of the contract's price, the solver returns exactly 0.2, the initial
    guess, with no Newton update. *)
Theorem BlackScholesImpliedVolatility_initial_guess :
  (Abs (BlackScholesOptionPrice Log Exp Erf Pow option 0.2 - Price option)
     <? 0.0001) = true ->
  BlackScholesImpliedVolatility Log Exp Erf Pow option = 0.2.
Proof.
  intros H. exact (newtonLoop_converged 99 0.2 0.0 H).
Qed.

End SolverProperties.

Lemma BlackScholesImpliedVolatility_initial_guess_witness :
  BlackScholesImpliedVolatility Sample.Log Sample.Exp Sample.Erf Sample.Pow
    (scenario 2.4934 Call) = 0.2.
Proof.
  apply BlackScholesImpliedVolatility_initial_guess.
  vm_compute. reflexivity.
Defined.

(** ** Which fields the pricing functions read *)

Section Noninterference.

Variables Log Exp Erf : float -> float.
Variable Pow : float -> float -> float.

(** C7: two runs on contracts that differ only in [Price] and in
    [OptionType] give the same vega and the same gamma; if the two
    contracts differ only in [Price], they also give the same option price
    and the same delta. *)
Theorem pricing_noninterference (a b : Option) (volatility : float) :
  sameButPriceAndType a b ->
  (BlackScholesVega Log Exp Pow a volatility
   = BlackScholesVega Log Exp Pow b volatility
   /\ BlackScholesGamma Log Exp Pow a volatility
      = BlackScholesGamma Log Exp Pow b volatility)
  /\ (OptionType' a = OptionType' b ->
      BlackScholesOptionPrice Log Exp Erf Pow a volatility
      = BlackScholesOptionPrice Log Exp Erf Pow b volatility
      /\ BlackScholesDelta Log Erf a volatility
         = BlackScholesDelta Log Erf b volatility).
Proof.
  intros (HK & HD & HR & HS).
  unfold BlackScholesVega, BlackScholesGamma, BlackScholesOptionPrice,
    BlackScholesDelta.
  rewrite HK, HD, HR, HS.
  split; [split; reflexivity | intros HT; rewrite HT; split; reflexivity].
Qed.

End Noninterference.

Lemma pricing_noninterference_witness :
  (BlackScholesVega Sample.Log Sample.Exp Sample.Pow (scenario 10.0 Call) 0.2
   = BlackScholesVega Sample.Log Sample.Exp Sample.Pow (scenario 2.5 Put) 0.2
   /\ BlackScholesGamma Sample.Log Sample.Exp Sample.Pow (scenario 10.0 Call) 0.2
      = BlackScholesGamma Sample.Log Sample.Exp Sample.Pow (scenario 2.5 Put) 0.2)
  /\ (OptionType' (scenario 10.0 Call) = OptionType' (scenario 2.5 Put) ->
      BlackScholesOptionPrice Sample.Log Sample.Exp Sample.Erf Sample.Pow
        (scenario 10.0 Call) 0.2
      = BlackScholesOptionPrice Sample.Log Sample.Exp Sample.Erf Sample.Pow
          (scenario 2.5 Put) 0.2
      /\ BlackScholesDelta Sample.Log Sample.Erf (scenario 10.0 Call) 0.2
         = BlackScholesDelta Sample.Log Sample.Erf (scenario 2.5 Put) 0.2).
Proof.
  apply pricing_noninterference.
  unfold sameButPriceAndType. simpl. repeat split; reflexivity.
Defined.

(** ** The normal distribution function and delta *)

Section PhiAndDelta.

Variables Log Erf : float -> float.
Hypothesis Erf_range : ErfRange Erf.

Lemma Phi_range x :
  x <> nan -> (0 <=? Phi Erf x) = true /\ (Phi Erf x <=? 1) = true.
Proof.
  intros Hx. unfold Phi.
  destruct (Erf_range (x / Sqrt2)) as [Hlo Hhi].
  - apply div_Sqrt2_not_nan. exact Hx.
  - apply half_one_plus_range; assumption.
Qed.

(** C6, amended: for every [x] other than NaN, [Phi x] is
    [0.5 * (1 + erf(x / sqrt 2))] and lies in [[0, 1]], [math.Erf] taking
    its values in [[-1, 1]]; the bounds are reached: [Phi] is [1] at [+Inf]
    and [0] at [-Inf]. *)
Theorem Phi_formula_and_range (x : float) :
  Erf infinity = 1 -> Erf neg_infinity = -1 ->
  x <> nan ->
  Phi Erf x = Spec.Phi Erf x
  /\ (0 <=? Phi Erf x) = true /\ (Phi Erf x <=? 1) = true
  /\ Phi Erf infinity = 1 /\ Phi Erf neg_infinity = 0.
Proof.
  intros Hinf Hninf Hx.
  split; [apply Phi_is_Spec_Phi|].
  split; [apply Phi_range; exact Hx|].
  split; [apply Phi_range; exact Hx|].
  unfold Phi.
  change (infinity / Sqrt2) with infinity.
  change (neg_infinity / Sqrt2) with neg_infinity.
  rewrite Hinf, Hninf. split; reflexivity.
Qed.

Lemma d1_Delta_withOptionType t option volatility :
  d1_Delta Log (withOptionType t option) volatility = d1_Delta Log option volatility.
Proof. reflexivity. Qed.

Lemma BlackScholesDelta_Call option volatility :
  BlackScholesDelta Log Erf (withOptionType Call option) volatility
  = Phi Erf (d1_Delta Log option volatility).
Proof. reflexivity. Qed.

Lemma BlackScholesDelta_Put option volatility :
  BlackScholesDelta Log Erf (withOptionType Put option) volatility
  = Phi Erf (d1_Delta Log option volatility) - 1.
Proof. reflexivity. Qed.

(** C5, amended: [BlackScholesDelta] returns [Phi(d1)] for a call and
    [Phi(d1) - 1] for a put.  Whenever [d1] is not NaN, the call delta lies
    in the closed interval [[0, 1]], the put delta in [[-1, 0]], and the
    call delta minus the put delta of the same contract is exactly [1]. *)
Theorem BlackScholesDelta_bounds (option : Option) (volatility : float) :
  d1_Delta Log option volatility <> nan ->
  let callDelta := BlackScholesDelta Log Erf (withOptionType Call option) volatility in
  let putDelta := BlackScholesDelta Log Erf (withOptionType Put option) volatility in
  callDelta = Phi Erf (d1_Delta Log option volatility)
  /\ putDelta = Phi Erf (d1_Delta Log option volatility) - 1
  /\ (0 <=? callDelta) = true /\ (callDelta <=? 1) = true
  /\ ((-1) <=? putDelta) = true /\ (putDelta <=? 0) = true
  /\ callDelta - putDelta = 1.
Proof.
  intros Hd callDelta putDelta. unfold callDelta, putDelta.
  rewrite BlackScholesDelta_Call, BlackScholesDelta_Put.
  destruct (Phi_range _ Hd) as [Hlo Hhi].
  destruct (minus_one_range _ Hlo Hhi) as [Hlo' Hhi'].
  repeat split; try assumption.
  apply sub_self_minus_one; assumption.
Qed.

End PhiAndDelta.

Lemma Phi_formula_and_range_witness :
  Phi Sample.Erf 0.3 = Spec.Phi Sample.Erf 0.3
  /\ (0 <=? Phi Sample.Erf 0.3) = true /\ (Phi Sample.Erf 0.3 <=? 1) = true
  /\ Phi Sample.Erf infinity = 1 /\ Phi Sample.Erf neg_infinity = 0.
Proof.
  apply (Phi_formula_and_range Sample.Erf Sample_ErfRange 0.3).
  - reflexivity.
  - reflexivity.
  - intros H. discriminate (f_equal is_nan H).
Defined.

(** C6 fails at NaN, which [Phi] returns unchanged. *)
Lemma Phi_range_counterexample :
  Phi Sample.Erf nan = nan
  /\ (0 <=? Phi Sample.Erf nan) = false
  /\ (Phi Sample.Erf nan <=? 1) = false.
Proof. repeat split. Qed.

(** For every [math] library with the documented special cases, [Phi]
    maps NaN to NaN. *)
Lemma Phi_nan (Erf : float -> float) : Erf nan = nan -> Phi Erf nan = nan.
Proof.
  intros H. unfold Phi. change (nan / Sqrt2) with nan. rewrite H. reflexivity.
Qed.

Lemma BlackScholesDelta_bounds_witness :
  let callDelta := BlackScholesDelta Sample.Log Sample.Erf
                     (withOptionType Call (scenario 10.0 Call)) 0.2 in
  let putDelta := BlackScholesDelta Sample.Log Sample.Erf
                    (withOptionType Put (scenario 10.0 Call)) 0.2 in
  callDelta = Phi Sample.Erf (d1_Delta Sample.Log (scenario 10.0 Call) 0.2)
  /\ putDelta = Phi Sample.Erf (d1_Delta Sample.Log (scenario 10.0 Call) 0.2) - 1
  /\ (0 <=? callDelta) = true /\ (callDelta <=? 1) = true
  /\ ((-1) <=? putDelta) = true /\ (putDelta <=? 0) = true
  /\ callDelta - putDelta = 1.
Proof.
  apply (BlackScholesDelta_bounds Sample.Log Sample.Erf Sample_ErfRange).
  intros H. discriminate (f_equal is_nan H).
Defined.

(** When [UnderlyingPrice / Strike] overflows, [d1] is [+Inf] and the
    deltas are exactly [1] and [0], for every [math] library with the
    documented special cases. *)
Lemma BlackScholesDelta_saturates (Log Erf : float -> float) :
  Log infinity = infinity -> Erf infinity = 1 ->
  BlackScholesDelta Log Erf (overflowing 0.05 30.0 Call) 0.2 = 1
  /\ BlackScholesDelta Log Erf (overflowing 0.05 30.0 Put) 0.2 = 0.
Proof.
  intros HLog HErf.
  unfold BlackScholesDelta, overflowing, Phi. cbn [UnderlyingPrice Strike
    RiskFreeRate DaysToExpiration OptionType' OptionType_eqb].
  change (1e308 / 1e-308) with infinity. rewrite HLog.
  match goal with
  | |- context [Erf ?a] => replace a with infinity by (vm_compute; reflexivity)
  end.
  rewrite HErf. split; reflexivity.
Qed.

(** C5 fails where [Phi] saturates: every input is positive and finite,
    the call delta is [1] and the put delta is [0], outside the open
    intervals. *)
Lemma BlackScholesDelta_bounds_counterexample :
  validInputs (overflowing 0.05 30.0 Call) 0.2
  /\ (BlackScholesDelta Sample.Log Sample.Erf (overflowing 0.05 30.0 Call) 0.2 <? 1)
     = false
  /\ (BlackScholesDelta Sample.Log Sample.Erf (overflowing 0.05 30.0 Put) 0.2 <? 0)
     = false.
Proof.
  destruct (BlackScholesDelta_saturates Sample.Log Sample.Erf eq_refl eq_refl)
    as [Hc Hp].
  rewrite Hc, Hp. repeat split.
Qed.

(** The same saturation on an ordinary contract (underlying 100, strike
    50): [d1] is about 12 and [Erf] is 1 there. *)
Example BlackScholesDelta_deep_in_the_money :
  BlackScholesDelta Sample.Log Sample.Erf (deepInTheMoney Call) 0.2 = 1.
Proof. vm_compute. reflexivity. Qed.

(** ** The value of [d1] in the four functions *)

Section D1.

Variables Log Exp Erf : float -> float.
Variable Pow : float -> float -> float.

Lemma BlackScholesOptionPrice_d1 option volatility :
  BlackScholesOptionPrice Log Exp Erf Pow option volatility
  = let timeToExpiration := DaysToExpiration option / 365.0 in
    let d1 := d1_OptionPrice Log Pow option volatility in
    let d2 := d1 - volatility * Sqrt timeToExpiration in
    if OptionType_eqb (OptionType' option) Call then
      UnderlyingPrice option * Phi Erf d1
      - Strike option * Exp ((- RiskFreeRate option) * timeToExpiration) * Phi Erf d2
    else
      Strike option * Exp ((- RiskFreeRate option) * timeToExpiration) * Phi Erf (- d2)
      - UnderlyingPrice option * Phi Erf (- d1).
Proof. reflexivity. Qed.

Lemma BlackScholesVega_d1 option volatility :
  BlackScholesVega Log Exp Pow option volatility
  = UnderlyingPrice option * Sqrt (DaysToExpiration option / 365.0)
    * Exp ((-0.5) * d1_Vega Log Pow option volatility * d1_Vega Log Pow option volatility)
    / Sqrt (2 * Pi).
Proof. reflexivity. Qed.

Lemma BlackScholesGamma_d1 option vol :
  BlackScholesGamma Log Exp Pow option vol
  = NormalDistributionDerivative Exp Pow (d1_Gamma Log Pow option vol)
    / (UnderlyingPrice option * vol * Sqrt (DaysToExpiration option / 365.0)).
Proof. reflexivity. Qed.

Lemma BlackScholesDelta_d1 option volatility :
  BlackScholesDelta Log Erf option volatility
  = if OptionType_eqb (OptionType' option) Call
    then Phi Erf (d1_Delta Log option volatility)
    else Phi Erf (d1_Delta Log option volatility) - 1.
Proof. reflexivity. Qed.


End D1.



(** [GoPow.Pow] has the documented special cases of [math.Pow]. *)
Lemma GoPow_special_cases :
  MathSpecialCases Sample.Log Sample.Exp Sample.Erf GoPow.Pow.
Proof.
  destruct Sample_special_cases as [H1 H2 H3 H4 H5 H6 H7 _ _].
  split; try assumption; try reflexivity.
  intros y. unfold GoPow.Pow. change (1 =? 1) with true.
  rewrite orb_true_r. reflexivity.
Qed.


(** ** Degenerate inputs *)

Section Degenerate.

Variables Log Exp Erf : float -> float.
Variable Pow : float -> float -> float.
Hypothesis documented : MathSpecialCases Log Exp Erf Pow.
Variable option : Option.

(** The ratio of the prices is negative (logarithm of a negative number) or
    the time to expiration is negative (square root of a negative number). *)
Hypothesis degenerate :
  (UnderlyingPrice option / Strike option <? 0) = true
  \/ (DaysToExpiration option / 365.0 <? 0) = true.

Lemma degenerate_d1_OptionPrice volatility :
  d1_OptionPrice Log Pow option volatility = nan.
Proof.
  unfold d1_OptionPrice. cbv zeta. destruct degenerate as [H|H].
  - rewrite (Log_negative _ _ _ _ documented _ H), add_nan_l, div_nan_l. reflexivity.
  - unfold Sqrt. rewrite (sqrt_negative _ H), mul_nan_r, div_nan_r. reflexivity.
Qed.

Lemma degenerate_d1_Delta volatility :
  d1_Delta Log option volatility = nan.
Proof.
  unfold d1_Delta. cbv zeta. destruct degenerate as [H|H].
  - rewrite (Log_negative _ _ _ _ documented _ H), add_nan_l, div_nan_l. reflexivity.
  - unfold Sqrt. rewrite (sqrt_negative _ H), mul_nan_r, div_nan_r. reflexivity.
Qed.

Lemma Phi_of_nan : Phi Erf nan = nan.
Proof. apply Phi_nan. exact (Erf_nan _ _ _ _ documented). Qed.

Lemma degenerate_OptionPrice volatility :
  BlackScholesOptionPrice Log Exp Erf Pow option volatility = nan.
Proof.
  rewrite BlackScholesOptionPrice_d1. cbv zeta.
  rewrite degenerate_d1_OptionPrice, sub_nan_l.
  change (- nan) with nan. rewrite Phi_of_nan.
  destruct (OptionType_eqb (OptionType' option) Call).
  - rewrite mul_nan_r, sub_nan_l. reflexivity.
  - rewrite !mul_nan_r, sub_nan_r. reflexivity.
Qed.

Lemma degenerate_Vega volatility :
  BlackScholesVega Log Exp Pow option volatility = nan.
Proof.
  rewrite BlackScholesVega_d1.
  replace (d1_Vega Log Pow option volatility) with nan
    by (symmetry; apply degenerate_d1_OptionPrice).
  rewrite !mul_nan_r, (Exp_nan _ _ _ _ documented), mul_nan_r, div_nan_l.
  reflexivity.
Qed.

Lemma degenerate_Gamma vol :
  BlackScholesGamma Log Exp Pow option vol = nan.
Proof.
  rewrite BlackScholesGamma_d1.
  replace (d1_Gamma Log Pow option vol) with nan
    by (symmetry; apply degenerate_d1_OptionPrice).
  unfold NormalDistributionDerivative.
  rewrite (Pow_nan_two _ _ _ _ documented), mul_nan_r,
    (Exp_nan _ _ _ _ documented), !div_nan_l.
  reflexivity.
Qed.

Lemma degenerate_Delta volatility :
  BlackScholesDelta Log Erf option volatility = nan.
Proof.
  rewrite BlackScholesDelta_d1, degenerate_d1_Delta, Phi_of_nan.
  destruct (OptionType_eqb (OptionType' option) Call); [|rewrite sub_nan_l]; reflexivity.
Qed.

Lemma degenerate_newtonLoop n : forall vega,
  fst (newtonLoop Log Exp Erf Pow option n nan vega) = nan.
Proof.
  induction n as [|n IH]; intros vega; [reflexivity|].
  cbn [newtonLoop]. cbv zeta.
  rewrite degenerate_OptionPrice, sub_nan_l. unfold Abs.
  change (abs nan) with nan. rewrite ltb_nan_l, div_nan_l, sub_nan_r.
  apply IH.
Qed.

Lemma degenerate_newtonLoop_first n volatility vega :
  fst (newtonLoop Log Exp Erf Pow option (S n) volatility vega) = nan.
Proof.
  cbn [newtonLoop]. cbv zeta.
  rewrite degenerate_OptionPrice, sub_nan_l. unfold Abs.
  change (abs nan) with nan. rewrite ltb_nan_l, div_nan_l, sub_nan_r.
  apply degenerate_newtonLoop.
Qed.

Lemma degenerate_ImpliedVolatility :
  BlackScholesImpliedVolatility Log Exp Erf Pow option = nan.
Proof. apply (degenerate_newtonLoop_first 99). Qed.

End Degenerate.

(** C9, amended: no function raises or returns an error: each is total, of
    result type [float64].  When [UnderlyingPrice / Strike] is negative or
    [DaysToExpiration / 365] is negative, the price, vega, gamma and delta
    are NaN for every volatility, and the solver returns NaN. *)
Theorem degenerate_inputs_give_nan
    (Log Exp Erf : float -> float) (Pow : float -> float -> float)
    (option : Option) :
  MathSpecialCases Log Exp Erf Pow ->
  (UnderlyingPrice option / Strike option <? 0) = true
  \/ (DaysToExpiration option / 365.0 <? 0) = true ->
  (forall volatility,
     BlackScholesOptionPrice Log Exp Erf Pow option volatility = nan
     /\ BlackScholesVega Log Exp Pow option volatility = nan
     /\ BlackScholesGamma Log Exp Pow option volatility = nan
     /\ BlackScholesDelta Log Erf option volatility = nan)
  /\ BlackScholesImpliedVolatility Log Exp Erf Pow option = nan.
Proof.
  intros Hdoc Hdeg. split.
  - intros volatility. repeat split.
    + exact (degenerate_OptionPrice Log Exp Erf Pow Hdoc option Hdeg volatility).
    + exact (degenerate_Vega Log Exp Erf Pow Hdoc option Hdeg volatility).
    + exact (degenerate_Gamma Log Exp Erf Pow Hdoc option Hdeg volatility).
    + exact (degenerate_Delta Log Exp Erf Pow Hdoc option Hdeg volatility).
  - exact (degenerate_ImpliedVolatility Log Exp Erf Pow Hdoc option Hdeg).
Qed.

Lemma degenerate_inputs_give_nan_witness :
  (forall volatility,
     BlackScholesOptionPrice Sample.Log Sample.Exp Sample.Erf Sample.Pow
       (mkOption 10.0 (-100.0) 30.0 0.05 100.0 Call) volatility = nan
     /\ BlackScholesVega Sample.Log Sample.Exp Sample.Pow
          (mkOption 10.0 (-100.0) 30.0 0.05 100.0 Call) volatility = nan
     /\ BlackScholesGamma Sample.Log Sample.Exp Sample.Pow
          (mkOption 10.0 (-100.0) 30.0 0.05 100.0 Call) volatility = nan
     /\ BlackScholesDelta Sample.Log Sample.Erf
          (mkOption 10.0 (-100.0) 30.0 0.05 100.0 Call) volatility = nan)
  /\ BlackScholesImpliedVolatility Sample.Log Sample.Exp Sample.Erf Sample.Pow
       (mkOption 10.0 (-100.0) 30.0 0.05 100.0 Call) = nan.
Proof.
  apply degenerate_inputs_give_nan.
  - exact Sample_special_cases.
  - left. reflexivity.
Defined.

(** With a strike of zero the ratio is [+Inf], [d1] is [+Inf] and the call
    delta is [1], for every [math] library with the documented special
    cases. *)
Lemma BlackScholesDelta_strike_zero (Log Erf : float -> float) :
  Log infinity = infinity -> Erf infinity = 1 ->
  BlackScholesDelta Log Erf (strikeZero Call) 0.2 = 1.
Proof.
  intros HLog HErf.
  unfold BlackScholesDelta, strikeZero, Phi. cbn [UnderlyingPrice Strike
    RiskFreeRate DaysToExpiration OptionType' OptionType_eqb].
  change (100.0 / 0) with infinity. rewrite HLog.
  match goal with
  | |- context [Erf ?a] => replace a with infinity by (vm_compute; reflexivity)
  end.
  rewrite HErf. reflexivity.
Qed.

(** C9 fails for a strike of zero: the input is degenerate and the call
    delta is the finite number [1]. *)
Lemma degenerate_inputs_counterexample :
  (Strike (strikeZero Call) <=? 0) = true
  /\ BlackScholesDelta Sample.Log Sample.Erf (strikeZero Call) 0.2 = 1
  /\ is_finite (BlackScholesDelta Sample.Log Sample.Erf (strikeZero Call) 0.2) = true.
Proof.
  rewrite (BlackScholesDelta_strike_zero Sample.Log Sample.Erf eq_refl eq_refl).
  repeat split.
Qed.

(** ** Round trip through the solver *)

Section RoundTrip.

Variables Log Exp Erf : float -> float.
Variable Pow : float -> float -> float.

Local Abbreviation price := (BlackScholesOptionPrice Log Exp Erf Pow).
Local Abbreviation solve := (BlackScholesImpliedVolatility Log Exp Erf Pow).
Local Abbreviation iterates := (iterate Log Exp Erf Pow).
Local Abbreviation stops := (converged Log Exp Erf Pow).

(** The loop returns the first iterate that passes the stopping test, or
    the last iterate when none of the [n] tested ones passes. *)
Lemma newtonLoop_first_converged option n : forall k vega,
  exists j, (j <= n)%nat
    /\ fst (newtonLoop Log Exp Erf Pow option n (iterates option k) vega)
       = iterates option (k + j)
    /\ (forall i, (i < j)%nat -> stops option (iterates option (k + i)) = false)
    /\ ((j < n)%nat -> stops option (iterates option (k + j)) = true).
Proof.
  induction n as [|n IH]; intros k vega.
  - exists 0%nat. rewrite Nat.add_0_r. repeat split; lia.
  - cbn [newtonLoop]. cbv zeta.
    destruct (Abs (price option (iterates option k) - Price option) <? epsilon) eqn:Hc.
    + exists 0%nat. rewrite Nat.add_0_r. repeat split; try lia.
      intros _. exact Hc.
    + destruct (IH (S k) (BlackScholesVega Log Exp Pow option (iterates option k)))
        as (j & Hj & Hv & Hbefore & Hat).
      exists (S j). rewrite <- Nat.add_succ_comm. repeat split.
      * lia.
      * exact Hv.
      * intros i Hi. destruct i as [|i].
        -- rewrite Nat.add_0_r. exact Hc.
        -- rewrite <- Nat.add_succ_comm. apply Hbefore. lia.
      * intros Hlt. apply Hat. lia.
Qed.

(** C3, amended: price a contract at a volatility [sigma], store that price
    in the contract and solve.  The volatility returned is one of the
    first 101 Newton iterates from 0.2: the first one whose price is
    within 0.0001 of the stored price, or the hundredth update when there
    is none.  Whenever fewer than 100 updates were made, the returned
    volatility reprices to within 0.0001 of the stored price; nothing is
    promised on its distance to [sigma], and when the price at 0.2 is
    already within 0.0001 of the stored price the result is 0.2. *)
Theorem round_trip_recovers_price (option : Option) (sigma : float) :
  let target := price option sigma in
  let stored := withPrice target option in
  let v := solve stored in
  (exists k, (k <= 100)%nat
     /\ v = iterates stored k
     /\ (forall i, (i < k)%nat ->
           (Abs (price option (iterates stored i) - target) <? 0.0001) = false)
     /\ ((k < 100)%nat -> (Abs (price option v - target) <? 0.0001) = true))
  /\ ((Abs (price option 0.2 - target) <? 0.0001) = true -> v = 0.2).
Proof.
  intros target stored v. split.
  - destruct (newtonLoop_first_converged stored 100 0 0.0) as (j & Hj & Hv & Hbefore & Hat).
    exists j. split; [exact Hj|]. split; [exact Hv|]. split.
    + intros i Hi. exact (Hbefore i Hi).
    + intros Hlt. unfold v. change (solve stored) with
        (fst (newtonLoop Log Exp Erf Pow stored 100 (iterates stored 0) 0.0)).
      rewrite Hv. exact (Hat Hlt).
  - intros H. exact (newtonLoop_converged Log Exp Erf Pow stored 99 0.2 0.0 H).
Qed.

(** When the stored price is NaN the solver returns NaN, whatever the
    [math] library. *)
Lemma newtonLoop_nan_target option n : forall volatility vega,
  Price option = nan ->
  fst (newtonLoop Log Exp Erf Pow option (S n) volatility vega) = nan.
Proof.
  induction n as [|n IH]; intros volatility vega HP.
  - cbn [newtonLoop]. cbv zeta. rewrite HP, sub_nan_r. unfold Abs.
    change (abs nan) with nan. rewrite ltb_nan_l, div_nan_l, sub_nan_r. reflexivity.
  - change (fst (newtonLoop Log Exp Erf Pow option (S (S n)) volatility vega))
      with (fst (let p := price option volatility in
                 let g := BlackScholesVega Log Exp Pow option volatility in
                 if Abs (p - Price option) <? epsilon then (volatility, g)
                 else newtonLoop Log Exp Erf Pow option (S n)
                        (volatility - (p - Price option) / g) g)).
    cbv zeta. rewrite HP, sub_nan_r. unfold Abs.
    change (abs nan) with nan. rewrite ltb_nan_l. apply IH. exact HP.
Qed.

Lemma BlackScholesImpliedVolatility_nan_target option :
  Price option = nan -> solve option = nan.
Proof. intros HP. exact (newtonLoop_nan_target option 99 _ _ HP). Qed.

End RoundTrip.

(** C3 fails on a contract whose prices are small: with an underlying price
    and a strike of 0.000001 every price is below 0.000001, so the price
    at 0.2 is within 0.0001 of the price at 1.5 and the solver returns 0.2,
    which is not within 0.0001 of 1.5. *)
Lemma round_trip_counterexample :
  validInputs (tiny Call) 1.5
  /\ (0.05 <=? 1.5) = true /\ (1.5 <=? 1.5) = true
  /\ BlackScholesImpliedVolatility Sample.Log Sample.Exp Sample.Erf Sample.Pow
       (withPrice
          (BlackScholesOptionPrice Sample.Log Sample.Exp Sample.Erf Sample.Pow
             (tiny Call) 1.5)
          (tiny Call)) = 0.2
  /\ (Abs (0.2 - 1.5) <=? 0.0001) = false.
Proof.
  repeat split.
Qed.

(** * Further properties of the code *)

(** ** NaN inputs *)

Section NaNInputs.

Variables Log Exp Erf : float -> float.
Variable Pow : float -> float -> float.
Hypothesis documented : MathSpecialCases Log Exp Erf Pow.

Lemma nanInput_d1_OptionPrice option volatility :
  nanInput option volatility -> d1_OptionPrice Log Pow option volatility = nan.
Proof.
  unfold d1_OptionPrice, nanInput. cbv zeta. intros [H|[H|[H|[H|H]]]]; rewrite H.
  - rewrite div_nan_r, (Log_nan _ _ _ _ documented), add_nan_l, div_nan_l. reflexivity.
  - rewrite div_nan_l, (Log_nan _ _ _ _ documented), add_nan_l, div_nan_l. reflexivity.
  - rewrite div_nan_l, mul_nan_r, add_nan_r, div_nan_l. reflexivity.
  - rewrite add_nan_l, mul_nan_l, add_nan_r, div_nan_l. reflexivity.
  - rewrite mul_nan_l, div_nan_r. reflexivity.
Qed.

Lemma nanInput_d1_Delta option volatility :
  nanInput option volatility -> d1_Delta Log option volatility = nan.
Proof.
  unfold d1_Delta, nanInput. cbv zeta. intros [H|[H|[H|[H|H]]]]; rewrite H.
  - rewrite div_nan_r, (Log_nan _ _ _ _ documented), add_nan_l, div_nan_l. reflexivity.
  - rewrite div_nan_l, (Log_nan _ _ _ _ documented), add_nan_l, div_nan_l. reflexivity.
  - rewrite div_nan_l, mul_nan_r, add_nan_r, div_nan_l. reflexivity.
  - rewrite add_nan_l, mul_nan_l, add_nan_r, div_nan_l. reflexivity.
  - rewrite !mul_nan_l, div_nan_r. reflexivity.
Qed.

Lemma OptionPrice_of_nan_d1 option volatility :
  d1_OptionPrice Log Pow option volatility = nan ->
  BlackScholesOptionPrice Log Exp Erf Pow option volatility = nan.
Proof.
  intros Hd. rewrite BlackScholesOptionPrice_d1. cbv zeta.
  rewrite Hd, sub_nan_l. change (- nan) with nan.
  rewrite (Phi_nan Erf (Erf_nan _ _ _ _ documented)).
  destruct (OptionType_eqb (OptionType' option) Call).
  - rewrite mul_nan_r, sub_nan_l. reflexivity.
  - rewrite !mul_nan_r, sub_nan_r. reflexivity.
Qed.

Lemma Vega_of_nan_d1 option volatility :
  d1_Vega Log Pow option volatility = nan ->
  BlackScholesVega Log Exp Pow option volatility = nan.
Proof.
  intros Hd. rewrite BlackScholesVega_d1, Hd.
  rewrite !mul_nan_r, (Exp_nan _ _ _ _ documented), mul_nan_r, div_nan_l.
  reflexivity.
Qed.

Lemma Gamma_of_nan_d1 option vol :
  d1_Gamma Log Pow option vol = nan ->
  BlackScholesGamma Log Exp Pow option vol = nan.
Proof.
  intros Hd. rewrite BlackScholesGamma_d1, Hd.
  unfold NormalDistributionDerivative.
  rewrite (Pow_nan_two _ _ _ _ documented), mul_nan_r,
    (Exp_nan _ _ _ _ documented), !div_nan_l.
  reflexivity.
Qed.

Lemma Delta_of_nan_d1 option volatility :
  d1_Delta Log option volatility = nan ->
  BlackScholesDelta Log Erf option volatility = nan.
Proof.
  intros Hd. rewrite BlackScholesDelta_d1, Hd.
  rewrite (Phi_nan Erf (Erf_nan _ _ _ _ documented)).
  destruct (OptionType_eqb (OptionType' option) Call); [|rewrite sub_nan_l]; reflexivity.
Qed.

(** X1: a NaN among the strike, the underlying price, the days to
    expiration, the risk-free rate and the volatility is never masked: the
    price, the vega, the gamma and the delta are all NaN, for a call and for
    a put. *)
Theorem nan_input_gives_nan (option : Option) (volatility : float) :
  nanInput option volatility ->
  BlackScholesOptionPrice Log Exp Erf Pow option volatility = nan
  /\ BlackScholesVega Log Exp Pow option volatility = nan
  /\ BlackScholesGamma Log Exp Pow option volatility = nan
  /\ BlackScholesDelta Log Erf option volatility = nan.
Proof.
  intros H. split; [|split; [|split]].
  - apply OptionPrice_of_nan_d1, nanInput_d1_OptionPrice, H.
  - apply Vega_of_nan_d1. exact (nanInput_d1_OptionPrice option volatility H).
  - apply Gamma_of_nan_d1. exact (nanInput_d1_OptionPrice option volatility H).
  - apply Delta_of_nan_d1, nanInput_d1_Delta, H.
Qed.

End NaNInputs.

Lemma nan_input_gives_nan_witness :
  BlackScholesOptionPrice Sample.Log Sample.Exp Sample.Erf Sample.Pow
    (mkOption 10.0 100.0 30.0 nan 100.0 Put) 0.2 = nan
  /\ BlackScholesVega Sample.Log Sample.Exp Sample.Pow
       (mkOption 10.0 100.0 30.0 nan 100.0 Put) 0.2 = nan
  /\ BlackScholesGamma Sample.Log Sample.Exp Sample.Pow
       (mkOption 10.0 100.0 30.0 nan 100.0 Put) 0.2 = nan
  /\ BlackScholesDelta Sample.Log Sample.Erf
       (mkOption 10.0 100.0 30.0 nan 100.0 Put) 0.2 = nan.
Proof.
  apply (nan_input_gives_nan Sample.Log Sample.Exp Sample.Erf Sample.Pow
           Sample_special_cases).
  right. right. right. left. reflexivity.
Defined.

(** ** NaN in the solver *)

Section SolverNaN.

Variables Log Exp Erf : float -> float.
Variable Pow : float -> float -> float.
Variable option : Option.

Lemma newtonStep_nan : newtonStep Log Exp Erf Pow option nan = nan.
Proof. unfold newtonStep. apply sub_nan_l. Qed.

Lemma iterate_nan_onwards k : forall j,
  iterate Log Exp Erf Pow option k = nan ->
  iterate Log Exp Erf Pow option (k + j) = nan.
Proof.
  induction j as [|j IH]; intros Hk.
  - rewrite Nat.add_0_r. exact Hk.
  - rewrite Nat.add_succ_r. cbn [iterate]. rewrite (IH Hk). apply newtonStep_nan.
Qed.

(** The loop returns NaN once an iterate is NaN before any iterate passes
    the stopping test. *)
Lemma solver_nan_iterate (k : nat) :
  (k <= 100)%nat ->
  iterate Log Exp Erf Pow option k = nan ->
  (forall i, (i < k)%nat ->
     converged Log Exp Erf Pow option (iterate Log Exp Erf Pow option i) = false) ->
  BlackScholesImpliedVolatility Log Exp Erf Pow option = nan.
Proof.
  intros Hk Hnan Hbefore.
  destruct (newtonLoop_first_converged Log Exp Erf Pow option 100 0 0.0)
    as (j & Hj & Hv & _ & Hat).
  change (BlackScholesImpliedVolatility Log Exp Erf Pow option)
    with (fst (newtonLoop Log Exp Erf Pow option 100
                 (iterate Log Exp Erf Pow option 0) 0.0)).
  rewrite Hv. cbn [Nat.add] in *.
  destruct (Nat.lt_ge_cases j k) as [Hlt|Hge].
  - assert (Hc : converged Log Exp Erf Pow option (iterate Log Exp Erf Pow option j) = true)
      by (apply Hat; lia).
    rewrite (Hbefore j Hlt) in Hc. discriminate Hc.
  - replace j with (k + (j - k))%nat by lia. apply iterate_nan_onwards, Hnan.
Qed.

(** X2: the solver does not recover from a NaN iterate.  If the iterate
    after [k] updates is NaN and none of the earlier iterates passes the
    stopping test, the result is NaN: the loop has no early exit on a
    non-finite iterate, and every later update is NaN again. *)
Theorem BlackScholesImpliedVolatility_nan_iterate (k : nat) :
  (k <= 100)%nat ->
  iterate Log Exp Erf Pow option k = nan ->
  (forall i, (i < k)%nat ->
     converged Log Exp Erf Pow option (iterate Log Exp Erf Pow option i) = false) ->
  BlackScholesImpliedVolatility Log Exp Erf Pow option = nan.
Proof.
  intros Hk Hnan Hbefore. exact (solver_nan_iterate k Hk Hnan Hbefore).
Qed.

(** X3: a contract whose quoted price is NaN has a NaN implied volatility,
    whatever the other fields and whatever the [math] library: the
    stopping test fails on NaN and the first update is NaN. *)
Theorem BlackScholesImpliedVolatility_nan_price :
  Price option = nan ->
  BlackScholesImpliedVolatility Log Exp Erf Pow option = nan.
Proof. intros HP. exact (newtonLoop_nan_target Log Exp Erf Pow option 99 _ _ HP). Qed.

End SolverNaN.

Lemma BlackScholesImpliedVolatility_nan_iterate_witness :
  BlackScholesImpliedVolatility Sample.Log Sample.Exp Sample.Erf Sample.Pow
    farOutOfTheMoney = nan.
Proof.
  apply (BlackScholesImpliedVolatility_nan_iterate
           Sample.Log Sample.Exp Sample.Erf Sample.Pow farOutOfTheMoney 2).
  - lia.
  - vm_compute. reflexivity.
  - intros i Hi. destruct i as [|[|i]]; [vm_compute; reflexivity | vm_compute; reflexivity | lia].
Defined.

Lemma BlackScholesImpliedVolatility_nan_price_witness :
  BlackScholesImpliedVolatility Sample.Log Sample.Exp Sample.Erf Sample.Pow
    (scenario nan Call) = nan.
Proof.
  apply BlackScholesImpliedVolatility_nan_price. reflexivity.
Defined.

(** ** Signs *)

Lemma binary_round_aux_cases (P : spec_float -> Prop) s m e l :
  P S754_nan -> P (S754_zero s) -> P (S754_infinity s) ->
  (forall m' e', P (S754_finite s m' e')) ->
  P (binary_round_aux prec emax s m e l).
Proof.
  intros Hn Hz Hi Hf. unfold binary_round_aux.
  destruct (shr_fexp prec emax m e l) as [mrs' e'].
  destruct (shr_fexp prec emax _ e' loc_Exact) as [mrs'' e''].
  destruct (shr_m mrs'') as [|p|p]; [exact Hz| |exact Hn].
  destruct (e'' <=? emax - prec)%Z; [apply Hf|exact Hi].
Qed.

Lemma sign_clear_binary_round_aux m e l :
  sign_clear (binary_round_aux prec emax false m e l) = true.
Proof. apply binary_round_aux_cases; reflexivity. Qed.

Lemma sign_clear_SFmul x y :
  sign_clear x = true -> sign_clear y = true -> sign_clear (SF64mul x y) = true.
Proof.
  unfold SF64mul.
  destruct x as [[|]|[|]| |[|] mx ex]; try discriminate;
  destruct y as [[|]|[|]| |[|] my ey]; try discriminate; intros _ _; try reflexivity.
  apply sign_clear_binary_round_aux.
Qed.

Lemma sign_clear_SFdiv x y :
  sign_clear x = true -> sign_clear y = true -> sign_clear (SF64div x y) = true.
Proof.
  unfold SF64div.
  destruct x as [[|]|[|]| |[|] mx ex]; try discriminate;
  destruct y as [[|]|[|]| |[|] my ey]; try discriminate; intros _ _; try reflexivity.
  cbn [SFdiv xorb]. destruct (SFdiv_core_binary prec emax (Zpos mx) ex (Zpos my) ey) as [[mz ez] lz].
  apply sign_clear_binary_round_aux.
Qed.

Lemma sign_clear_SFsqrt x :
  sign_clear x = true -> sign_clear (SF64sqrt x) = true.
Proof.
  unfold SF64sqrt.
  destruct x as [[|]|[|]| |[|] mx ex]; try discriminate; intros _; try reflexivity.
  cbn [SFsqrt]. destruct (SFsqrt_core_binary prec emax (Zpos mx) ex) as [[mz ez] lz].
  apply sign_clear_binary_round_aux.
Qed.

Lemma SFltb_zero_sign_clear x :
  sign_clear x = true -> SFltb x (S754_zero false) = false.
Proof. destruct x as [[|]|[|]| |[|] mx ex]; try discriminate; reflexivity. Qed.

(** A product of numbers that are not negative is not negative. *)
Lemma SFmul_not_negative x y :
  SFltb x (S754_zero false) = false -> SFltb y (S754_zero false) = false ->
  SFltb (SF64mul x y) (S754_zero false) = false.
Proof.
  unfold SF64mul.
  destruct x as [[|]|[|]| |[|] mx ex]; try discriminate;
  destruct y as [[|]|[|]| |[|] my ey]; try discriminate; intros _ _; try reflexivity.
  apply SFltb_zero_sign_clear. apply sign_clear_binary_round_aux.
Qed.

(** A number that is not negative divided by one whose sign bit is clear. *)
Lemma SFdiv_not_negative x y :
  SFltb x (S754_zero false) = false -> sign_clear y = true ->
  SFltb (SF64div x y) (S754_zero false) = false.
Proof.
  unfold SF64div.
  destruct x as [[|]|[|]| |[|] mx ex]; try discriminate;
  destruct y as [[|]|[|]| |[|] my ey]; try discriminate; intros _ _; try reflexivity.
  cbn [SFdiv xorb]. destruct (SFdiv_core_binary prec emax (Zpos mx) ex (Zpos my) ey) as [[mz ez] lz].
  apply SFltb_zero_sign_clear. apply sign_clear_binary_round_aux.
Qed.

Lemma SFsqrt_not_negative x : SFltb (SF64sqrt x) (S754_zero false) = false.
Proof.
  unfold SF64sqrt.
  destruct x as [[|]|[|]| |[|] mx ex]; try reflexivity.
  cbn [SFsqrt]. destruct (SFsqrt_core_binary prec emax (Zpos mx) ex) as [[mz ez] lz].
  apply SFltb_zero_sign_clear. apply sign_clear_binary_round_aux.
Qed.

Lemma positive_sign_clear x : (0 <? x) = true -> sign_clear (Prim2SF x) = true.
Proof.
  rewrite ltb_spec. change (Prim2SF 0) with (S754_zero false).
  destruct (Prim2SF x) as [[|]|[|]| |[|] mx ex]; try discriminate; reflexivity.
Qed.

Lemma mul_not_negative x y :
  (x <? 0) = false -> (y <? 0) = false -> (x * y <? 0) = false.
Proof.
  rewrite !ltb_spec, mul_spec. change (Prim2SF 0) with (S754_zero false).
  apply SFmul_not_negative.
Qed.

Lemma div_not_negative x y :
  (x <? 0) = false -> sign_clear (Prim2SF y) = true -> (x / y <? 0) = false.
Proof.
  rewrite !ltb_spec, div_spec. change (Prim2SF 0) with (S754_zero false).
  apply SFdiv_not_negative.
Qed.

Lemma sqrt_not_negative x : (sqrt x <? 0) = false.
Proof.
  rewrite ltb_spec, sqrt_spec. change (Prim2SF 0) with (S754_zero false).
  apply SFsqrt_not_negative.
Qed.

Lemma sign_clear_mul x y :
  sign_clear (Prim2SF x) = true -> sign_clear (Prim2SF y) = true ->
  sign_clear (Prim2SF (x * y)) = true.
Proof. rewrite mul_spec. apply sign_clear_SFmul. Qed.

Lemma sign_clear_div x y :
  sign_clear (Prim2SF x) = true -> sign_clear (Prim2SF y) = true ->
  sign_clear (Prim2SF (x / y)) = true.
Proof. rewrite div_spec. apply sign_clear_SFdiv. Qed.

Lemma sign_clear_sqrt x :
  sign_clear (Prim2SF x) = true -> sign_clear (Prim2SF (sqrt x)) = true.
Proof. rewrite sqrt_spec. apply sign_clear_SFsqrt. Qed.

(** A binary64 number that is not below zero is NaN or at least zero. *)
Lemma not_negative_cases x : (x <? 0) = false -> x = nan \/ (0 <=? x) = true.
Proof.
  rewrite ltb_spec, leb_spec, <- Prim2SF_nan. change (Prim2SF 0) with (S754_zero false).
  destruct (Prim2SF x) as [[|]|[|]| |[|] mx ex]; try discriminate; intros _;
    (left; reflexivity) || (right; reflexivity).
Qed.

Section Signs.

Variables Log Exp Erf : float -> float.
Variable Pow : float -> float -> float.
Hypothesis Exp_not_negative : ExpNotNegative Exp.

Lemma Sqrt_two_pi_sign_clear : sign_clear (Prim2SF (Sqrt (2 * Pi))) = true.
Proof. reflexivity. Qed.

(** X4: [NormalDistributionDerivative] never returns a negative number: on
    every argument its value is NaN or at least zero. *)
Theorem NormalDistributionDerivative_not_negative (x : float) :
  NormalDistributionDerivative Exp Pow x = nan
  \/ (0 <=? NormalDistributionDerivative Exp Pow x) = true.
Proof.
  apply not_negative_cases. unfold NormalDistributionDerivative.
  apply div_not_negative; [apply Exp_not_negative | exact Sqrt_two_pi_sign_clear].
Qed.

(** X5: when the underlying price is not negative, [BlackScholesVega] is
    NaN or at least zero, at every volatility (a negative one too) and for
    every strike, rate and time to expiration. *)
Theorem BlackScholesVega_not_negative (option : Option) (volatility : float) :
  (UnderlyingPrice option <? 0) = false ->
  BlackScholesVega Log Exp Pow option volatility = nan
  \/ (0 <=? BlackScholesVega Log Exp Pow option volatility) = true.
Proof.
  intros HS. apply not_negative_cases. rewrite BlackScholesVega_d1.
  apply div_not_negative; [|exact Sqrt_two_pi_sign_clear].
  apply mul_not_negative; [|apply Exp_not_negative].
  apply mul_not_negative; [exact HS|]. unfold Sqrt. apply sqrt_not_negative.
Qed.

(** X6: on the inputs the specification calls valid (strike, underlying
    price, days to expiration and volatility all positive),
    [BlackScholesGamma] is NaN or at least zero. *)
Theorem BlackScholesGamma_not_negative (option : Option) (vol : float) :
  validInputs option vol ->
  BlackScholesGamma Log Exp Pow option vol = nan
  \/ (0 <=? BlackScholesGamma Log Exp Pow option vol) = true.
Proof.
  intros (_ & HS & HT & Hv). apply not_negative_cases. rewrite BlackScholesGamma_d1.
  apply div_not_negative.
  - unfold NormalDistributionDerivative.
    apply div_not_negative; [apply Exp_not_negative | exact Sqrt_two_pi_sign_clear].
  - apply sign_clear_mul; [apply sign_clear_mul; apply positive_sign_clear; assumption|].
    unfold Sqrt. apply sign_clear_sqrt, sign_clear_div;
      [apply positive_sign_clear; exact HT | reflexivity].
Qed.

End Signs.

(** The sample [Exp] never returns a negative number: it is a square. *)

Lemma mul_self_not_negative y : (y * y <? 0) = false.
Proof.
  rewrite ltb_spec, mul_spec. change (Prim2SF 0) with (S754_zero false).
  destruct (Prim2SF y) as [[|]|[|]| |[|] m e]; try reflexivity;
    cbn [SFmul xorb]; apply SFltb_zero_sign_clear, sign_clear_binary_round_aux.
Qed.

Lemma Sample_squareN_not_negative n : forall y,
  (y <? 0) = false -> (Sample.squareN n y <? 0) = false.
Proof.
  induction n as [|n IH]; intros y Hy; [exact Hy|].
  cbn [Sample.squareN]. apply IH, mul_self_not_negative.
Qed.

Lemma Sample_ExpNotNegative : ExpNotNegative Sample.Exp.
Proof.
  intros x. unfold Sample.Exp.
  destruct (is_nan x); [reflexivity|].
  destruct (x =? infinity); [reflexivity|].
  destruct (x =? neg_infinity); [reflexivity|].
  change (Sample.squareN 10 ?y) with (Sample.squareN 9 (y * y)).
  apply Sample_squareN_not_negative, mul_self_not_negative.
Qed.

Lemma NormalDistributionDerivative_not_negative_witness :
  NormalDistributionDerivative Sample.Exp Sample.Pow 1.5 = nan
  \/ (0 <=? NormalDistributionDerivative Sample.Exp Sample.Pow 1.5) = true.
Proof.
  exact (NormalDistributionDerivative_not_negative Sample.Exp Sample.Pow
           Sample_ExpNotNegative 1.5).
Defined.

Lemma BlackScholesVega_not_negative_witness :
  BlackScholesVega Sample.Log Sample.Exp Sample.Pow (scenario 10.0 Call) (-0.2) = nan
  \/ (0 <=? BlackScholesVega Sample.Log Sample.Exp Sample.Pow
              (scenario 10.0 Call) (-0.2)) = true.
Proof.
  exact (BlackScholesVega_not_negative Sample.Log Sample.Exp Sample.Pow
           Sample_ExpNotNegative (scenario 10.0 Call) (-0.2) eq_refl).
Defined.

Lemma BlackScholesGamma_not_negative_witness :
  BlackScholesGamma Sample.Log Sample.Exp Sample.Pow (scenario 10.0 Call) 0.2 = nan
  \/ (0 <=? BlackScholesGamma Sample.Log Sample.Exp Sample.Pow
              (scenario 10.0 Call) 0.2) = true.
Proof.
  apply (BlackScholesGamma_not_negative Sample.Log Sample.Exp Sample.Pow
           Sample_ExpNotNegative (scenario 10.0 Call) 0.2).
  repeat split.
Defined.

(** ** Exact and finite results *)

Section Binary64Exact.

Local Open Scope Z_scope.

Lemma Prim2SF_one : Prim2SF 1 = SFone.
Proof. reflexivity. Qed.

(** Multiplying by one is exact. *)
Lemma SFmul_one_r x : valid_binary x = true -> SF64mul x SFone = x.
Proof.
  intros V. destruct x as [s|s| |s m e]; try reflexivity.
  - destruct s; reflexivity.
  - destruct s; reflexivity.
  - pose proof (valid_finite _ _ _ V) as (He & Hd & Hn).
    pose proof (valid_finite_mant _ _ _ V) as (Hm & _).
    unfold SF64mul, SFone. cbn [SFmul].
    replace (xorb s false) with s by (destruct s; reflexivity).
    assert (Hmul : (m * Z.to_pos (2 ^ 52))%positive = Z.to_pos (Zpos m * 2 ^ 52)).
    { apply Pos2Z.inj. rewrite Pos2Z.inj_mul, !Z2Pos.id by lia. ring. }
    rewrite Hmul.
    assert (Hdig : Zpos (digits2_pos (Z.to_pos (Zpos m * 2 ^ 52))) = Zpos (digits2_pos m) + 52).
    { apply digits2_pos_shift. lia. }
    assert (Hnn : fexp prec emax (Zpos (digits2_pos (Z.to_pos (Zpos m * 2 ^ 52))) + (e + -52))
                  - (e + -52) = 52).
    { rewrite Hdig, fexp64. lia. }
    rewrite bra_shift; rewrite Hnn; [|lia].
    rewrite Z2Pos.id by lia. rewrite (Z.mul_comm (Zpos m)), rne_mul_pow2 by lia.
    replace (e + -52 + 52) with e by lia.
    unfold finish.
    replace (Zpos m =? 0) with false by (symmetry; apply Z.eqb_neq; lia).
    replace (Zpos m =? 2 ^ 53) with false by (symmetry; apply Z.eqb_neq; lia).
    replace (e <=? 971) with true by (symmetry; apply Z.leb_le; lia).
    reflexivity.
Qed.

End Binary64Exact.


Lemma mul_one_r x : x * 1 = x.
Proof.
  apply Prim2SF_inj. rewrite mul_spec, Prim2SF_one.
  apply SFmul_one_r, Prim2SF_valid.
Qed.

Section Binary64Finite.

Local Open Scope Z_scope.

Lemma Zdigits2_bound m : 0 <= m -> 0 <= Zdigits2 m /\ m < 2 ^ Zdigits2 m.
Proof.
  intros Hm. destruct m as [|p|p]; [cbn; lia| |lia].
  cbn [Zdigits2]. pose proof (digits2_pos_bounds p). lia.
Qed.

Lemma shr_m_shr_1 mrs : 0 <= shr_m mrs -> shr_m (shr_1 mrs) = shr_m mrs / 2.
Proof.
  destruct mrs as [m r s]. cbn [shr_m]. intros H.
  rewrite shr_1_spec by exact H. cbn [shr_m]. apply Z.div2_div.
Qed.

Lemma shr_m_iter k : forall mrs,
  0 <= shr_m mrs ->
  shr_m (Nat.iter k shr_1 mrs) = shr_m mrs / 2 ^ Z.of_nat k.
Proof.
  induction k as [|k IH]; intros mrs H.
  - cbn. rewrite Z.div_1_r. reflexivity.
  - rewrite Nat.iter_succ, shr_m_shr_1.
    + rewrite IH by exact H.
      replace (Z.of_nat (S k)) with (Z.of_nat k + 1) by lia.
      rewrite Z.pow_add_r, Z.div_div by lia. reflexivity.
    + rewrite IH by exact H. apply Z.div_pos; [exact H|]. apply Z.pow_pos_nonneg; lia.
Qed.

(** The first normalisation of [binary_round_aux]: the mantissa is kept,
    or shifted to the exponent of the format. *)
Lemma shr_fexp_cases m e l :
  0 <= m ->
  let f := fexp prec emax (Zdigits2 m + e) in
  let '(mrs, e') := shr_fexp prec emax m e l in
  (f <= e /\ e' = e /\ shr_m mrs = m)
  \/ (e < f /\ e' = f /\ shr_m mrs = m / 2 ^ (f - e)).
Proof.
  intros Hm f. unfold shr_fexp. fold f.
  assert (Hrec : shr_m (shr_record_of_loc m l) = m) by (destruct l as [|[| |]]; reflexivity).
  unfold shr. destruct (f - e) as [|p|p] eqn:E.
  - left. repeat split; [lia | exact Hrec].
  - right. split; [lia|]. split; [lia|].
    rewrite iter_pos_nat, shr_m_iter by (rewrite Hrec; exact Hm).
    rewrite Hrec, positive_nat_Z. reflexivity.
  - left. repeat split; [lia | exact Hrec].
Qed.

Lemma round_nearest_even_le m l : round_nearest_even m l <= m + 1.
Proof.
  unfold round_nearest_even. destruct l as [|[| |]]; try lia. destruct (Z.even m); lia.
Qed.

(** A mantissa and exponent below the overflow threshold round to a finite
    number, whatever the position of the discarded part. *)
Lemma binary_round_aux_is_fin s m e l :
  0 <= m -> e <= 971 -> Zdigits2 m + e <= 1023 ->
  is_fin (binary_round_aux prec emax s m e l) = true.
Proof.
  intros Hm He Hd. unfold binary_round_aux.
  pose proof (shr_fexp_cases m e l Hm) as H1. cbv zeta in H1.
  pose proof (Zdigits2_bound m Hm) as [Hd0 Hdm].
  rewrite fexp64 in H1.
  destruct (shr_fexp prec emax m e l) as [mrs' e'].
  set (m1 := round_nearest_even (shr_m mrs') (loc_of_shr_record mrs')).
  assert (Hm' : 0 <= shr_m mrs').
  { destruct H1 as [(_ & _ & ->)|(Hf & _ & ->)]; [exact Hm|].
    apply Z.div_pos; [exact Hm|]. apply Z.pow_pos_nonneg; lia. }
  assert (Hm1 : 0 <= m1) by (apply round_nearest_even_nonneg; exact Hm').
  assert (Hm1' : m1 <= shr_m mrs' + 1) by apply round_nearest_even_le.
  assert (Hb : e' <= 971 /\ Zdigits2 m1 + e' <= 1024).
  { destruct H1 as [(Hf & -> & Hs)|(Hf & -> & Hs)].
    - split; [exact He|]. rewrite Hs in Hm1'.
      assert (Zdigits2 m1 <= Zdigits2 m + 1); [|lia].
      apply Zdigits2_le; [|lia]. split; [exact Hm1|].
      rewrite Z.pow_add_r by lia. change (2 ^ 1) with 2. lia.
    - split; [lia|].
      set (n := Z.max (Zdigits2 m + e - 53) (-1074) - e) in *.
      destruct (Z_le_gt_dec n (Zdigits2 m)) as [Hn|Hn].
      + assert (Hq : m / 2 ^ n < 2 ^ (Zdigits2 m - n)).
        { apply Z.div_lt_upper_bound; [apply Z.pow_pos_nonneg; lia|].
          rewrite <- Z.pow_add_r by lia.
          replace (n + (Zdigits2 m - n)) with (Zdigits2 m) by lia. exact Hdm. }
        assert (Zdigits2 m1 <= Zdigits2 m - n + 1); [|lia].
        apply Zdigits2_le; [|lia]. split; [exact Hm1|].
        rewrite Z.pow_add_r by lia. change (2 ^ 1) with 2. lia.
      + assert (Hq : m / 2 ^ n = 0).
        { apply Z.div_small. split; [exact Hm|].
          apply Z.lt_le_trans with (2 ^ Zdigits2 m); [exact Hdm|].
          apply pow2_le. lia. }
        assert (Zdigits2 m1 <= 1); [|lia].
        apply Zdigits2_le; [|lia]. change (2 ^ 1) with 2. lia. }
  destruct Hb as [Hb1 Hb2].
  pose proof (shr_fexp_cases m1 e' loc_Exact Hm1) as H2. cbv zeta in H2.
  rewrite fexp64 in H2.
  destruct (shr_fexp prec emax m1 e' loc_Exact) as [mrs'' e''].
  assert (He'' : e'' <= 971) by (destruct H2 as [(_ & -> & _)|(_ & -> & _)]; lia).
  assert (Hm'' : 0 <= shr_m mrs'').
  { destruct H2 as [(_ & _ & ->)|(Hf & _ & ->)]; [exact Hm1|].
    apply Z.div_pos; [exact Hm1|]. apply Z.pow_pos_nonneg; lia. }
  destruct (shr_m mrs'') as [|p|p]; [reflexivity| |lia].
  replace (e'' <=? emax - prec) with true by (symmetry; apply Z.leb_le; cbn; lia).
  reflexivity.
Qed.

(** The square root of a positive finite number is finite. *)
Lemma SFsqrt_is_fin m e :
  valid_binary (S754_finite false m e) = true ->
  is_fin (SF64sqrt (S754_finite false m e)) = true.
Proof.
  intros V.
  pose proof (valid_finite _ _ _ V) as (He & Hd & _).
  unfold SF64sqrt. cbn [SFsqrt]. unfold SFsqrt_core_binary.
  change (Zdigits2 (Zpos m)) with (Zpos (digits2_pos m)).
  set (d := Zpos (digits2_pos m)) in *.
  assert (Hd0 : 0 < d) by (unfold d; lia).
  rewrite fexp64, !Z.div2_div.
  set (e' := Z.min (Z.max ((d + e + 1) / 2 - 53) (-1074)) (e / 2)).
  set (m' := match e - 2 * e' with Zpos _ => Z.shiftl (Zpos m) (e - 2 * e') | Z0 => Zpos m | Zneg _ => 0 end).
  assert (Hm' : 0 <= m' < 2 ^ (d + Z.max (e - 2 * e') 0)).
  { pose proof (digits2_pos_bounds m) as [_ Hhi]. fold d in Hhi. unfold m'.
    destruct (e - 2 * e') as [|p|p] eqn:E.
    - replace (d + Z.max 0 0) with d by lia. lia.
    - rewrite Z.shiftl_mul_pow2 by lia.
      assert (0 < 2 ^ Zpos p) by (apply Z.pow_pos_nonneg; lia).
      replace (Z.max (Zpos p) 0) with (Zpos p) by lia.
      rewrite Z.pow_add_r by lia. split; [lia|].
      apply Z.mul_lt_mono_pos_r; lia.
    - split; [lia|]. apply Z.pow_pos_nonneg; lia. }
  pose proof (Z.sqrtrem_spec m' ltac:(lia)) as Hs.
  destruct (Z.sqrtrem m') as [q r]. destruct Hs as [Hq Hr].
  assert (Hq0 : 0 <= q) by lia.
  assert (Hqm : q <= m') by nia.
  assert (Hdq : Zdigits2 q <= d + Z.max (e - 2 * e') 0) by (apply Zdigits2_le; lia).
  pose proof (Z.div_mod e 2 ltac:(lia)) as He2.
  pose proof (Z.mod_pos_bound e 2 ltac:(lia)) as He2'.
  pose proof (Z.div_mod (d + e + 1) 2 ltac:(lia)) as Hd2.
  pose proof (Z.mod_pos_bound (d + e + 1) 2 ltac:(lia)) as Hd2'.
  apply binary_round_aux_is_fin; [exact Hq0 | unfold e'; lia |].
  unfold e' in *. lia.
Qed.

End Binary64Finite.

Section Binary64Division.

Local Open Scope Z_scope.

(** A finite number divided by a number of magnitude at least two is
    finite. *)
Lemma SFdiv_is_fin sx mx ex sy my ey :
  valid_binary (S754_finite sx mx ex) = true ->
  2 <= Zpos (digits2_pos my) + ey ->
  is_fin (SF64div (S754_finite sx mx ex) (S754_finite sy my ey)) = true.
Proof.
  intros V Hy.
  pose proof (valid_finite _ _ _ V) as (He & Hd & _).
  unfold SF64div. cbn [SFdiv]. unfold SFdiv_core_binary.
  change (Zdigits2 (Zpos mx)) with (Zpos (digits2_pos mx)).
  change (Zdigits2 (Zpos my)) with (Zpos (digits2_pos my)).
  pose proof (digits2_pos_bounds mx) as [_ Hx].
  pose proof (digits2_pos_bounds my) as [Hylo _].
  set (d1 := Zpos (digits2_pos mx)) in *.
  set (d2 := Zpos (digits2_pos my)) in *.
  assert (Hd1 : 0 < d1) by (unfold d1; lia).
  assert (Hd2 : 0 < d2) by (unfold d2; lia).
  rewrite fexp64.
  set (e' := Z.min (Z.max (d1 + ex - (d2 + ey) - 53) (-1074)) (ex - ey)).
  set (m' := match ex - ey - e' with
             | Zpos _ => Z.shiftl (Zpos mx) (ex - ey - e') | Z0 => Zpos mx | Zneg _ => 0 end).
  assert (Hm' : 0 <= m' < 2 ^ (d1 + Z.max (ex - ey - e') 0)).
  { unfold m'. destruct (ex - ey - e') as [|p|p] eqn:E.
    - replace (d1 + Z.max 0 0) with d1 by lia. lia.
    - rewrite Z.shiftl_mul_pow2 by lia.
      assert (0 < 2 ^ Zpos p) by (apply Z.pow_pos_nonneg; lia).
      replace (Z.max (Zpos p) 0) with (Zpos p) by lia.
      rewrite Z.pow_add_r by lia. split; [lia|].
      apply Z.mul_lt_mono_pos_r; lia.
    - split; [lia|]. apply Z.pow_pos_nonneg; lia. }
  pose proof (Z_div_mod m' (Zpos my) ltac:(reflexivity)) as H.
  destruct (Z.div_eucl m' (Zpos my)) as [q r]. destruct H as [Heq Hr].
  assert (Hq0 : 0 <= q) by nia.
  set (t := d1 + Z.max (ex - ey - e') 0) in *.
  assert (Hq : Zdigits2 q <= Z.max (t - d2 + 1) 0).
  { apply Zdigits2_le; [|lia]. split; [exact Hq0|].
    assert (Hmq : 2 ^ (d2 - 1) * q < 2 ^ t).
    { apply Z.le_lt_trans with (Zpos my * q); [apply Z.mul_le_mono_nonneg_r; lia | lia]. }
    assert (Hp : 0 < 2 ^ (d2 - 1)) by (apply Z.pow_pos_nonneg; lia).
    destruct (Z_le_gt_dec 0 (t - d2 + 1)) as [Hj|Hj].
    - replace (Z.max (t - d2 + 1) 0) with (t - d2 + 1) by lia.
      apply Z.mul_lt_mono_pos_l with (2 ^ (d2 - 1)); [exact Hp|].
      rewrite <- Z.pow_add_r by lia.
      replace (d2 - 1 + (t - d2 + 1)) with t by lia. exact Hmq.
    - replace (Z.max (t - d2 + 1) 0) with 0 by lia. change (2 ^ 0) with 1.
      assert (2 ^ t <= 2 ^ (d2 - 1)) by (apply pow2_le; unfold t; lia).
      nia. }
  apply binary_round_aux_is_fin; [exact Hq0 | unfold e'; lia |].
  unfold t, e' in *. lia.
Qed.

End Binary64Division.

(** ** Division by zero in [d1] *)

Lemma is_finite_spec x : is_finite x = true -> is_fin (Prim2SF x) = true.
Proof.
  unfold is_finite, is_nan, is_infinity. rewrite !FloatAxioms.eqb_spec, abs_spec.
  change (Prim2SF infinity) with (S754_infinity false).
  destruct (Prim2SF x) as [s|s| |s m e]; try reflexivity; intros H.
  - rewrite orb_true_r in H. discriminate H.
  - discriminate H.
Qed.

(** A zero of either sign, and its sign bit. *)
Lemma zero_spec z : (z =? 0) = true -> Prim2SF z = S754_zero (Signbit z).
Proof.
  unfold Signbit. rewrite FloatAxioms.eqb_spec.
  change (Prim2SF 0) with (S754_zero false).
  destruct (Prim2SF z) as [s|[|]| |[|] m e]; try discriminate; reflexivity.
Qed.

Lemma zero_of_spec z s :
  Prim2SF z = S754_zero s -> (z =? 0) = true /\ Signbit z = s.
Proof.
  intros H. unfold Signbit. rewrite FloatAxioms.eqb_spec, H.
  destruct s; split; reflexivity.
Qed.

(** A zero multiplied by a finite number whose sign bit is clear is the
    same zero. *)
Lemma zero_mul_l z y :
  (z =? 0) = true ->
  is_fin (Prim2SF y) = true -> sign_clear (Prim2SF y) = true ->
  (z * y =? 0) = true /\ Signbit (z * y) = Signbit z.
Proof.
  intros Hz Hf Hs. apply zero_of_spec. rewrite mul_spec, (zero_spec z Hz).
  destruct (Signbit z);
    destruct (Prim2SF y) as [[|]|[|]| |[|] m e]; try discriminate; reflexivity.
Qed.

Lemma mul_zero_r x z :
  is_fin (Prim2SF x) = true -> sign_clear (Prim2SF x) = true ->
  (z =? 0) = true ->
  (x * z =? 0) = true /\ Signbit (x * z) = Signbit z.
Proof.
  intros Hf Hs Hz. apply zero_of_spec. rewrite mul_spec, (zero_spec z Hz).
  destruct (Signbit z);
    destruct (Prim2SF x) as [[|]|[|]| |[|] m e]; try discriminate; reflexivity.
Qed.

(** Zero days are zero years, and the square root keeps the zero and its
    sign. *)
Lemma years_zero days :
  (days =? 0) = true ->
  (sqrt (days / 365.0) =? 0) = true
  /\ Signbit (sqrt (days / 365.0)) = Signbit days.
Proof.
  intros Hz. apply zero_of_spec. rewrite sqrt_spec, div_spec, (zero_spec days Hz).
  destruct (Signbit days); reflexivity.
Qed.

Lemma positive_Signbit x : (0 <? x) = true -> Signbit x = false.
Proof.
  unfold Signbit. rewrite ltb_spec. change (Prim2SF 0) with (S754_zero false).
  destruct (Prim2SF x) as [[|]|[|]| |[|] m e]; try discriminate; reflexivity.
Qed.

(** A positive finite number: finite, with a clear sign bit. *)
Lemma positive_finite_spec x :
  (0 <? x) = true -> (x <? infinity) = true ->
  exists m e, Prim2SF x = S754_finite false m e.
Proof.
  rewrite !ltb_spec. change (Prim2SF 0) with (S754_zero false).
  change (Prim2SF infinity) with (S754_infinity false).
  destruct (Prim2SF x) as [[|]|[|]| |[|] m e]; try discriminate; intros _ _.
  exists m, e. reflexivity.
Qed.

Lemma positive_finite_is_fin x :
  (0 <? x) = true -> (x <? infinity) = true ->
  is_fin (Prim2SF x) = true /\ sign_clear (Prim2SF x) = true.
Proof.
  intros H0 Hi. destruct (positive_finite_spec x H0 Hi) as (m & e & ->).
  split; reflexivity.
Qed.

(** The time to expiration in years of a positive finite number of days is
    finite, and so is its square root; their sign bit is clear. *)
Lemma years_finite days :
  (0 <? days) = true -> (days <? infinity) = true ->
  is_fin (Prim2SF (days / 365.0)) = true
  /\ sign_clear (Prim2SF (days / 365.0)) = true.
Proof.
  intros H0 Hi. destruct (positive_finite_spec days H0 Hi) as (m & e & Hd).
  pose proof (Prim2SF_valid days) as V. rewrite Hd in V.
  rewrite div_spec, Hd.
  change (Prim2SF 365.0) with (S754_finite false 6421147906211840 (-44)).
  split.
  - apply SFdiv_is_fin; [exact V | vm_compute; discriminate].
  - apply sign_clear_SFdiv; reflexivity.
Qed.

Lemma sqrt_finite t :
  is_fin (Prim2SF t) = true -> sign_clear (Prim2SF t) = true ->
  is_fin (Prim2SF (sqrt t)) = true /\ sign_clear (Prim2SF (sqrt t)) = true.
Proof.
  intros Hf Hs. pose proof (Prim2SF_valid t) as V. rewrite sqrt_spec.
  destruct (Prim2SF t) as [[|]|[|]| |[|] m e]; try discriminate.
  - split; reflexivity.
  - split; [apply SFsqrt_is_fin; exact V | apply sign_clear_SFsqrt; reflexivity].
Qed.

(** A division by a zero of either sign: infinite with the sign of the
    numerator, reversed by a negative zero; NaN when the numerator is a
    zero or NaN. *)
Lemma div_zero n z :
  (z =? 0) = true ->
  n / z = match overZero n z ?= 0 with
          | FGt => infinity
          | FLt => neg_infinity
          | FEq | FNotComparable => nan
          end.
Proof.
  intros Hz. apply Prim2SF_inj. unfold overZero.
  rewrite div_spec, (zero_spec z Hz).
  destruct (Signbit z); rewrite FloatAxioms.compare_spec, ?opp_spec;
    change (Prim2SF 0) with (S754_zero false);
    destruct (Prim2SF n) as [[|]|[|]| |[|] m e]; reflexivity.
Qed.

Lemma infinite_minus_zero z :
  (z =? 0) = true -> infinity - z = infinity /\ neg_infinity - z = neg_infinity.
Proof.
  intros Hz. split; apply Prim2SF_inj; rewrite sub_spec, (zero_spec z Hz);
    destruct (Signbit z); reflexivity.
Qed.

(** The difference of two products by zero of finite numbers is a zero. *)
Lemma zero_products a b :
  is_fin (Prim2SF a) = true -> is_fin (Prim2SF b) = true ->
  (a * 0 - b * 0 =? 0) = true.
Proof.
  intros Ha Hb. rewrite FloatAxioms.eqb_spec, sub_spec, !mul_spec.
  change (Prim2SF 0) with (S754_zero false).
  destruct (Prim2SF a) as [[|]|[|]| |[|] ma ea]; try discriminate;
    destruct (Prim2SF b) as [[|]|[|]| |[|] mb eb]; try discriminate; reflexivity.
Qed.

Section ZeroDenominator.

Variables Log Exp Erf : float -> float.
Variable Pow : float -> float -> float.
Hypothesis documented : MathSpecialCases Log Exp Erf Pow.

Lemma Phi_infinity : Phi Erf infinity = 1.
Proof.
  unfold Phi. change (infinity / Sqrt2) with infinity.
  rewrite (Erf_inf _ _ _ _ documented). reflexivity.
Qed.

Lemma Phi_neg_infinity : Phi Erf neg_infinity = 0.
Proof.
  unfold Phi. change (neg_infinity / Sqrt2) with neg_infinity.
  rewrite (Erf_neg_inf _ _ _ _ documented). reflexivity.
Qed.

(** When the denominator [volatility * Sqrt(timeToExpiration)] of [d1] is a
    zero, [d1] and [d2] are infinite or NaN and the prices are the
    intrinsic ones. *)
Lemma price_zero_denominator option volatility :
  (volatility * Sqrt (DaysToExpiration option / 365.0) =? 0) = true ->
  is_finite (UnderlyingPrice option) = true ->
  is_finite (discountedStrike Exp option) = true ->
  intrinsicPrices (UnderlyingPrice option) (discountedStrike Exp option)
    (overZero (d1_numerator Log Pow option volatility)
       (volatility * Sqrt (DaysToExpiration option / 365.0)))
    (BlackScholesOptionPrice Log Exp Erf Pow (withOptionType Call option) volatility)
    (BlackScholesOptionPrice Log Exp Erf Pow (withOptionType Put option) volatility).
Proof.
  intros Hden HS HF. apply is_finite_spec in HS. apply is_finite_spec in HF.
  unfold intrinsicPrices, BlackScholesOptionPrice, withOptionType.
  cbn [UnderlyingPrice Strike RiskFreeRate DaysToExpiration OptionType' OptionType_eqb].
  cbv zeta.
  fold (d1_numerator Log Pow option volatility). fold (discountedStrike Exp option).
  set (den := volatility * Sqrt (DaysToExpiration option / 365.0)) in *.
  destruct (infinite_minus_zero den Hden) as [Hp Hn].
  rewrite (div_zero _ den Hden).
  destruct (overZero (d1_numerator Log Pow option volatility) den ?= 0).
  - rewrite sub_nan_l. change (- nan) with nan.
    rewrite (Phi_nan Erf (Erf_nan _ _ _ _ documented)).
    rewrite !mul_nan_r, sub_nan_l. split; reflexivity.
  - rewrite Hn. change (- neg_infinity) with infinity.
    rewrite Phi_infinity, Phi_neg_infinity, !mul_one_r.
    split; [apply zero_products; assumption | reflexivity].
  - rewrite Hp. change (- infinity) with neg_infinity.
    rewrite Phi_infinity, Phi_neg_infinity, !mul_one_r.
    split; [reflexivity | apply zero_products; assumption].
  - rewrite sub_nan_l. change (- nan) with nan.
    rewrite (Phi_nan Erf (Erf_nan _ _ _ _ documented)).
    rewrite !mul_nan_r, sub_nan_l. split; reflexivity.
Qed.

(** X7: pricing at a volatility of zero does not fail, and is NaN only
    when the numerator of [d1] is zero or NaN.  For a volatility that is a
    zero of either sign, a positive finite number of days, a finite
    underlying price [S] and a finite discounted strike [F], the division
    by zero in [d1] gives the intrinsic prices.  With [n] the numerator of
    [d1] when the volatility is [+0], and its opposite when the volatility
    is [-0]: the call is [S - F] and the put is zero when [n > 0], the call
    is zero and the put is [F - S] when [n < 0], and both are NaN when [n]
    is zero or NaN. *)
Theorem BlackScholesOptionPrice_zero_volatility
    (option : Option) (volatility : float) :
  (volatility =? 0) = true ->
  (0 <? DaysToExpiration option) = true ->
  (DaysToExpiration option <? infinity) = true ->
  is_finite (UnderlyingPrice option) = true ->
  is_finite (discountedStrike Exp option) = true ->
  intrinsicPrices (UnderlyingPrice option) (discountedStrike Exp option)
    (overZero (d1_numerator Log Pow option volatility) volatility)
    (BlackScholesOptionPrice Log Exp Erf Pow (withOptionType Call option) volatility)
    (BlackScholesOptionPrice Log Exp Erf Pow (withOptionType Put option) volatility).
Proof.
  intros Hv H0 Hi HS HF.
  destruct (years_finite _ H0 Hi) as [Hf Hs].
  destruct (sqrt_finite _ Hf Hs) as [Hf' Hs'].
  destruct (zero_mul_l volatility _ Hv Hf' Hs') as [Hden Hsign].
  pose proof (price_zero_denominator option volatility Hden HS HF) as H.
  unfold overZero in *. unfold Sqrt in H. rewrite Hsign in H. exact H.
Qed.

(** X8: pricing at expiration does not fail either.  With days to
    expiration that are a zero of either sign and a positive finite
    volatility, the prices are again the intrinsic ones, decided by the
    sign of the numerator of [d1], reversed when the days are [-0]. *)
Theorem BlackScholesOptionPrice_zero_days (option : Option) (volatility : float) :
  (DaysToExpiration option =? 0) = true ->
  (0 <? volatility) = true ->
  (volatility <? infinity) = true ->
  is_finite (UnderlyingPrice option) = true ->
  is_finite (discountedStrike Exp option) = true ->
  intrinsicPrices (UnderlyingPrice option) (discountedStrike Exp option)
    (overZero (d1_numerator Log Pow option volatility) (DaysToExpiration option))
    (BlackScholesOptionPrice Log Exp Erf Pow (withOptionType Call option) volatility)
    (BlackScholesOptionPrice Log Exp Erf Pow (withOptionType Put option) volatility).
Proof.
  intros Hd H0 Hi HS HF.
  destruct (years_zero _ Hd) as [Hz Hsz].
  destruct (positive_finite_is_fin _ H0 Hi) as [Hf Hs].
  destruct (mul_zero_r volatility _ Hf Hs Hz) as [Hden Hsign].
  pose proof (price_zero_denominator option volatility Hden HS HF) as H.
  unfold overZero in *. unfold Sqrt in H. rewrite Hsign, Hsz in H. exact H.
Qed.

End ZeroDenominator.

Lemma BlackScholesOptionPrice_zero_volatility_witness :
  (BlackScholesOptionPrice Sample.Log Sample.Exp Sample.Erf Sample.Pow
     (scenario 0 Call) (-0) =? 0) = true
  /\ BlackScholesOptionPrice Sample.Log Sample.Exp Sample.Erf Sample.Pow
       (scenario 0 Put) (-0)
     = 100.0 * Sample.Exp ((- 0.05) * (30.0 / 365.0)) - 100.0.
Proof.
  exact (BlackScholesOptionPrice_zero_volatility
           Sample.Log Sample.Exp Sample.Erf Sample.Pow Sample_special_cases
           (scenario 0 Call) (-0) eq_refl eq_refl eq_refl eq_refl eq_refl).
Defined.

Lemma BlackScholesOptionPrice_zero_days_witness :
  BlackScholesOptionPrice Sample.Log Sample.Exp Sample.Erf Sample.Pow
    (expiring Call) 0.2 = 100.0 - 50.0 * Sample.Exp ((- 0.05) * (0 / 365.0))
  /\ (BlackScholesOptionPrice Sample.Log Sample.Exp Sample.Erf Sample.Pow
        (expiring Put) 0.2 =? 0) = true.
Proof.
  exact (BlackScholesOptionPrice_zero_days
           Sample.Log Sample.Exp Sample.Erf Sample.Pow Sample_special_cases
           (expiring Call) 0.2 eq_refl eq_refl eq_refl eq_refl eq_refl).
Defined.

(** At a volatility of [+0] the same contract has the call in the money:
    the sign of the zero decides which of the two prices is the intrinsic
    value. *)
Example zero_volatility_sign :
  BlackScholesOptionPrice Sample.Log Sample.Exp Sample.Erf Sample.Pow
    (scenario 0 Call) 0
  = 100.0 - 100.0 * Sample.Exp ((- 0.05) * (30.0 / 365.0))
  /\ (BlackScholesOptionPrice Sample.Log Sample.Exp Sample.Erf Sample.Pow
        (scenario 0 Call) (-0) =? 0) = true.
Proof. split; vm_compute; reflexivity. Qed.

Example zero_days_sign :
  BlackScholesOptionPrice Sample.Log Sample.Exp Sample.Erf Sample.Pow
    (mkOption 0 50.0 0 0.05 100.0 Call) 0.2 = 50
  /\ (BlackScholesOptionPrice Sample.Log Sample.Exp Sample.Erf Sample.Pow
        (mkOption 0 50.0 (-0) 0.05 100.0 Call) 0.2 =? 0) = true.
Proof. split; vm_compute; reflexivity. Qed.

(** ** A vanishing vega in the solver *)

Lemma add_not_finite_r x c :
  is_fin (Prim2SF c) = false -> is_fin (Prim2SF (x + c)) = false.
Proof.
  rewrite add_spec.
  destruct (Prim2SF c) as [sc|[|]| |sc mc ec]; try discriminate; intros _;
    destruct (Prim2SF x) as [sx|[|]| |sx mx ex]; reflexivity.
Qed.

Lemma mul_not_finite_l c t :
  is_fin (Prim2SF c) = false -> is_fin (Prim2SF (c * t)) = false.
Proof.
  rewrite mul_spec.
  destruct (Prim2SF c) as [sc|[|]| |sc mc ec]; try discriminate; intros _;
    destruct (Prim2SF t) as [st|[|]| |[|] mt et]; reflexivity.
Qed.

Lemma sub_not_finite_r x c :
  is_fin (Prim2SF c) = false -> is_fin (Prim2SF (x - c)) = false.
Proof.
  rewrite sub_spec.
  destruct (Prim2SF c) as [sc|[|]| |sc mc ec]; try discriminate; intros _;
    destruct (Prim2SF x) as [sx|[|]| |sx mx ex]; reflexivity.
Qed.

Lemma div_not_finite x y :
  is_fin (Prim2SF x) = false -> is_fin (Prim2SF y) = false -> x / y = nan.
Proof.
  intros Hx Hy. apply Prim2SF_inj. rewrite div_spec.
  destruct (Prim2SF x) as [sx|[|]| |sx mx ex]; try discriminate;
    destruct (Prim2SF y) as [sy|[|]| |sy my ey]; try discriminate; reflexivity.
Qed.

(** A division by a zero of either sign is infinite or NaN. *)
Lemma div_by_zero_not_finite x z :
  (z =? 0) = true -> is_fin (Prim2SF (x / z)) = false.
Proof.
  rewrite FloatAxioms.eqb_spec, div_spec. change (Prim2SF 0) with (S754_zero false).
  destruct (Prim2SF z) as [sz|[|]| |[|] mz ez]; try discriminate; intros _;
    destruct (Prim2SF x) as [sx|[|]| |sx mx ex]; reflexivity.
Qed.

Lemma not_finite_cases x :
  is_fin (Prim2SF x) = false -> x = infinity \/ x = neg_infinity \/ x = nan.
Proof.
  intros H.
  destruct (Prim2SF x) as [sx|[|]| |sx mx ex] eqn:E; try discriminate.
  - right. left. apply Prim2SF_inj. rewrite E. reflexivity.
  - left. apply Prim2SF_inj. rewrite E. reflexivity.
  - right. right. apply Prim2SF_inj. rewrite E. reflexivity.
Qed.

Section VanishingVega.

Variables Log Exp Erf : float -> float.
Variable Pow : float -> float -> float.
Hypothesis documented : MathSpecialCases Log Exp Erf Pow.
Hypothesis Pow_infinity : PowInfinity Pow.
Variable option : Option.

Local Abbreviation price := (BlackScholesOptionPrice Log Exp Erf Pow option).
Local Abbreviation iterates := (iterate Log Exp Erf Pow option).
Local Abbreviation stops := (converged Log Exp Erf Pow option).

(** At an infinite volatility the numerator and the denominator of [d1]
    are both infinite or NaN, and the price is NaN. *)
Lemma d1_infinite_volatility volatility :
  volatility = infinity \/ volatility = neg_infinity ->
  d1_OptionPrice Log Pow option volatility = nan.
Proof.
  intros Hv. unfold d1_OptionPrice. cbv zeta.
  assert (HP : Pow volatility 2 = infinity)
    by (destruct Pow_infinity; destruct Hv; subst volatility; assumption).
  rewrite HP. change (0.5 * infinity) with infinity.
  apply div_not_finite.
  - apply add_not_finite_r, mul_not_finite_l, add_not_finite_r. reflexivity.
  - apply mul_not_finite_l. destruct Hv; subst volatility; reflexivity.
Qed.

Lemma price_infinite_volatility volatility :
  volatility = infinity \/ volatility = neg_infinity ->
  price volatility = nan.
Proof.
  intros Hv. rewrite BlackScholesOptionPrice_d1. cbv zeta.
  rewrite (d1_infinite_volatility volatility Hv), sub_nan_l.
  change (- nan) with nan. rewrite (Phi_nan Erf (Erf_nan _ _ _ _ documented)).
  destruct (OptionType_eqb (OptionType' option) Call).
  - rewrite mul_nan_r, sub_nan_l. reflexivity.
  - rewrite !mul_nan_r, sub_nan_r. reflexivity.
Qed.

Lemma stops_of_nan_price volatility :
  price volatility = nan -> stops volatility = false.
Proof.
  intros H. unfold converged. rewrite H, sub_nan_l. reflexivity.
Qed.

Lemma newtonStep_of_nan_price volatility :
  price volatility = nan -> newtonStep Log Exp Erf Pow option volatility = nan.
Proof.
  intros H. unfold newtonStep. rewrite H, sub_nan_l, div_nan_l, sub_nan_r. reflexivity.
Qed.

(** X9: a vanishing vega makes the solver return NaN.  If the vega at the
    iterate after [k <= 98] updates is zero, and neither that iterate nor
    an earlier one passes the stopping test, the next iterate is infinite
    or NaN, the one after is NaN, and the result is NaN: the division by
    vega is not guarded and the loop does not stop on a non-finite
    iterate. *)
Theorem BlackScholesImpliedVolatility_zero_vega (k : nat) :
  (k <= 98)%nat ->
  (BlackScholesVega Log Exp Pow option (iterates k) =? 0) = true ->
  (forall i, (i <= k)%nat -> stops (iterates i) = false) ->
  BlackScholesImpliedVolatility Log Exp Erf Pow option = nan.
Proof.
  intros Hk Hvega Hbefore.
  assert (Hnext : is_fin (Prim2SF (iterates (S k))) = false).
  { cbn [iterate]. unfold newtonStep.
    apply sub_not_finite_r, div_by_zero_not_finite, Hvega. }
  assert (Hnan : iterates (S (S k)) = nan).
  { destruct (not_finite_cases _ Hnext) as [H|[H|H]].
    - cbn [iterate] in *. apply newtonStep_of_nan_price, price_infinite_volatility.
      left. exact H.
    - cbn [iterate] in *. apply newtonStep_of_nan_price, price_infinite_volatility.
      right. exact H.
    - cbn [iterate] in *. rewrite H. apply newtonStep_nan. }
  apply (solver_nan_iterate Log Exp Erf Pow option (S (S k)));
    [lia | exact Hnan |].
  intros i Hi. destruct (Nat.eq_dec i (S k)) as [->|Hne].
  - destruct (not_finite_cases _ Hnext) as [H|[H|H]].
    + apply stops_of_nan_price, price_infinite_volatility. left. exact H.
    + apply stops_of_nan_price, price_infinite_volatility. right. exact H.
    + rewrite H. apply stops_of_nan_price.
      apply (OptionPrice_of_nan_d1 Log Exp Erf Pow documented).
      apply (nanInput_d1_OptionPrice Log Exp Erf Pow documented).
      right. right. right. right. reflexivity.
  - apply Hbefore. lia.
Qed.

End VanishingVega.

Lemma Sample_PowInfinity : PowInfinity Sample.Pow.
Proof. split; reflexivity. Qed.

Lemma BlackScholesImpliedVolatility_zero_vega_witness :
  BlackScholesImpliedVolatility Sample.Log Sample.Exp Sample.Erf Sample.Pow
    farOutOfTheMoney = nan.
Proof.
  apply (BlackScholesImpliedVolatility_zero_vega
           Sample.Log Sample.Exp Sample.Erf Sample.Pow
           Sample_special_cases Sample_PowInfinity farOutOfTheMoney 0).
  - lia.
  - vm_compute. reflexivity.
  - intros i Hi. destruct i as [|i]; [vm_compute; reflexivity | lia].
Defined.

(** ** Delta and the Greeks at the edges of the volatility range *)

Section EdgeVolatility.

Variables Log Exp Erf : float -> float.
Variable Pow : float -> float -> float.
Hypothesis documented : MathSpecialCases Log Exp Erf Pow.

Lemma zeroDenominator_spec option volatility :
  zeroDenominator option volatility ->
  (volatility * Sqrt (DaysToExpiration option / 365.0) =? 0) = true
  /\ Signbit (volatility * Sqrt (DaysToExpiration option / 365.0))
     = zeroDenominatorSign option volatility.
Proof.
  unfold zeroDenominatorSign. intros [(Hv & H0 & Hi)|(Hd & H0 & Hi)].
  - destruct (years_finite _ H0 Hi) as [Hf Hs].
    destruct (sqrt_finite _ Hf Hs) as [Hf' Hs'].
    destruct (zero_mul_l volatility _ Hv Hf' Hs') as [Hden Hsign].
    unfold Sqrt. split; [exact Hden|].
    rewrite Hsign, (positive_Signbit _ H0), xorb_false_r. reflexivity.
  - destruct (years_zero _ Hd) as [Hz Hsz].
    destruct (positive_finite_is_fin _ H0 Hi) as [Hf Hs].
    destruct (mul_zero_r volatility _ Hf Hs Hz) as [Hden Hsign].
    unfold Sqrt. split; [exact Hden|].
    rewrite Hsign, Hsz, (positive_Signbit _ H0), xorb_false_l. reflexivity.
Qed.

(** X10: [BlackScholesDelta] at a volatility of zero, or at expiration,
    does not fail.  When the volatility or the days to expiration are a
    zero of either sign, the other one being positive and finite, the
    division by zero in [d1] gives a call delta of [1] and a put delta of
    [0] when [n > 0], [0] and [-1] when [n < 0], and NaN for both when [n]
    is zero or NaN, where [n] is the numerator of [d1] when the zero is
    [+0] and its opposite when the zero is [-0]. *)
Theorem BlackScholesDelta_zero_denominator (option : Option) (volatility : float) :
  zeroDenominator option volatility ->
  intrinsicDeltas
    (if zeroDenominatorSign option volatility
     then - d1_numerator_Delta Log option volatility
     else d1_numerator_Delta Log option volatility)
    (BlackScholesDelta Log Erf (withOptionType Call option) volatility)
    (BlackScholesDelta Log Erf (withOptionType Put option) volatility).
Proof.
  intros Hz. destruct (zeroDenominator_spec _ _ Hz) as [Hden Hsign].
  rewrite <- Hsign.
  unfold intrinsicDeltas, BlackScholesDelta, withOptionType.
  cbn [UnderlyingPrice Strike RiskFreeRate DaysToExpiration OptionType' OptionType_eqb].
  cbv zeta.
  fold (d1_numerator_Delta Log option volatility).
  rewrite (div_zero _ _ Hden). unfold overZero.
  destruct ((if Signbit (volatility * Sqrt (DaysToExpiration option / 365.0))
             then - d1_numerator_Delta Log option volatility
             else d1_numerator_Delta Log option volatility) ?= 0).
  - rewrite (Phi_nan Erf (Erf_nan _ _ _ _ documented)). split; reflexivity.
  - rewrite (Phi_neg_infinity Log Exp Erf Pow documented). split; reflexivity.
  - rewrite (Phi_infinity Log Exp Erf Pow documented). split; reflexivity.
  - rewrite (Phi_nan Erf (Erf_nan _ _ _ _ documented)). split; reflexivity.
Qed.

Hypothesis Pow_infinity : PowInfinity Pow.

Lemma d1_Delta_infinite_volatility option volatility :
  volatility = infinity \/ volatility = neg_infinity ->
  d1_Delta Log option volatility = nan.
Proof.
  intros Hv. unfold d1_Delta. cbv zeta.
  assert (HP : volatility * volatility / 2 = infinity)
    by (destruct Hv; subst volatility; reflexivity).
  rewrite HP.
  apply div_not_finite.
  - apply add_not_finite_r, mul_not_finite_l, add_not_finite_r. reflexivity.
  - apply mul_not_finite_l. destruct Hv; subst volatility; reflexivity.
Qed.

(** X11: at an infinite volatility the numerator and the denominator of
    [d1] are both infinite or NaN, so [d1] is NaN and the price, the vega,
    the gamma and the delta are all NaN, for every contract. *)
Theorem infinite_volatility_gives_nan (option : Option) (volatility : float) :
  volatility = infinity \/ volatility = neg_infinity ->
  BlackScholesOptionPrice Log Exp Erf Pow option volatility = nan
  /\ BlackScholesVega Log Exp Pow option volatility = nan
  /\ BlackScholesGamma Log Exp Pow option volatility = nan
  /\ BlackScholesDelta Log Erf option volatility = nan.
Proof.
  intros Hv.
  pose proof (d1_infinite_volatility Log Pow Pow_infinity option volatility Hv) as Hd.
  split; [|split; [|split]].
  - apply (OptionPrice_of_nan_d1 Log Exp Erf Pow documented). exact Hd.
  - apply (Vega_of_nan_d1 Log Exp Erf Pow documented). exact Hd.
  - apply (Gamma_of_nan_d1 Log Exp Erf Pow documented). exact Hd.
  - apply (Delta_of_nan_d1 Log Exp Erf Pow documented).
    apply d1_Delta_infinite_volatility. exact Hv.
Qed.

End EdgeVolatility.

Lemma BlackScholesDelta_zero_denominator_witness :
  BlackScholesDelta Sample.Log Sample.Erf (scenario 0 Call) (-0) = 0
  /\ BlackScholesDelta Sample.Log Sample.Erf (scenario 0 Put) (-0) = -1.
Proof.
  apply (BlackScholesDelta_zero_denominator
           Sample.Log Sample.Exp Sample.Erf Sample.Pow Sample_special_cases
           (scenario 0 Call) (-0)).
  left. repeat split.
Defined.

(** At a volatility of [+0] the deltas of the same contract are [1] and
    [0]. *)
Example zero_volatility_delta_sign :
  BlackScholesDelta Sample.Log Sample.Erf (scenario 0 Call) 0 = 1
  /\ BlackScholesDelta Sample.Log Sample.Erf (scenario 0 Put) 0 = 0.
Proof. split; vm_compute; reflexivity. Qed.

Lemma infinite_volatility_gives_nan_witness :
  BlackScholesOptionPrice Sample.Log Sample.Exp Sample.Erf Sample.Pow
    (scenario 10.0 Call) infinity = nan
  /\ BlackScholesVega Sample.Log Sample.Exp Sample.Pow (scenario 10.0 Call) infinity = nan
  /\ BlackScholesGamma Sample.Log Sample.Exp Sample.Pow (scenario 10.0 Call) infinity = nan
  /\ BlackScholesDelta Sample.Log Sample.Erf (scenario 10.0 Call) infinity = nan.
Proof.
  apply (infinite_volatility_gives_nan
           Sample.Log Sample.Exp Sample.Erf Sample.Pow Sample_special_cases
           Sample_PowInfinity).
  left. reflexivity.
Defined.

(** ** Rounding errors *)

Section RoundingErrors.

Local Open Scope Z_scope.

Lemma finish_value s m1 e1 :
  0 <= m1 <= 2 ^ 53 -> -1074 <= e1 <= 971 -> (m1 = 2 ^ 53 -> e1 + 1 <= 971) ->
  is_fin (finish s m1 e1) = true
  /\ fval (finish s m1 e1) = cond_Zopp s (m1 * 2 ^ (e1 + 1074)).
Proof.
  intros Hm He Ho. unfold finish.
  destruct (Z.eqb_spec m1 0) as [E0|E0].
  - subst m1. split; [reflexivity|]. destruct s; reflexivity.
  - destruct (Z.eqb_spec m1 (2 ^ 53)) as [E1|E1].
    + replace (e1 + 1 <=? 971) with true by (symmetry; apply Z.leb_le; lia).
      split; [reflexivity|]. cbn [fval]. subst m1.
      change (Zpos (Z.to_pos (2 ^ 52))) with (2 ^ 52).
      replace (e1 + 1 + 1074) with (1 + (e1 + 1074)) by lia.
      rewrite Z.pow_add_r by lia. change (2 ^ 53) with (2 ^ 52 * 2 ^ 1).
      destruct s; cbn [cond_Zopp]; ring.
    + replace (e1 <=? 971) with true by (symmetry; apply Z.leb_le; lia).
      split; [reflexivity|]. cbn [fval]. rewrite Z2Pos.id by lia.
      destruct s; cbn [cond_Zopp]; ring.
Qed.

Lemma cond_Zopp_sub s a b : cond_Zopp s a - cond_Zopp s b = cond_Zopp s (a - b).
Proof. destruct s; cbn [cond_Zopp]; ring. Qed.

Lemma abs_cond_Zopp s a : Z.abs (cond_Zopp s a) = Z.abs a.
Proof. destruct s; cbn [cond_Zopp]; [apply Z.abs_opp | reflexivity]. Qed.

(** The relative error of a rounded value is at most [2^-53]. *)
Lemma binary_round_error s p e K :
  -1074 <= e -> 0 <= K <= 2097 ->
  Zpos p * 2 ^ (e + 1074) <= 2 ^ K ->
  let r := binary_round prec emax s p e in
  let V := Zpos p * 2 ^ (e + 1074) in
  is_fin r = true
  /\ 2 ^ 53 * Z.abs (fval r - cond_Zopp s V) <= V.
Proof.
  intros He HK Hv r V. unfold r, V. rewrite binary_round_spec. rewrite fexp64.
  pose proof (digits2_pos_bounds p) as [Hlo Hhi].
  set (d := Zpos (digits2_pos p)) in *.
  assert (Hd : 0 < d) by (unfold d; lia).
  assert (Hpe : 0 < 2 ^ (e + 1074)) by (apply Z.pow_pos_nonneg; lia).
  assert (HdK : d - 1 + (e + 1074) <= K).
  { apply pow2_le_inv; [lia|]. rewrite Z.pow_add_r by lia.
    transitivity (Zpos p * 2 ^ (e + 1074)); [|exact Hv].
    apply Z.mul_le_mono_nonneg_r; lia. }
  set (f := Z.max (d + e - 53) (-1074)).
  destruct (Z.leb_spec f e) as [Hfe|Hfe].
  - replace (f <=? 971) with true by (symmetry; apply Z.leb_le; lia).
    assert (Hm : Zpos (Z.to_pos (Zpos p * 2 ^ (e - f))) = Zpos p * 2 ^ (e - f)).
    { apply Z2Pos.id. assert (0 < 2 ^ (e - f)) by (apply Z.pow_pos_nonneg; lia). lia. }
    assert (Hval : Zpos (Z.to_pos (Zpos p * 2 ^ (e - f))) * 2 ^ (f + 1074)
                   = Zpos p * 2 ^ (e + 1074)).
    { rewrite Hm, <- Z.mul_assoc, <- Z.pow_add_r by lia. do 2 f_equal. lia. }
    cbn [is_fin fval]. split; [reflexivity|].
    replace (cond_Zopp s (Zpos (Z.to_pos (Zpos p * 2 ^ (e - f)))) * 2 ^ (f + 1074))
      with (cond_Zopp s (Zpos p * 2 ^ (e + 1074)))
      by (rewrite <- Hval; destruct s; cbn [cond_Zopp]; ring).
    rewrite Z.sub_diag. cbn [Z.abs]. lia.
  - assert (Hn : f - e = d - 53) by lia.
    assert (Hf : f = d + e - 53) by lia.
    rewrite Hn.
    assert (Hlo' : 2 ^ 52 <= rne (Zpos p) (d - 53)).
    { replace 52 with ((d - 1) - (d - 53)) by lia. apply rne_ge_pow; lia. }
    set (j := K - (e + 1074)).
    assert (Hj : Zpos p <= 2 ^ j).
    { apply Z.mul_le_mono_pos_r with (2 ^ (e + 1074)); [lia|].
      rewrite <- Z.pow_add_r by lia. replace (j + (e + 1074)) with K by lia. exact Hv. }
    assert (Hhi' : rne (Zpos p) (d - 53) <= 2 ^ (j - (d - 53))).
    { apply rne_le_pow; lia. }
    assert (Hhi53 : rne (Zpos p) (d - 53) <= 2 ^ 53).
    { replace 53 with (d - (d - 53)) at 2 by lia. apply rne_le_pow; lia. }
    pose proof (rne_error (Zpos p) (d - 53) ltac:(lia) ltac:(lia)) as Herr.
    set (m1 := rne (Zpos p) (d - 53)) in *.
    assert (Hpf : 0 < 2 ^ (f + 1074)) by (apply Z.pow_pos_nonneg; lia).
    assert (Hv1 : m1 * 2 ^ (f + 1074) <= 2 ^ K).
    { transitivity (2 ^ (j - (d - 53)) * 2 ^ (f + 1074)).
      - apply Z.mul_le_mono_nonneg_r; lia.
      - rewrite <- Z.pow_add_r by lia. apply pow2_le. lia. }
    assert (Hm1 : 2 ^ 52 * 2 ^ (f + 1074) <= 2 ^ K).
    { transitivity (m1 * 2 ^ (f + 1074)); [|exact Hv1].
      apply Z.mul_le_mono_nonneg_r; lia. }
    rewrite <- Z.pow_add_r in Hm1 by lia.
    apply pow2_le_inv in Hm1; [|lia].
    assert (Hov : m1 = 2 ^ 53 -> f + 1 <= 971).
    { intros E. rewrite E in Hv1. rewrite <- Z.pow_add_r in Hv1 by lia.
      apply pow2_le_inv in Hv1; lia. }
    destruct (finish_value s m1 f) as [Hfin Hfv]; try lia.
    split; [exact Hfin|]. rewrite Hfv, cond_Zopp_sub, abs_cond_Zopp.
    assert (Hpn : 0 < 2 ^ (d - 53)) by (apply Z.pow_pos_nonneg; lia).
    replace (f + 1074) with ((d - 53) + (e + 1074)) by lia.
    rewrite Z.pow_add_r, Z.mul_assoc, <- Z.mul_sub_distr_r by lia.
    rewrite Z.abs_mul, (Z.abs_eq (2 ^ (e + 1074))) by lia.
    rewrite Z.mul_assoc. apply Z.mul_le_mono_nonneg_r; [lia|].
    assert (Hp52 : 2 ^ (d - 1) = 2 ^ 52 * 2 ^ (d - 53)).
    { rewrite <- Z.pow_add_r by lia. f_equal. lia. }
    change (2 ^ 53) with (2 ^ 52 * 2).
    set (P := 2 ^ (d - 53)) in *. set (A := Z.abs (m1 * P - Zpos p)) in *.
    rewrite Hp52 in Hlo.
    transitivity (2 ^ 52 * P); [|exact Hlo].
    rewrite <- Z.mul_assoc. apply Z.mul_le_mono_nonneg_l; lia.
Qed.

Lemma binary_normalize_error M e K :
  -1074 <= e -> 0 <= K <= 2097 ->
  Z.abs M * 2 ^ (e + 1074) <= 2 ^ K ->
  let r := binary_normalize prec emax M e false in
  is_fin r = true
  /\ 2 ^ 53 * Z.abs (fval r - M * 2 ^ (e + 1074)) <= Z.abs M * 2 ^ (e + 1074).
Proof.
  intros He HK Hv r. unfold r, binary_normalize.
  destruct M as [|p|p].
  - cbn. lia.
  - exact (binary_round_error false p e K He HK Hv).
  - destruct (binary_round_error true p e K He HK Hv) as [Hf Herr].
    split; [exact Hf|]. cbn [cond_Zopp] in Herr.
    replace (fval (binary_round prec emax true p e) - Zneg p * 2 ^ (e + 1074))
      with (fval (binary_round prec emax true p e) - - (Zpos p * 2 ^ (e + 1074)))
      by (rewrite <- Z.mul_opp_l; reflexivity).
    exact Herr.
Qed.

(** The sum of two finite numbers: relative error at most [2^-53]. *)
Lemma SF64add_error x y K :
  valid_binary x = true -> valid_binary y = true ->
  is_fin x = true -> is_fin y = true ->
  0 <= K <= 2097 -> Z.abs (fval x + fval y) <= 2 ^ K ->
  let r := SF64add x y in
  is_fin r = true /\ Z.abs (fval r) <= 2 ^ K
  /\ 2 ^ 53 * Z.abs (fval r - (fval x + fval y)) <= Z.abs (fval x + fval y).
Proof.
  intros Vx Vy Fx Fy HK Hb r.
  destruct (SF64add_bounded x y K Vx Vy Fx Fy HK Hb) as (Hf & Habs & _).
  split; [exact Hf|]. split; [exact Habs|]. unfold r, SF64add.
  destruct x as [sx|?| |sx mx ex]; try discriminate;
  destruct y as [sy|?| |sy my ey]; try discriminate.
  - destruct sx, sy; cbn; lia.
  - cbn [SFadd]. change (fval (S754_zero sx)) with 0. rewrite Z.add_0_l, Z.sub_diag.
    cbn [Z.abs]. lia.
  - cbn [SFadd]. change (fval (S754_zero sy)) with 0. rewrite Z.add_0_r, Z.sub_diag.
    cbn [Z.abs]. lia.
  - cbn [SFadd].
    pose proof (valid_finite _ _ _ Vx) as (Hex & _).
    pose proof (valid_finite _ _ _ Vy) as (Hey & _).
    set (ez := Z.min ex ey).
    set (M := cond_Zopp sx (Zpos (fst (shl_align mx ex ez)))
              + cond_Zopp sy (Zpos (fst (shl_align my ey ez)))).
    assert (HM : M * 2 ^ (ez + 1074) = fval (S754_finite sx mx ex) + fval (S754_finite sy my ey)).
    { unfold M. rewrite Z.mul_add_distr_r, !aligned_value by (unfold ez; lia). reflexivity. }
    assert (Hp : 0 < 2 ^ (ez + 1074)) by (apply Z.pow_pos_nonneg; unfold ez; lia).
    rewrite <- HM in *.
    assert (HabsM : Z.abs (M * 2 ^ (ez + 1074)) = Z.abs M * 2 ^ (ez + 1074)).
    { rewrite Z.abs_mul, (Z.abs_eq (2 ^ (ez + 1074))) by lia. reflexivity. }
    rewrite HabsM in *.
    apply (binary_normalize_error M ez K); [unfold ez; lia | exact HK | exact Hb].
Qed.

Lemma SF64sub_error x y K :
  valid_binary x = true -> valid_binary y = true ->
  is_fin x = true -> is_fin y = true ->
  0 <= K <= 2097 -> Z.abs (fval x - fval y) <= 2 ^ K ->
  let r := SF64sub x y in
  is_fin r = true /\ Z.abs (fval r) <= 2 ^ K
  /\ 2 ^ 53 * Z.abs (fval r - (fval x - fval y)) <= Z.abs (fval x - fval y).
Proof.
  intros Vx Vy Fx Fy HK Hb r. unfold r. rewrite SFsub_SFadd.
  pose proof (SF64add_error x (SFopp y) K Vx (valid_SFopp y Vy) Fx) as H.
  rewrite is_fin_SFopp, fval_SFopp in H.
  replace (fval x + - fval y) with (fval x - fval y) in H by lia.
  apply H; assumption.
Qed.

Lemma fval_product sx mx ex sy my ey :
  -1074 <= ex -> -1074 <= ey ->
  fval (S754_finite sx mx ex) * fval (S754_finite sy my ey)
  = cond_Zopp (xorb sx sy) (Zpos (mx * my) * 2 ^ (ex + ey + 2148)).
Proof.
  intros Hx Hy. cbn [fval].
  replace (ex + ey + 2148) with ((ex + 1074) + (ey + 1074)) by lia.
  rewrite (Z.pow_add_r 2 (ex + 1074) (ey + 1074)), Pos2Z.inj_mul by lia.
  destruct sx, sy; cbn [cond_Zopp xorb]; ring.
Qed.

(** The product of two finite numbers: relative error at most [2^-53], or
    half of the smallest positive number when the product is subnormal. *)
Lemma SF64mul_error x y K :
  valid_binary x = true -> valid_binary y = true ->
  is_fin x = true -> is_fin y = true ->
  0 <= K <= 2097 -> Z.abs (fval x * fval y) <= 2 ^ K * 2 ^ 1074 ->
  let r := SF64mul x y in
  is_fin r = true /\ Z.abs (fval r) <= 2 ^ K
  /\ 2 ^ 53 * Z.abs (fval r * 2 ^ 1074 - fval x * fval y)
     <= Z.abs (fval x * fval y) + 2 ^ 1126.
Proof.
  intros Vx Vy Fx Fy HK Hb r. unfold r, SF64mul.
  assert (H0 : 0 < 2 ^ K) by (apply Z.pow_pos_nonneg; lia).
  destruct x as [sx|?| |sx mx ex]; try discriminate;
  destruct y as [sy|?| |sy my ey]; try discriminate;
  try (cbn [SFmul is_fin fval]; rewrite ?Z.mul_0_r, ?Z.mul_0_l;
       cbn [Z.abs Z.sub Z.opp Z.add]; repeat split; lia).
  cbn [SFmul].
  pose proof (valid_finite _ _ _ Vx) as (Hex & _).
  pose proof (valid_finite _ _ _ Vy) as (Hey & _).
  pose proof (valid_finite_mant _ _ _ Vx) as (Hmx & Hnx).
  pose proof (valid_finite_mant _ _ _ Vy) as (Hmy & Hny).
  rewrite fval_product in * by lia.
  rewrite abs_cond_Zopp in *.
  set (s := xorb sx sy). set (p := (mx * my)%positive) in *. set (e := ex + ey) in *.
  assert (Hpe : 0 < 2 ^ (e + 2148)) by (apply Z.pow_pos_nonneg; unfold e; lia).
  rewrite (Z.abs_eq (Zpos p * 2 ^ (e + 2148))) in * by lia.
  pose proof (digits2_pos_bounds p) as [Hlo Hhi].
  set (d := Zpos (digits2_pos p)) in *.
  assert (Hd : 0 < d) by (unfold d; lia).
  assert (HdK : d - 1 + (e + 2148) <= K + 1074).
  { apply pow2_le_inv; [lia|]. rewrite (Z.pow_add_r 2 (d - 1)), (Z.pow_add_r 2 K) by lia.
    transitivity (Zpos p * 2 ^ (e + 2148)); [|exact Hb].
    apply Z.mul_le_mono_nonneg_r; lia. }
  assert (Hnormal : 971 < e -> 105 <= d).
  { intros He. assert (2 ^ 52 <= Zpos mx) by (destruct Hnx; [unfold e in He; lia|assumption]).
    assert (2 ^ 52 <= Zpos my) by (destruct Hny; [unfold e in He; lia|assumption]).
    apply digits2_pos_ge; [|lia]. unfold p. rewrite Pos2Z.inj_mul.
    change (2 ^ (105 - 1)) with (2 ^ 52 * 2 ^ 52).
    apply Z.mul_le_mono_nonneg; lia. }
  set (f := Z.max (d + e - 53) (-1074)).
  destruct (Z_le_gt_dec f e) as [Hfe|Hfe].
  - rewrite bra_noshift by (rewrite fexp64; fold d f; exact Hfe).
    assert (He971 : e <= 971).
    { destruct (Z_le_gt_dec e 971) as [|Hgt]; [assumption|].
      specialize (Hnormal ltac:(lia)). lia. }
    replace (e <=? 971) with true by (symmetry; apply Z.leb_le; lia).
    cbn [is_fin fval]. split; [reflexivity|].
    assert (Hsplit : 2 ^ (e + 2148) = 2 ^ (e + 1074) * 2 ^ 1074).
    { rewrite <- Z.pow_add_r by lia. f_equal. lia. }
    assert (Hp1 : 0 < 2 ^ (e + 1074)) by (apply Z.pow_pos_nonneg; lia).
    split.
    + rewrite Z.abs_mul, abs_cond_Zopp, !Z.abs_eq by lia.
      apply Z.mul_le_mono_pos_r with (2 ^ 1074); [reflexivity|].
      rewrite <- Z.mul_assoc, <- Hsplit. exact Hb.
    + replace (cond_Zopp s (Zpos p) * 2 ^ (e + 1074) * 2 ^ 1074
               - cond_Zopp s (Zpos p * 2 ^ (e + 2148))) with 0
        by (rewrite Hsplit; destruct s; cbn [cond_Zopp]; ring).
      cbn [Z.abs]. lia.
  - set (n := f - e).
    assert (Hn : 0 < n) by (unfold n; lia).
    rewrite bra_shift; rewrite fexp64; fold d f n; [|exact Hn].
    replace (e + n) with f by (unfold n; lia).
    pose proof (rne_error (Zpos p) n ltac:(lia) Hn) as Herr.
    pose proof (rne_nonneg (Zpos p) n ltac:(lia) Hn) as Hm0.
    set (j := K + 1074 - (e + 2148)).
    assert (Hj0 : 0 <= j).
    { unfold j. assert (e + 2148 <= K + 1074); [|lia].
      apply pow2_le_inv; [lia|]. rewrite (Z.pow_add_r 2 K) by lia.
      transitivity (Zpos p * 2 ^ (e + 2148)); [|exact Hb]. nia. }
    assert (Hj : Zpos p <= 2 ^ j).
    { apply Z.mul_le_mono_pos_r with (2 ^ (e + 2148)); [lia|].
      rewrite <- Z.pow_add_r by lia. replace (j + (e + 2148)) with (K + 1074) by (unfold j; lia).
      rewrite (Z.pow_add_r 2 K 1074) by lia. exact Hb. }
    assert (Hpn : 0 < 2 ^ n) by (apply Z.pow_pos_nonneg; lia).
    (* magnitude of the rounded mantissa *)
    assert (Hm53 : rne (Zpos p) n <= 2 ^ 53).
    { destruct (Z_le_gt_dec n d) as [Hnd|Hnd].
      - transitivity (2 ^ (d - n)); [apply rne_le_pow; lia | apply pow2_le; unfold n, f; lia].
      - pose proof (rne_between (Zpos p) n ltac:(lia) Hn) as [_ Hr].
        rewrite Z.div_small in Hr; [change (2 ^ 53) with 9007199254740992; lia|].
        split; [lia|]. assert (2 ^ d <= 2 ^ n) by (apply pow2_le; lia). lia. }
    assert (HmK : rne (Zpos p) n * 2 ^ (f + 1074) <= 2 ^ K).
    { destruct (Z_le_gt_dec n j) as [Hnj|Hnj].
      - transitivity (2 ^ (j - n) * 2 ^ (f + 1074)).
        + apply Z.mul_le_mono_nonneg_r; [apply Z.pow_nonneg; lia|]. apply rne_le_pow; lia.
        + rewrite <- Z.pow_add_r by (unfold f; lia). apply pow2_le. unfold j, n; lia.
      - assert (Hf : f = -1074).
        { destruct (Z.eq_dec f (-1074)); [assumption|exfalso].
          assert (d - 1 <= j); [|unfold n, f in *; lia].
          apply pow2_le_inv; lia. }
        rewrite Hf. change (2 ^ (-1074 + 1074)) with 1. rewrite Z.mul_1_r.
        pose proof (rne_between (Zpos p) n ltac:(lia) Hn) as [_ Hr].
        rewrite Z.div_small in Hr; [lia|].
        split; [lia|]. assert (2 ^ j < 2 ^ n) by (apply pow2_lt; lia). lia. }
    assert (Hm52 : f <> -1074 -> 2 ^ 52 <= rne (Zpos p) n).
    { intros Hf. assert (n = d - 53) by (unfold n, f in *; lia).
      replace 52 with ((d - 1) - n) by lia. apply rne_ge_pow; lia. }
    set (m1 := rne (Zpos p) n) in *.
    assert (Hpf : 0 < 2 ^ (f + 1074)) by (apply Z.pow_pos_nonneg; unfold f; lia).
    assert (Hf971 : f <= 971 /\ (m1 = 2 ^ 53 -> f + 1 <= 971)).
    { destruct (Z.eq_dec f (-1074)) as [Hf|Hf]; [lia|].
      specialize (Hm52 Hf).
      assert (H1 : 2 ^ (52 + (f + 1074)) <= 2 ^ K).
      { rewrite Z.pow_add_r by lia. transitivity (m1 * 2 ^ (f + 1074)); [|exact HmK].
        apply Z.mul_le_mono_nonneg_r; lia. }
      apply pow2_le_inv in H1; [|lia]. split; [lia|].
      intros E. rewrite E in HmK. rewrite <- Z.pow_add_r in HmK by lia.
      apply pow2_le_inv in HmK; lia. }
    destruct (finish_value s m1 f) as [Hfin Hfv]; try (unfold f; lia); try tauto.
    split; [exact Hfin|]. rewrite Hfv, abs_cond_Zopp.
    assert (Hm1v : 0 <= m1 * 2 ^ (f + 1074)) by (apply Z.mul_nonneg_nonneg; lia).
    split; [rewrite Z.abs_eq by lia; exact HmK|].
    replace (cond_Zopp s (m1 * 2 ^ (f + 1074)) * 2 ^ 1074)
      with (cond_Zopp s (m1 * 2 ^ (f + 1074) * 2 ^ 1074))
      by (destruct s; cbn [cond_Zopp]; ring).
    rewrite cond_Zopp_sub, abs_cond_Zopp.
    replace (m1 * 2 ^ (f + 1074) * 2 ^ 1074 - Zpos p * 2 ^ (e + 2148))
      with ((m1 * 2 ^ n - Zpos p) * 2 ^ (e + 2148)).
    2:{ rewrite Z.mul_sub_distr_r. f_equal.
        rewrite <- !Z.mul_assoc, <- !Z.pow_add_r by (unfold f; lia).
        do 2 f_equal. unfold n. lia. }
    rewrite Z.abs_mul, (Z.abs_eq (2 ^ (e + 2148))) by lia.
    set (A := Z.abs (m1 * 2 ^ n - Zpos p)) in *.
    destruct (Z.eq_dec f (-1074)) as [Hf|Hf].
    + (* subnormal result: absolute error *)
      assert (Hsub : 2 ^ n * 2 ^ (e + 2148) = 2 ^ 1074).
      { rewrite <- Z.pow_add_r by lia. f_equal. unfold n. lia. }
      assert (2 * (A * 2 ^ (e + 2148)) <= 2 ^ 1074).
      { rewrite <- Hsub. rewrite Z.mul_assoc. apply Z.mul_le_mono_nonneg_r; lia. }
      change (2 ^ 1126) with (2 ^ 52 * 2 ^ 1074). change (2 ^ 53) with (2 ^ 52 * 2).
      assert (0 <= Zpos p * 2 ^ (e + 2148)) by lia.
      set (Q := A * 2 ^ (e + 2148)) in *. set (W := Zpos p * 2 ^ (e + 2148)) in *.
      change (2 ^ 52) with 4503599627370496. lia.
    + assert (Hnd : n = d - 53) by (unfold n, f in *; lia).
      assert (Hp52 : 2 ^ (d - 1) = 2 ^ 52 * 2 ^ n).
      { rewrite <- Z.pow_add_r by lia. f_equal. lia. }
      rewrite Hp52 in Hlo.
      assert (2 ^ 53 * A <= Zpos p).
      { change (2 ^ 53) with (2 ^ 52 * 2). transitivity (2 ^ 52 * 2 ^ n); [|exact Hlo].
        rewrite <- Z.mul_assoc. apply Z.mul_le_mono_nonneg_l; lia. }
      rewrite Z.mul_assoc.
      transitivity (Zpos p * 2 ^ (e + 2148)); [|change (2 ^ 1126) with 
        (2 ^ 1126); assert (0 < 2 ^ 1126) by reflexivity; lia].
      apply Z.mul_le_mono_nonneg_r; lia.
Qed.

End RoundingErrors.

(** ** Rounding errors, stated on [float] *)

Section FloatErrors.

Local Open Scope Z_scope.

Local Abbreviation V x := (fval (Prim2SF x)).
Local Abbreviation FIN x := (is_fin (Prim2SF x) = true).

Lemma add_error (x y : float) K :
  FIN x -> FIN y -> 0 <= K <= 2097 ->
  Z.abs (V x + V y) <= 2 ^ K ->
  FIN (x + y)%float /\ Z.abs (V (x + y)%float) <= 2 ^ K
  /\ 2 ^ 53 * Z.abs (V (x + y)%float - (V x + V y)) <= Z.abs (V x + V y).
Proof.
  intros Fx Fy HK Hs. rewrite add_spec.
  apply (SF64add_error (Prim2SF x) (Prim2SF y) K);
    try apply Prim2SF_valid; assumption.
Qed.

Lemma sub_error (x y : float) K :
  FIN x -> FIN y -> 0 <= K <= 2097 ->
  Z.abs (V x - V y) <= 2 ^ K ->
  FIN (x - y)%float /\ Z.abs (V (x - y)%float) <= 2 ^ K
  /\ 2 ^ 53 * Z.abs (V (x - y)%float - (V x - V y)) <= Z.abs (V x - V y).
Proof.
  intros Fx Fy HK Hs. rewrite sub_spec.
  apply (SF64sub_error (Prim2SF x) (Prim2SF y) K);
    try apply Prim2SF_valid; assumption.
Qed.

(** The product of two numbers of magnitudes at most [2^B1] and [2^B2], in
    units of [2^-1074]. *)
Lemma mul_error (x y : float) B1 B2 :
  FIN x -> FIN y -> 0 <= B1 -> 0 <= B2 -> 1074 <= B1 + B2 <= 3171 ->
  Z.abs (V x) <= 2 ^ B1 -> Z.abs (V y) <= 2 ^ B2 ->
  FIN (x * y)%float /\ Z.abs (V (x * y)%float) <= 2 ^ (B1 + B2 - 1074)
  /\ 2 ^ 53 * Z.abs (V (x * y)%float * 2 ^ 1074 - V x * V y)
     <= 2 ^ (B1 + B2) + 2 ^ 1126.
Proof.
  intros Fx Fy HB1 HB2 HB Hx Hy.
  assert (Hp : Z.abs (V x * V y) <= 2 ^ (B1 + B2)).
  { rewrite Z.abs_mul, Z.pow_add_r by lia.
    apply Z.mul_le_mono_nonneg; try assumption; apply Z.abs_nonneg. }
  assert (Hp' : Z.abs (V x * V y) <= 2 ^ (B1 + B2 - 1074) * 2 ^ 1074).
  { rewrite <- Z.pow_add_r by lia. replace (B1 + B2 - 1074 + 1074) with (B1 + B2) by lia.
    exact Hp. }
  rewrite mul_spec.
  destruct (SF64mul_error (Prim2SF x) (Prim2SF y) (B1 + B2 - 1074)) as (Hf & Hb & He);
    try apply Prim2SF_valid; try assumption; try lia.
  split; [exact Hf|]. split; [exact Hb|]. unfold SF64mul in *. lia.
Qed.

End FloatErrors.

(** ** Put-call parity *)

Section PhiPair.

Local Open Scope Z_scope.

Local Abbreviation V x := (fval (Prim2SF x)).
Local Abbreviation FIN x := (is_fin (Prim2SF x) = true).

Lemma unit_interval_fval (lo hi x : float) :
  FIN lo -> FIN hi ->
  (lo <=? x)%float = true -> (x <=? hi)%float = true ->
  FIN x /\ V lo <= V x <= V hi.
Proof.
  intros Flo Fhi H1 H2.
  assert (Fx : FIN x) by (apply (between_is_fin lo x hi); assumption).
  apply leb_fval in H1; [|exact Flo|exact Fx].
  apply leb_fval in H2; [|exact Fx|exact Fhi].
  split; [exact Fx | lia].
Qed.

(** [0.5 * (1 + e)] for [e] in [[-1, 1]]: twice its value is [1 + e] up to
    [2^-51], in units of [2^-1074]. *)
Lemma half_one_plus_error (e : float) :
  (-1 <=? e)%float = true -> (e <=? 1)%float = true ->
  FIN (0.5 * (1 + e))%float
  /\ 0 <= V (0.5 * (1 + e))%float <= 2 ^ 1074
  /\ Z.abs (2 * V (0.5 * (1 + e))%float - (2 ^ 1074 + V e)) <= 2 ^ 1023 + 1.
Proof.
  intros H1 H2.
  destruct (half_one_plus_range e H1 H2) as [R1 R2].
  destruct (unit_interval_fval 0 1 _ eq_refl eq_refl R1 R2) as [Fp Rp].
  change (V 0%float) with 0 in Rp. change (V 1%float) with (2 ^ 1074) in Rp.
  destruct (unit_interval_fval (-1) 1 e eq_refl eq_refl H1 H2) as [Fe Re].
  change (V (-1)%float) with (- 2 ^ 1074) in Re. change (V 1%float) with (2 ^ 1074) in Re.
  destruct (add_error 1 e 1075) as (Fa & Ba & Ea); try reflexivity; try assumption; try lia.
  { change (V 1%float) with (2 ^ 1074). lia. }
  change (V 1%float) with (2 ^ 1074) in Ea.
  destruct (mul_error 0.5 (1 + e) 1073 1075) as (_ & _ & Em);
    try reflexivity; try assumption; try lia.
  change (V 0.5%float) with (2 ^ 1073) in Em. change (1073 + 1075) with 2148 in Em.
  split; [exact Fp|]. split; [exact Rp|].
  set (P := V (0.5 * (1 + e))%float) in *. set (A := V (1 + e)%float) in *.
  set (E := V e) in *. clearbody P A E. lia.
Qed.


Lemma eqb_fval (x y : float) :
  FIN x -> FIN y -> (x =? y)%float = true -> V x = V y.
Proof.
  intros Fx Fy. rewrite FloatAxioms.eqb_spec. unfold SFeqb.
  rewrite SFcompare_fval by (assumption || apply Prim2SF_valid).
  destruct (V x ?= V y) eqn:E; try discriminate. intros _.
  apply Z.compare_eq. exact E.
Qed.

Lemma fval_abs (x : float) : V (abs x) = Z.abs (V x).
Proof.
  rewrite abs_spec. destruct (Prim2SF x) as [s|s| |s m e]; try reflexivity.
  cbn [SFabs fval cond_Zopp].
  assert (0 < 2 ^ (e + 1074) \/ 2 ^ (e + 1074) = 0).
  { destruct (Z_le_gt_dec 0 (e + 1074)); [left; apply Z.pow_pos_nonneg; lia|].
    right. apply Z.pow_neg_r. lia. }
  destruct s; cbn [cond_Zopp]; nia.
Qed.

Lemma is_fin_abs (x : float) : is_fin (Prim2SF (abs x)) = is_fin (Prim2SF x).
Proof. rewrite abs_spec. destruct (Prim2SF x); reflexivity. Qed.

(** A magnitude below a finite bound: the number is finite. *)
Lemma abs_leb_fval (x b : float) :
  FIN b -> (abs x <=? b)%float = true -> FIN x /\ Z.abs (V x) <= V b.
Proof.
  intros Fb H.
  assert (Fx : FIN x).
  { rewrite leb_spec, abs_spec in H. unfold SFleb in H.
    destruct (Prim2SF b) as [sb|sb| |sb mb eb]; try discriminate;
      destruct (Prim2SF x) as [sx|sx| |sx mx ex]; try reflexivity;
      cbn in H; try discriminate; destruct sb; discriminate. }
  split; [exact Fx|].
  apply leb_fval in H; [|rewrite is_fin_abs; exact Fx|exact Fb].
  rewrite fval_abs in H. exact H.
Qed.

Lemma opp_not_nan (x : float) : x <> nan -> (- x)%float <> nan.
Proof.
  intros Hx H. apply Hx. apply Prim2SF_nan. apply Prim2SF_nan in H.
  rewrite opp_spec in H. destruct (Prim2SF x); try discriminate. reflexivity.
Qed.

End PhiPair.

Section Parity.

Variables Log Exp Erf : float -> float.
Variable Pow : float -> float -> float.
Hypothesis Erf_range : ErfRange Erf.
Hypothesis Erf_odd : ErfOdd Erf.

Local Open Scope Z_scope.

Local Abbreviation V x := (fval (Prim2SF x)).
Local Abbreviation FIN x := (is_fin (Prim2SF x) = true).

(** [Phi(x)] and [Phi(-x)] lie in [[0, 1]] and add up to one, up to
    [2^-51]. *)
Lemma Phi_pair (x : float) :
  x <> nan ->
  FIN (Phi Erf x) /\ FIN (Phi Erf (- x))
  /\ 0 <= V (Phi Erf x) <= 2 ^ 1074
  /\ 0 <= V (Phi Erf (- x)) <= 2 ^ 1074
  /\ Z.abs (V (Phi Erf x) + V (Phi Erf (- x)) - 2 ^ 1074) <= 2 ^ 1023 + 1.
Proof.
  intros Hx. unfold Phi. rewrite opp_div_l.
  assert (Hy : (x / Sqrt2)%float <> nan) by (apply div_Sqrt2_not_nan; exact Hx).
  set (y := (x / Sqrt2)%float) in *.
  destruct (Erf_range y Hy) as [L1 U1].
  destruct (Erf_range (- y)%float (opp_not_nan y Hy)) as [L2 U2].
  destruct (unit_interval_fval (-1) 1 _ eq_refl eq_refl L1 U1) as [F1 _].
  destruct (unit_interval_fval (-1) 1 _ eq_refl eq_refl L2 U2) as [F2 _].
  pose proof (eqb_fval _ _ F2 ltac:(rewrite is_fin_opp; exact F1) (Erf_odd y Hy)) as Hodd.
  rewrite fval_opp in Hodd.
  destruct (half_one_plus_error _ L1 U1) as (Fp & Rp & Ep).
  destruct (half_one_plus_error _ L2 U2) as (Fp' & Rp' & Ep').
  rewrite Hodd in Ep'.
  repeat (split; [assumption|]).
  set (P := V (0.5 * (1 + Erf y))%float) in *.
  set (P' := V (0.5 * (1 + Erf (- y)))%float) in *.
  set (E := V (Erf y)) in *. clearbody P P' E. lia.
Qed.

(** X12: [Phi(x) + Phi(-x)] is one up to rounding: for every [x] other
    than NaN, [|Phi(x) + Phi(-x) - 1| <= 1e-15], [math.Erf] being odd with
    values in [[-1, 1]]. *)
Theorem Phi_complement (x : float) :
  x <> nan ->
  (Abs (Phi Erf x + Phi Erf (- x) - 1) <=? 1e-15)%float = true.
Proof.
  intros Hx. destruct (Phi_pair x Hx) as (Fp & Fp' & Rp & Rp' & Hs).
  destruct (add_error (Phi Erf x) (Phi Erf (- x)) 1075) as (Fa & Ba & Ea);
    try assumption; try lia.
  destruct (sub_error (Phi Erf x + Phi Erf (- x)) 1 1075) as (Ft & Bt & Et);
    try assumption; try reflexivity; try lia.
  { change (V 1%float) with (2 ^ 1074). lia. }
  change (V 1%float) with (2 ^ 1074) in Et.
  unfold Abs. apply leb_fval; [rewrite is_fin_abs; exact Ft | reflexivity |].
  rewrite fval_abs.
  apply Z.le_trans with (2 ^ 1024); [|vm_compute; discriminate].
  set (P := V (Phi Erf x)) in *. set (P' := V (Phi Erf (- x))) in *.
  set (A := V (Phi Erf x + Phi Erf (- x))%float) in *.
  set (T := V (Phi Erf x + Phi Erf (- x) - 1)%float) in *.
  clearbody P P' A T. lia.
Qed.


(** The same bounds without absolute values. *)
Lemma sub_error_bounds (x y : float) K :
  FIN x -> FIN y -> 53 <= K <= 2097 ->
  - 2 ^ K <= V x - V y <= 2 ^ K ->
  FIN (x - y)%float
  /\ - 2 ^ K <= V (x - y)%float <= 2 ^ K
  /\ - 2 ^ (K - 53) <= V (x - y)%float - (V x - V y) <= 2 ^ (K - 53).
Proof.
  intros Fx Fy HK Hs.
  assert (Hs' : Z.abs (V x - V y) <= 2 ^ K) by (apply Z.abs_le; exact Hs).
  destruct (sub_error x y K Fx Fy ltac:(lia) Hs') as (Fr & Br & Er).
  split; [exact Fr|]. split; [apply Z.abs_le; exact Br|]. apply Z.abs_le.
  assert (E : 2 ^ 53 * Z.abs (V (x - y)%float - (V x - V y)) <= 2 ^ 53 * 2 ^ (K - 53)).
  { rewrite <- Z.pow_add_r by lia. replace (53 + (K - 53)) with K by lia.
    apply Z.le_trans with (Z.abs (V x - V y)); assumption. }
  apply Z.mul_le_mono_pos_l in E; [exact E | reflexivity].
Qed.

(** A price of magnitude at most [2^20] multiplied by a probability. *)
Lemma weighted_error (S p : float) :
  FIN S -> - 2 ^ 1094 <= V S <= 2 ^ 1094 ->
  FIN p -> 0 <= V p <= 2 ^ 1074 ->
  FIN (S * p)%float /\ - 2 ^ 1094 <= V (S * p)%float <= 2 ^ 1094
  /\ - (2 ^ 1074 * (2 ^ 1041 + 1)) <= V (S * p)%float * 2 ^ 1074 - V S * V p
     <= 2 ^ 1074 * (2 ^ 1041 + 1).
Proof.
  intros FS BS Fp Rp.
  assert (BS' : Z.abs (V S) <= 2 ^ 1094) by (apply Z.abs_le; exact BS).
  assert (Rp' : Z.abs (V p) <= 2 ^ 1074) by (apply Z.abs_le; lia).
  destruct (mul_error S p 1094 1074 FS Fp ltac:(lia) ltac:(lia) ltac:(lia) BS' Rp')
    as (Fm & Bm & Em).
  change (1094 + 1074 - 1074) with 1094 in Bm. change (1094 + 1074) with 2168 in Em.
  split; [exact Fm|]. split; [apply Z.abs_le; exact Bm|]. apply Z.abs_le.
  set (W := V S * V p) in *. set (M := V (S * p)%float) in *.
  clearbody W M. clear - Em.
  set (A := Z.abs (M * 2 ^ 1074 - W)) in *. clearbody A. lia.
Qed.

Lemma weighted_pair (S : float) (P P' : Z) :
  - 2 ^ 1094 <= V S <= 2 ^ 1094 -> Z.abs (P + P' - 2 ^ 1074) <= 2 ^ 1023 + 1 ->
  - (2 ^ 1094 * (2 ^ 1023 + 1)) <= V S * P + V S * P' - V S * 2 ^ 1074
  <= 2 ^ 1094 * (2 ^ 1023 + 1).
Proof.
  intros BS HP. apply Z.abs_le.
  replace (V S * P + V S * P' - V S * 2 ^ 1074) with (V S * (P + P' - 2 ^ 1074)) by ring.
  rewrite Z.abs_mul. apply Z.mul_le_mono_nonneg; try assumption;
    try apply Z.abs_nonneg. apply Z.abs_le. exact BS.
Qed.

(** X13: put-call parity holds up to rounding.  For a contract and a
    volatility whose [d1] and [d2] are not NaN, with an underlying price
    [S] and a discounted strike [F = Strike * Exp(-RiskFreeRate * T)] of
    magnitude at most [1e6], the call and the put prices computed by
    [BlackScholesOptionPrice] satisfy [|call - put - (S - F)| <= 1e-6],
    [math.Erf] being odd with values in [[-1, 1]]. *)
Theorem put_call_parity (option : Option) (volatility : float) :
  d1_OptionPrice Log Pow option volatility <> nan ->
  d2_OptionPrice Log Pow option volatility <> nan ->
  (Abs (UnderlyingPrice option) <=? 1e6)%float = true ->
  (Abs (discountedStrike Exp option) <=? 1e6)%float = true ->
  (Abs (callPrice Log Exp Erf Pow option volatility
        - putPrice Log Exp Erf Pow option volatility
        - (UnderlyingPrice option - discountedStrike Exp option)) <=? 1e-6)%float = true.
Proof.
  intros Hd1 Hd2 HS HF.
  unfold callPrice, putPrice, BlackScholesOptionPrice, withOptionType.
  cbn [UnderlyingPrice Strike RiskFreeRate DaysToExpiration OptionType' OptionType_eqb].
  cbv zeta.
  fold (d1_OptionPrice Log Pow option volatility).
  fold (d2_OptionPrice Log Pow option volatility).
  fold (discountedStrike Exp option).
  set (d1 := d1_OptionPrice Log Pow option volatility) in *.
  set (d2 := d2_OptionPrice Log Pow option volatility) in *.
  set (S := UnderlyingPrice option) in *.
  set (F := discountedStrike Exp option) in *.
  clearbody d1 d2 S F.
  unfold Abs in *.
  destruct (abs_leb_fval S 1e6 eq_refl HS) as [FS BS].
  destruct (abs_leb_fval F 1e6 eq_refl HF) as [FF BF].
  assert (Hb : V 1e6%float <= 2 ^ 1094) by (vm_compute; discriminate).
  assert (BS' : - 2 ^ 1094 <= V S <= 2 ^ 1094) by (apply Z.abs_le; lia).
  assert (BF' : - 2 ^ 1094 <= V F <= 2 ^ 1094) by (apply Z.abs_le; lia).
  clear HS HF BS BF Hb.
  destruct (Phi_pair d1 Hd1) as (Fp & Fp' & Rp & Rp' & Hp).
  destruct (Phi_pair d2 Hd2) as (Fq & Fq' & Rq & Rq' & Hq).
  destruct (weighted_error S _ FS BS' Fp Rp) as (F1 & B1 & E1).
  destruct (weighted_error S _ FS BS' Fp' Rp') as (F1' & B1' & E1').
  destruct (weighted_error F _ FF BF' Fq Rq) as (F2 & B2 & E2).
  destruct (weighted_error F _ FF BF' Fq' Rq') as (F2' & B2' & E2').
  pose proof (weighted_pair S _ _ BS' Hp) as G1.
  pose proof (weighted_pair F _ _ BF' Hq) as G2.
  clear Hp Hq Rp Rp' Rq Rq'.
  set (sp := (S * Phi Erf d1)%float) in *.
  set (sp' := (S * Phi Erf (- d1))%float) in *.
  set (fq := (F * Phi Erf d2)%float) in *.
  set (fq' := (F * Phi Erf (- d2))%float) in *.
  assert (P1095 : 2 ^ 1095 = 2 * 2 ^ 1094) by reflexivity.
  assert (P1096 : 2 ^ 1096 = 4 * 2 ^ 1094) by reflexivity.
  assert (P1097 : 2 ^ 1097 = 8 * 2 ^ 1094) by reflexivity.
  destruct (sub_error_bounds sp fq 1095) as (Fc & Bc & Ec); try assumption;
    [lia | clear - B1 B2 P1095; lia |].
  destruct (sub_error_bounds fq' sp' 1095) as (Fu & Bu & Eu); try assumption;
    [lia | clear - B1' B2' P1095; lia |].
  destruct (sub_error_bounds (sp - fq) (fq' - sp') 1096) as (Fd & Bd & Ed);
    try assumption; [lia | clear - Bc Bu P1095 P1096; lia |].
  destruct (sub_error_bounds S F 1095) as (Fr & Br & Er); try assumption;
    [lia | clear - BS' BF' P1095; lia |].
  destruct (sub_error_bounds (sp - fq - (fq' - sp')) (S - F) 1097) as (Ff & Bf & Ef);
    try assumption; [lia | clear - Bd Br P1095 P1096 P1097; lia |].
  apply leb_fval; [rewrite is_fin_abs; exact Ff | reflexivity |].
  rewrite fval_abs.
  apply Z.le_trans with (2 ^ 1054); [|vm_compute; discriminate].
  apply Z.abs_le.
  change (1095 - 53) with 1042 in *. change (1096 - 53) with 1043 in *.
  change (1097 - 53) with 1044 in *.
  set (W1 := V S * V (Phi Erf d1)) in *. set (W1' := V S * V (Phi Erf (- d1))) in *.
  set (W2 := V F * V (Phi Erf d2)) in *. set (W2' := V F * V (Phi Erf (- d2))) in *.
  set (vS := V S) in *. set (vF := V F) in *.
  set (vsp := V sp) in *. set (vsp' := V sp') in *.
  set (vfq := V fq) in *. set (vfq' := V fq') in *.
  set (vc := V (sp - fq)%float) in *. set (vu := V (fq' - sp')%float) in *.
  set (vd := V (sp - fq - (fq' - sp'))%float) in *.
  set (vr := V (S - F)%float) in *.
  set (vf := V (sp - fq - (fq' - sp') - (S - F))%float) in *.
  clearbody W1 W1' W2 W2' vS vF vsp vsp' vfq vfq' vc vu vd vr vf.
  clear - E1 E1' E2 E2' G1 G2 Ec Eu Ed Er Ef.
  lia.
Qed.

End Parity.

(** ** The sample error function is odd *)

Lemma abs_opp x : abs (- x) = abs x.
Proof.
  apply Prim2SF_inj. rewrite !abs_spec, opp_spec.
  destruct (Prim2SF x); reflexivity.
Qed.

Lemma opp_involutive x : - - x = x.
Proof.
  apply Prim2SF_inj. rewrite !opp_spec.
  destruct (Prim2SF x) as [[|]|[|]| |[|] m e]; reflexivity.
Qed.

(** A number other than NaN is positive, negative or a zero. *)
Lemma sign_cases x :
  x <> nan ->
  ((x <? 0) = false /\ (- x <? 0) = true)
  \/ ((x <? 0) = true /\ (- x <? 0) = false)
  \/ ((x <? 0) = false /\ (- x <? 0) = false /\ abs x = 0).
Proof.
  intros Hx. rewrite !ltb_spec, opp_spec.
  assert (Ha : Prim2SF (abs x) = Prim2SF 0 -> abs x = 0) by apply Prim2SF_inj.
  rewrite abs_spec in Ha. change (Prim2SF 0) with (S754_zero false) in *.
  assert (Hn : Prim2SF x <> S754_nan) by (intros H; apply Hx, Prim2SF_nan, H).
  destruct (Prim2SF x) as [[|]|[|]| |[|] m e]; try (exfalso; apply Hn; reflexivity);
    try (left; split; reflexivity); try (right; left; split; reflexivity);
    right; right; repeat split; apply Ha; reflexivity.
Qed.

Lemma eqb_refl_unit r : (0 <=? r) = true -> (r <=? 1) = true -> (r =? r) = true.
Proof.
  intros H0 H1.
  assert (Fr : is_fin (Prim2SF r) = true)
    by (apply (between_is_fin 0 r 1); [reflexivity|reflexivity|exact H0|exact H1]).
  rewrite FloatAxioms.eqb_spec. unfold SFeqb.
  rewrite SFcompare_fval by (assumption || apply Prim2SF_valid).
  rewrite Z.compare_refl. reflexivity.
Qed.

Lemma Sample_ErfOdd : ErfOdd Sample.Erf.
Proof.
  intros x Hx. unfold Sample.Erf.
  rewrite (is_nan_false x Hx), (is_nan_false (- x) (opp_not_nan x Hx)), abs_opp.
  cbv zeta.
  set (r := if 6 <=? abs x then 1
            else Sample.clamp (2 / sqrt Pi * Sample.Exp (- (abs x * abs x)) * abs x
                               * Sample.erfSeries 200 3 (2 * (abs x * abs x)))).
  assert (Hr : (0 <=? r) = true /\ (r <=? 1) = true).
  { unfold r. destruct (6 <=? abs x); [split; reflexivity | apply Sample_clamp_range]. }
  destruct Hr as [H0 H1].
  destruct (sign_cases x Hx) as [[-> ->]|[[-> ->]|(-> & -> & Ha)]].
  - destruct (unit_range_signed r true H0 H1) as [L U].
    assert (F : is_fin (Prim2SF (- r)) = true)
      by (apply (between_is_fin (-1) (- r) 1); [reflexivity|reflexivity|exact L|exact U]).
    rewrite FloatAxioms.eqb_spec. unfold SFeqb.
    rewrite SFcompare_fval by (assumption || apply Prim2SF_valid).
    rewrite Z.compare_refl. reflexivity.
  - rewrite opp_involutive. apply eqb_refl_unit; assumption.
  - unfold r. rewrite Ha. vm_compute. reflexivity.
Qed.

Lemma Phi_complement_witness :
  (Abs (Phi Sample.Erf 0.3 + Phi Sample.Erf (- 0.3) - 1) <=? 1e-15) = true.
Proof.
  apply (Phi_complement Sample.Erf Sample_ErfRange Sample_ErfOdd).
  intros H. discriminate (f_equal is_nan H).
Defined.

Lemma put_call_parity_witness :
  (Abs (callPrice Sample.Log Sample.Exp Sample.Erf Sample.Pow (scenario 10.0 Call) 0.2
        - putPrice Sample.Log Sample.Exp Sample.Erf Sample.Pow (scenario 10.0 Call) 0.2
        - (UnderlyingPrice (scenario 10.0 Call)
           - discountedStrike Sample.Exp (scenario 10.0 Call))) <=? 1e-6) = true.
Proof.
  apply (put_call_parity Sample.Log Sample.Exp Sample.Erf Sample.Pow
           Sample_ErfRange Sample_ErfOdd).
  - intros H. discriminate (f_equal is_nan H).
  - intros H. discriminate (f_equal is_nan H).
  - reflexivity.
  - reflexivity.
Defined.

